(** * movie-subtitle-to-story: audio framing codec, WAV writer, request
      functions, the live-chat session and the other components

    A shallow embedding of [services/geminiService.ts] (the audio utility
    functions, [convertPcmToWavBlob], [analyzeVideoTranscriptForInfo], the
    other request functions and the API key check), of the handlers of
    [components/LiveChat.tsx] ([handleLiveMessage], [startRecording],
    [stopRecording]), of [components/ApiKeyChecker.tsx],
    [components/GeneralChat.tsx] ([sendMessage]) and
    [components/AudioPlayer.tsx] (the playback effect), with the properties
    the specification states about them and further properties of the
    code.

    Conventions.
    - A JavaScript string is the list of its UTF-16 code units ([jsstring]).
    - Typed arrays are lists: [Uint8Array] holds integers in [0, 256),
      [Int16Array] integers in [-32768, 32768); an indexed store converts
      the stored number as ECMAScript does (ToUint8, ToInt16) and is ignored
      out of range, which is what stdpp's list insert does.
    - A JavaScript number is a rational, NaN or an infinity.  The arithmetic
      the codec performs on samples (a float32 times 32768, an int16 divided
      by 32768) is exact in IEEE double precision, so rationals model it
      without rounding.  Clock values of the playback scheduler are doubles:
      each is the rational it denotes, and the scheduler's addition and the
      division behind [buffer.duration] round to the nearest double
      ([round64], [fadd]).
    - Typed-array views use the byte order of the platform; the model fixes
      little-endian, the order of every platform the application runs on.
    - An exception is a [Throw] in the [result] monad. *)

From Stdlib Require Import ZArith QArith Qabs Qround Qminmax Lia List String Ascii.
From stdpp Require Import base option list gmap pretty.
From Stdlib Require Import Lqa Qpower.

Open Scope Z_scope.

(** ** Exceptions and the result monad *)

Inductive exn :=
  | RangeError
  | TypeError
  | SyntaxError
  | InvalidCharacterError
  | NotSupportedError
  | InvalidStateError
  | GenericError.

Inductive result (A : Type) :=
  | Ok (a : A)
  | Throw (e : exn).
Arguments Ok {A} a.
Arguments Throw {A} e.

Global Instance result_ret : MRet result := fun A a => Ok a.
Global Instance result_bind : MBind result := fun A B f m =>
  match m with
  | Ok a => f a
  | Throw e => Throw e
  end.

Definition is_Ok {A} (r : result A) : Prop := exists a, r = Ok a.
Definition throws {A} (r : result A) : Prop := exists e, r = Throw e.

(** ** JavaScript values *)

Module JS.

(** Strings: UTF-16 code units. *)
Abbreviation jsstring := (list Z).

Definition jsstr (s : string) : jsstring :=
  map (fun a => Z.of_N (N_of_ascii a)) (list_ascii_of_string s).

(** Numbers. *)
Inductive number :=
  | Num (q : Q)
  | NaN
  | Infinity (negative : bool).

(** [x * c] for a positive finite constant [c]. *)
Definition scale (x : number) (c : Q) : number :=
  match x with
  | Num q => Num (q * c)
  | NaN => NaN
  | Infinity s => Infinity s
  end.

(** The integer part of a rational, rounding toward zero. *)
Definition truncate (q : Q) : Z := Z.quot (Qnum q) (Z.pos (Qden q)).

(** ToUint8, ToUint16, ToUint32: truncate, then reduce modulo 2^bits;
    NaN and the infinities convert to 0. *)
Definition ToUintN (bits : Z) (x : number) : Z :=
  match x with
  | Num q => truncate q mod 2 ^ bits
  | _ => 0
  end.

(** ToInt16: as ToUint16, then the upper half maps to the negatives. *)
Definition ToInt16 (x : number) : Z :=
  let m := ToUintN 16 x in
  if 2 ^ 15 <=? m then m - 2 ^ 16 else m.

(** *** Double precision

    The doubles are the rationals [m * 2^e] with [|m| <= 2^53] and
    [-1074 <= e]; the results of [+] and [/] on numbers are the exact
    results rounded to the nearest double, ties to the even significand. *)

(** The exponent of the leading bit of a positive rational. *)
Definition floor_log2 (q : Q) : Z :=
  let k := Z.log2 (Qnum q) - Z.log2 (Z.pos (Qden q)) in
  if Qle_bool (2 ^ k) q then k else k - 1.

(** The nearest integer, ties to even. *)
Definition round_half_even (q : Q) : Z :=
  let f := Qfloor q in
  match (q - inject_Z f ?= 1 # 2)%Q with
  | Lt => f
  | Gt => f + 1
  | Eq => if Z.even f then f else f + 1
  end.

(** The double nearest to a positive rational: 53 significant bits, and
    steps of [2^-1074] in the subnormal range. *)
Definition nearest64 (q : Q) : Q :=
  let e := Z.max (floor_log2 q - 52) (- 1074) in
  (inject_Z (round_half_even (q / 2 ^ e)) * 2 ^ e)%Q.

(** Rounding to double precision.  A magnitude of [2^1024 - 2^970] or more
    rounds to an infinity instead ([overflows]); the clock values of the
    application, seconds of playback, stay far below. *)
Definition round64 (q : Q) : Q :=
  match (q ?= 0)%Q with
  | Eq => 0%Q
  | Gt => nearest64 q
  | Lt => (- nearest64 (- q))%Q
  end.

Definition overflows (q : Q) : bool :=
  Qle_bool (2 ^ 1024 - 2 ^ 970) (Qabs q).

(** [a + b] on doubles. *)
Definition fadd (a b : Q) : Q := round64 (a + b).

(** The doubles, but for the bound on the exponent that overflow sets: a
    significand of at most 53 bits on a grid no finer than [2^-1074]. *)
Definition double (q : Q) : Prop :=
  exists m e : Z,
    Z.abs m <= 2 ^ 53 /\ - 1074 <= e /\ (q == inject_Z m * 2 ^ e)%Q.

(** A [for (let i = 0; i < count; i++)] loop over a state. *)
Fixpoint for_loop {S : Type} (start : nat) (count : nat)
    (body : nat -> S -> S) (s : S) : S :=
  match count with
  | O => s
  | Datatypes.S c => for_loop (Datatypes.S start) c body (body start s)
  end.

(** [String.fromCharCode(x)]: one code unit, ToUint16 of the argument. *)
Definition fromCharCode (x : number) : jsstring := [ToUintN 16 x].

(** *** Typed-array views over a shared buffer *)

(** The two bytes of a 16-bit element, low byte first. *)
Definition bytes_of_int16 (v : Z) : list Z :=
  [Z.land v 255; Z.land (Z.shiftr v 8) 255].

(** [new Uint8Array(int16.buffer)]. *)
Definition Uint8Array_of_Int16 (a : list Z) : list Z :=
  flat_map bytes_of_int16 a.

Definition int16_of_bytes (lo hi : Z) : Z :=
  let u := Z.lor lo (Z.shiftl hi 8) in
  if 2 ^ 15 <=? u then u - 2 ^ 16 else u.

Fixpoint int16_view (buf : list Z) : list Z :=
  match buf with
  | lo :: hi :: rest => int16_of_bytes lo hi :: int16_view rest
  | _ => []
  end.

(** [new Int16Array(buffer)]: a RangeError unless the byte length is a
    multiple of the element size. *)
Definition Int16Array_of_buffer (buf : list Z) : result (list Z) :=
  if (Z.of_nat (length buf) mod 2 =? 0) then Ok (int16_view buf)
  else Throw RangeError.

(** *** Base64: [btoa] and [atob] *)

Definition b64char (s : Z) : Z :=
  if s <? 26 then 65 + s
  else if s <? 52 then 97 + (s - 26)
  else if s <? 62 then 48 + (s - 52)
  else if s =? 62 then 43
  else 47.

Definition sextet_of_char (c : Z) : option Z :=
  if (65 <=? c) && (c <=? 90) then Some (c - 65)
  else if (97 <=? c) && (c <=? 122) then Some (c - 71)
  else if (48 <=? c) && (c <=? 57) then Some (c + 4)
  else if c =? 43 then Some 62
  else if c =? 47 then Some 63
  else None.

Definition pad_char : Z := 61.

Fixpoint sextets_of_bytes (bs : list Z) : list Z :=
  match bs with
  | [] => []
  | [a] => [Z.shiftr a 2; Z.shiftl (Z.land a 3) 4]
  | [a; b] =>
      [Z.shiftr a 2;
       Z.lor (Z.shiftl (Z.land a 3) 4) (Z.shiftr b 4);
       Z.shiftl (Z.land b 15) 2]
  | a :: b :: c :: rest =>
      Z.shiftr a 2
      :: Z.lor (Z.shiftl (Z.land a 3) 4) (Z.shiftr b 4)
      :: Z.lor (Z.shiftl (Z.land b 15) 2) (Z.shiftr c 6)
      :: Z.land c 63
      :: sextets_of_bytes rest
  end.

Definition padding (n : nat) : jsstring :=
  replicate ((3 - n mod 3) mod 3)%nat pad_char.

Definition base64_encode (bs : list Z) : jsstring :=
  map b64char (sextets_of_bytes bs) ++ padding (length bs).

(** [btoa]: InvalidCharacterError when a code unit exceeds 255. *)
Definition btoa (s : jsstring) : result jsstring :=
  if forallb (fun c => (0 <=? c) && (c <=? 255)) s then Ok (base64_encode s)
  else Throw InvalidCharacterError.

Definition ascii_whitespace (c : Z) : bool :=
  (c =? 9) || (c =? 10) || (c =? 12) || (c =? 13) || (c =? 32).

(** Removes one or two trailing [=] signs. *)
Definition strip_padding (s : jsstring) : jsstring :=
  match rev s with
  | p :: q :: r =>
      if p =? pad_char then
        if q =? pad_char then rev r else rev (q :: r)
      else s
  | [p] => if p =? pad_char then [] else s
  | [] => s
  end.

Fixpoint bytes_of_sextets (ss : list Z) : list Z :=
  match ss with
  | s0 :: s1 :: s2 :: s3 :: rest =>
      Z.lor (Z.shiftl s0 2) (Z.shiftr s1 4)
      :: Z.lor (Z.shiftl (Z.land s1 15) 4) (Z.shiftr s2 2)
      :: Z.lor (Z.shiftl (Z.land s2 3) 6) s3
      :: bytes_of_sextets rest
  | [s0; s1; s2] =>
      [Z.lor (Z.shiftl s0 2) (Z.shiftr s1 4);
       Z.lor (Z.shiftl (Z.land s1 15) 4) (Z.shiftr s2 2)]
  | [s0; s1] => [Z.lor (Z.shiftl s0 2) (Z.shiftr s1 4)]
  | _ => []
  end.

(** [atob], the forgiving base64 decoding of the HTML standard: ASCII
    whitespace is removed, padding is stripped when the length is a multiple
    of four, a length of 1 modulo 4 or a character outside the alphabet is
    an InvalidCharacterError. *)
Definition atob (s : jsstring) : result jsstring :=
  let d := filter (fun c => ascii_whitespace c = false) s in
  let d := if (length d mod 4 =? 0)%nat then strip_padding d else d in
  if (length d mod 4 =? 1)%nat then Throw InvalidCharacterError
  else
    match mapM sextet_of_char d with
    | Some ss => Ok (bytes_of_sextets ss)
    | None => Throw InvalidCharacterError
    end.

End JS.

(** ** Text: [String.prototype.trim] and [JSON.parse] *)

Module Json.
Import JS.

(** White space and line terminators of ECMAScript, as [trim] strips them. *)
Definition js_whitespace (c : Z) : bool :=
  (c =? 9) || (c =? 10) || (c =? 11) || (c =? 12) || (c =? 13) || (c =? 32)
  || (c =? 160) || (c =? 5760) || ((8192 <=? c) && (c <=? 8202))
  || (c =? 8232) || (c =? 8233) || (c =? 8239) || (c =? 8287)
  || (c =? 12288) || (c =? 65279).

Fixpoint trimStart (s : jsstring) : jsstring :=
  match s with
  | c :: r => if js_whitespace c then trimStart r else s
  | [] => []
  end.

Definition trim (s : jsstring) : jsstring :=
  rev (trimStart (rev (trimStart s))).

(** A string used as a condition: true unless empty. *)
Definition truthy (s : jsstring) : bool :=
  match s with
  | [] => false
  | _ => true
  end.

#[local] Set Warnings "-register-all".
Inductive json :=
  | JNull
  | JBool (b : bool)
  | JNumber (lexeme : jsstring)
  | JString (s : jsstring)
  | JArray (items : list json)
  | JObject (members : list (jsstring * json)).

Definition json_ws (c : Z) : bool :=
  (c =? 32) || (c =? 9) || (c =? 10) || (c =? 13).

Fixpoint skip_ws (s : jsstring) : jsstring :=
  match s with
  | c :: r => if json_ws c then skip_ws r else s
  | [] => []
  end.

Definition is_digit (c : Z) : bool := (48 <=? c) && (c <=? 57).

Definition hex_value (c : Z) : option Z :=
  if is_digit c then Some (c - 48)
  else if (97 <=? c) && (c <=? 102) then Some (c - 87)
  else if (65 <=? c) && (c <=? 70) then Some (c - 55)
  else None.

Definition escape (c : Z) : option Z :=
  if c =? 34 then Some 34
  else if c =? 92 then Some 92
  else if c =? 47 then Some 47
  else if c =? 98 then Some 8
  else if c =? 102 then Some 12
  else if c =? 110 then Some 10
  else if c =? 114 then Some 13
  else if c =? 116 then Some 9
  else None.

(** The characters of a string literal after its opening quote. *)
Fixpoint parse_chars (s : jsstring) (acc : jsstring)
    : option (jsstring * jsstring) :=
  match s with
  | [] => None
  | c :: r =>
      if c =? 34 then Some (rev acc, r)
      else if c =? 92 then
        match r with
        | [] => None
        | e :: r1 =>
            if e =? 117 then
              match r1 with
              | h1 :: h2 :: h3 :: h4 :: r2 =>
                  match hex_value h1, hex_value h2, hex_value h3, hex_value h4 with
                  | Some a, Some b, Some c', Some d =>
                      parse_chars r2 (((a * 16 + b) * 16 + c') * 16 + d :: acc)
                  | _, _, _, _ => None
                  end
              | _ => None
              end
            else
              match escape e with
              | Some x => parse_chars r1 (x :: acc)
              | None => None
              end
        end
      else if c <? 32 then None
      else parse_chars r (c :: acc)
  end.

Fixpoint take_digits (s : jsstring) : jsstring * jsstring :=
  match s with
  | c :: r =>
      if is_digit c then let (ds, r') := take_digits r in (c :: ds, r')
      else ([], s)
  | [] => ([], [])
  end.

(** A number literal: an optional minus sign, then 0 or a digit string
    without leading zero, then an optional fraction (a dot and digits) and
    an optional exponent (e or E, an optional sign, digits). *)
Definition parse_number (s : jsstring) : option (jsstring * jsstring) :=
  let (sign, s1) :=
    match s with
    | c :: r => if c =? 45 then ([45], r) else ([], s)
    | [] => ([], s)
    end in
  match s1 with
  | [] => None
  | c :: r =>
      if is_digit c then
        let (int, s2) :=
          if c =? 48 then ([c], r)
          else let (ds, r') := take_digits r in (c :: ds, r') in
        let frac :=
          match s2 with
          | d :: r2 =>
              if d =? 46 then
                let (ds, r3) := take_digits r2 in
                if truthy ds then Some (d :: ds, r3) else None
              else Some ([], s2)
          | [] => Some ([], s2)
          end in
        match frac with
        | None => None
        | Some (fr, s3) =>
            match s3 with
            | e :: r4 =>
                if (e =? 101) || (e =? 69) then
                  let (esign, r5) :=
                    match r4 with
                    | g :: r6 =>
                        if (g =? 43) || (g =? 45) then ([g], r6) else ([], r4)
                    | [] => ([], r4)
                    end in
                  let (ds, r7) := take_digits r5 in
                  if truthy ds
                  then Some (sign ++ int ++ fr ++ e :: esign ++ ds, r7)
                  else None
                else Some (sign ++ int ++ fr, s3)
            | [] => Some (sign ++ int ++ fr, s3)
            end
        end
      else None
  end.

Fixpoint strip_prefix (p s : jsstring) : option jsstring :=
  match p, s with
  | [], _ => Some s
  | a :: p', b :: s' => if a =? b then strip_prefix p' s' else None
  | _ :: _, [] => None
  end.

Fixpoint parse_value (fuel : nat) (s : jsstring) : option (json * jsstring) :=
  match fuel with
  | O => None
  | S f =>
      match skip_ws s with
      | [] => None
      | c :: r =>
          if c =? 123 then
            match skip_ws r with
            | [] => None
            | c1 :: r1 =>
                if c1 =? 125 then Some (JObject [], r1)
                else parse_members f r []
            end
          else if c =? 91 then
            match skip_ws r with
            | [] => None
            | c1 :: r1 =>
                if c1 =? 93 then Some (JArray [], r1)
                else parse_elements f r []
            end
          else if c =? 34 then
            match parse_chars r [] with
            | Some (str, r1) => Some (JString str, r1)
            | None => None
            end
          else if c =? 116 then
            option_map (fun r1 => (JBool true, r1)) (strip_prefix (jsstr "rue") r)
          else if c =? 102 then
            option_map (fun r1 => (JBool false, r1)) (strip_prefix (jsstr "alse") r)
          else if c =? 110 then
            option_map (fun r1 => (JNull, r1)) (strip_prefix (jsstr "ull") r)
          else
            match parse_number (c :: r) with
            | Some (lexeme, r1) => Some (JNumber lexeme, r1)
            | None => None
            end
      end
  end
with parse_elements (fuel : nat) (s : jsstring) (acc : list json)
    : option (json * jsstring) :=
  match fuel with
  | O => None
  | S f =>
      match parse_value f s with
      | None => None
      | Some (v, r) =>
          match skip_ws r with
          | [] => None
          | c :: r1 =>
              if c =? 44 then parse_elements f r1 (v :: acc)
              else if c =? 93 then Some (JArray (rev (v :: acc)), r1)
              else None
          end
      end
  end
with parse_members (fuel : nat) (s : jsstring) (acc : list (jsstring * json))
    : option (json * jsstring) :=
  match fuel with
  | O => None
  | S f =>
      match skip_ws s with
      | [] => None
      | q :: r =>
          if q =? 34 then
            match parse_chars r [] with
            | None => None
            | Some (key, r1) =>
                match skip_ws r1 with
                | [] => None
                | colon :: r2 =>
                    if colon =? 58 then
                      match parse_value f r2 with
                      | None => None
                      | Some (v, r3) =>
                          match skip_ws r3 with
                          | [] => None
                          | c :: r4 =>
                              if c =? 44
                              then parse_members f r4 ((key, v) :: acc)
                              else if c =? 125
                              then Some (JObject (rev ((key, v) :: acc)), r4)
                              else None
                          end
                      end
                    else None
                end
            end
          else None
      end
  end.

(** [JSON.parse]: one value between optional white space, or a SyntaxError.
    Every nested value consumes a character, so twice the length of the text
    is fuel enough. *)
Definition JSON_parse (s : jsstring) : result json :=
  match parse_value (2 * length s + 2) s with
  | Some (v, r) =>
      match skip_ws r with
      | [] => Ok v
      | _ => Throw SyntaxError
      end
  | None => Throw SyntaxError
  end.

(** [value.key]: the last member of that name, [undefined] otherwise. *)
Fixpoint lookup_member (key : jsstring) (ms : list (jsstring * json))
    : option json :=
  match ms with
  | [] => None
  | (k, v) :: r =>
      match lookup_member key r with
      | Some v' => Some v'
      | None => if decide (k = key) then Some v else None
      end
  end.

Definition get (v : json) (key : jsstring) : option json :=
  match v with
  | JObject ms => lookup_member key ms
  | _ => None
  end.

End Json.

(** ** The Web Audio buffer *)

Module WebAudio.
Import JS.

Record AudioBuffer := mkAudioBuffer {
  sampleRate : Z;
  length : nat;
  channels : list (list number)
}.

(** [buffer.duration], in seconds: the length divided by the sample rate,
    a double. *)
Definition duration (b : AudioBuffer) : Q :=
  round64 (inject_Z (Z.of_nat (length b)) / inject_Z (sampleRate b)).

(** The limits of [createBuffer].  The Web Audio standard has every
    implementation support at least 32 channels and the sample rates from
    8000 to 96000 Hz; an implementation may accept more.  The model takes
    the limits the standard guarantees. *)
Definition maxChannels : Z := 32.
Definition minSampleRate : Z := 8000.
Definition maxSampleRate : Z := 96000.

(** [ctx.createBuffer(numberOfChannels, length, sampleRate)].  Both counts
    are converted to unsigned long (ToUint32); the call raises
    NotSupportedError when an argument is zero, negative or outside its
    range.  A created buffer is filled with silence. *)
Definition createBuffer (numberOfChannels : Z) (len : number) (rate : Z)
    : result AudioBuffer :=
  let n := ToUintN 32 len in
  if (numberOfChannels <=? 0) || (maxChannels <? numberOfChannels)
     || (n =? 0)
     || (rate <? minSampleRate) || (maxSampleRate <? rate)
  then Throw NotSupportedError
  else Ok {| sampleRate := rate;
             length := Z.to_nat n;
             channels := replicate (Z.to_nat numberOfChannels)
                                   (replicate (Z.to_nat n) (Num 0)) |}.

End WebAudio.

(** ** services/geminiService.ts: audio utility functions *)

Module Service.
Import JS Json WebAudio.

Definition INPUT_AUDIO_SAMPLE_RATE : Z := 16000.
Definition OUTPUT_AUDIO_SAMPLE_RATE : Z := 24000.
Definition AUDIO_PROCESSOR_BUFFER_SIZE : Z := 4096.
Definition AUDIO_NUM_CHANNELS : Z := 1.

Record EncodedMediaBlob := mkBlob {
  data : jsstring;
  mimeType : jsstring
}.

(** [bytes[i]] read as a number: [undefined] out of range. *)
Definition read_int (a : list Z) (i : nat) : number :=
  match a !! i with
  | Some v => Num (inject_Z v)
  | None => NaN
  end.

(** [encode]: the bytes become a binary string, one code unit per byte,
    which [btoa] encodes. *)
Definition encode (bytes : list Z) : result jsstring :=
  let len := List.length bytes in
  let binary :=
    for_loop 0 len
      (fun i binary => binary ++ fromCharCode (read_int bytes i))
      [] in
  btoa binary.

(** [decode]: the code units of [atob]'s binary string stored into a fresh
    [Uint8Array]. *)
Definition decode (base64 : jsstring) : result (list Z) :=
  binaryString ← atob base64;
  let len := List.length binaryString in
  let bytes := replicate len 0 in
  Ok (for_loop 0 len
        (fun i bytes => <[i := ToUintN 8 (read_int binaryString i)]> bytes)
        bytes).

(** JavaScript division of an integer count by an integer. *)
Definition divide (a b : Z) : number :=
  if b =? 0 then
    (if a =? 0 then NaN else Infinity (a <? 0))
  else Num (inject_Z a / inject_Z b).

(** The number of passes of [for (let i = 0; i < bound; i++)]. *)
Definition passes (bound : number) : nat :=
  match bound with
  | Num q => Z.to_nat (Qceiling q)
  | _ => O
  end.

(** [decodeAudioData].  The loop bound [frameCount] is the quotient as a
    number, so it may be fractional; the buffer is created with its integer
    part.  [channelData[i] = dataInt16[...] / 32768.0] stores NaN when the
    read is out of range and is ignored when [i] is. *)
Definition decodeAudioData (data : list Z) (sampleRate : Z) (numChannels : Z)
    : result AudioBuffer :=
  dataInt16 ← Int16Array_of_buffer data;
  let frameCount := divide (Z.of_nat (List.length dataInt16)) numChannels in
  buffer ← createBuffer numChannels frameCount sampleRate;
  Ok (for_loop 0 (Z.to_nat numChannels)
        (fun channel buffer =>
           let channelData := default [] (channels buffer !! channel) in
           let channelData :=
             for_loop 0 (passes frameCount)
               (fun i channelData =>
                  <[i := scale
                           (read_int dataInt16
                              (i * Z.to_nat numChannels + channel))
                           (1 / 32768)]> channelData)
               channelData in
           {| WebAudio.sampleRate := WebAudio.sampleRate buffer;
              WebAudio.length := WebAudio.length buffer;
              channels := <[channel := channelData]> (channels buffer) |})
        buffer).

(** [createBlob]: every sample times 32768 stored into an [Int16Array], the
    bytes of that array base64-encoded. *)
Definition createBlob (data : list number) : result EncodedMediaBlob :=
  let l := List.length data in
  let int16 := replicate l 0 in
  let int16 :=
    for_loop 0 l
      (fun i int16 =>
         <[i := ToInt16 (scale (default NaN (data !! i)) 32768)]> int16)
      int16 in
  d ← encode (Uint8Array_of_Int16 int16);
  Ok {| data := d;
        mimeType := jsstr "audio/pcm;rate=" ++ jsstr (pretty INPUT_AUDIO_SAMPLE_RATE) |}.

(** *** The WAV container writer *)

(** [DataView] stores: a RangeError when the bytes would fall outside the
    buffer, otherwise the low bytes of the value, least significant first. *)
Definition setUint8 (view : list Z) (offset : nat) (v : Z)
    : result (list Z) :=
  if (offset + 1 <=? List.length view)%nat
  then Ok (<[offset := Z.land v 255]> view)
  else Throw RangeError.

Definition setUint16 (view : list Z) (offset : nat) (v : Z)
    : result (list Z) :=
  if (offset + 2 <=? List.length view)%nat
  then Ok (<[offset + 1 := Z.land (Z.shiftr v 8) 255]>
             (<[offset := Z.land v 255]> view))%nat
  else Throw RangeError.

Definition setUint32 (view : list Z) (offset : nat) (v : Z)
    : result (list Z) :=
  if (offset + 4 <=? List.length view)%nat
  then Ok (<[offset + 3 := Z.land (Z.shiftr v 24) 255]>
             (<[offset + 2 := Z.land (Z.shiftr v 16) 255]>
                (<[offset + 1 := Z.land (Z.shiftr v 8) 255]>
                   (<[offset := Z.land v 255]> view))))%nat
  else Throw RangeError.

(** [s.charCodeAt(i)] as an integer; NaN out of range stores as 0. *)
Definition charCodeAt (s : jsstring) (i : nat) : Z := default 0 (s !! i).

Definition writeString (view : list Z) (offset : nat) (s : jsstring)
    : result (list Z) :=
  for_loop 0 (List.length s)
    (fun i r => view ← r; setUint8 view (offset + i) (charCodeAt s i))
    (Ok view).

Record Blob := mkWav {
  blobBytes : list Z;
  blobType : jsstring
}.

Definition convertPcmToWavBlob (pcmBytes : list Z) (sampleRate : Z)
    (numChannels : Z) : result Blob :=
  let bitsPerSample := 16 in
  let headerLength := 44%nat in
  let dataLength := List.length pcmBytes in
  let fileLength := Z.of_nat dataLength + Z.of_nat headerLength - 8 in
  let view := replicate (headerLength + dataLength) 0 in
  let offset := 0%nat in
  view ← writeString view offset (jsstr "RIFF"); let offset := (offset + 4)%nat in
  view ← setUint32 view offset fileLength; let offset := (offset + 4)%nat in
  view ← writeString view offset (jsstr "WAVE"); let offset := (offset + 4)%nat in
  view ← writeString view offset (jsstr "fmt "); let offset := (offset + 4)%nat in
  view ← setUint32 view offset 16; let offset := (offset + 4)%nat in
  view ← setUint16 view offset 1; let offset := (offset + 2)%nat in
  view ← setUint16 view offset numChannels; let offset := (offset + 2)%nat in
  view ← setUint32 view offset sampleRate; let offset := (offset + 4)%nat in
  view ← setUint32 view offset (sampleRate * numChannels * (bitsPerSample / 8));
  let offset := (offset + 4)%nat in
  view ← setUint16 view offset (numChannels * (bitsPerSample / 8));
  let offset := (offset + 2)%nat in
  view ← setUint16 view offset bitsPerSample; let offset := (offset + 2)%nat in
  view ← writeString view offset (jsstr "data"); let offset := (offset + 4)%nat in
  view ← setUint32 view offset (Z.of_nat dataLength);
  let offset := (offset + 4)%nat in
  view ← for_loop 0 dataLength
           (fun i r => view ← r;
                       setUint8 view (offset + i) (default 0 (pcmBytes !! i)))
           (Ok view);
  Ok {| blobBytes := view; blobType := jsstr "audio/wav" |}.

(** Reading a little-endian field back from the bytes of a file. *)
Definition getUint16 (bytes : list Z) (offset : nat) : Z :=
  default 0 (bytes !! offset) + 256 * default 0 (bytes !! (offset + 1)%nat).

Definition getUint32 (bytes : list Z) (offset : nat) : Z :=
  getUint16 bytes offset + 65536 * getUint16 bytes (offset + 2)%nat.

(** *** Structured analysis *)

(** [getGeminiClient] throws when no API key is configured. *)
Definition getGeminiClient (API_KEY : option jsstring) : result unit :=
  match API_KEY with
  | Some k => if truthy k then Ok tt else Throw GenericError
  | None => Throw GenericError
  end.

(** What the endpoint answered: [response.text] is a string or
    [undefined]. *)
Record GenerateContentResponse := mkResponse {
  text : option jsstring
}.

(** A value inside a template literal. *)
Definition interpolate (t : option jsstring) : jsstring :=
  match t with
  | Some s => s
  | None => jsstr "undefined"
  end.

Definition analysis_fallback (t : option jsstring) : json :=
  JObject
    [(jsstr "analysisText",
      JString (jsstr "Failed to parse structured analysis. Raw response: "
               ++ interpolate t));
     (jsstr "timeframes", JArray [])].

(** [analyzeVideoTranscriptForInfo].  The transcript, the query and the
    language only build the request; [generateContent] is the outcome of
    the awaited remote call.  The [try] block covers [response.text.trim()]
    (a TypeError on [undefined]) and [JSON.parse]; the parsed value is
    returned as it is. *)
Definition analyzeVideoTranscriptForInfo (API_KEY : option jsstring)
    (generateContent : result GenerateContentResponse) : result json :=
  _ ← getGeminiClient API_KEY;
  response ← generateContent;
  let attempt :=
    match text response with
    | Some t => JSON_parse (trim t)
    | None => Throw TypeError
    end in
  match attempt with
  | Ok parsedResponse => Ok parsedResponse
  | Throw _ => Ok (analysis_fallback (text response))
  end.

End Service.

(** ** components/LiveChat.tsx *)

Module LiveChat.
Import JS Json WebAudio Service.

Inductive ChatRole := USER | MODEL.

Record ChatMessage := mkMessage {
  role : ChatRole;
  content : jsstring;
  timestamp : Z
}.

(** *** Server messages: the fields the handler reads *)

Record InlineData := mkInline { inlineData_data : option jsstring }.
Record Part := mkPart { inlineData : option InlineData }.
Record Content := mkContent { parts : option (list Part) }.
Record Transcription := mkTranscription { transcription_text : option jsstring }.

(** The two flags are optional booleans, read only as conditions: an absent
    flag is [false] here. *)
Record ServerContent := mkServerContent {
  modelTurn : option Content;
  outputTranscription : option Transcription;
  inputTranscription : option Transcription;
  turnComplete : bool;
  interrupted : bool
}.

Record LiveServerMessage := mkLive { serverContent : option ServerContent }.

(** *** Calls on the platform, recorded in order *)

Inductive Effect :=
  | TracksStopped (stream : nat)
  | Disconnected (node : nat)
  | ContextClosed (ctx : nat)
  | SessionClosed (session : nat)
  | SourceStarted (source : nat) (when : Q) (buffer : AudioBuffer)
  | SourceStopped (source : nat)
  | ConsoleError.

(** *** The component *)

(** What the callbacks created by one render see of the state: the values
    in the dependency lists of [handleLiveMessage] and [startRecording]. *)
Record Closure := mkClosure {
  capturedInput : jsstring;
  capturedOutput : jsstring;
  capturedIsRecording : bool
}.

(** [useState] cells. *)
Record State := mkState {
  isRecording : bool;
  chatMessages : list ChatMessage;
  currentInputTranscription : jsstring;
  currentOutputTranscription : jsstring;
  isLoading : bool;
  error : option jsstring
}.

(** [useRef] cells.  A platform object is the number that names it. *)
Record Refs := mkRefs {
  audioContextRef : option nat;
  outputAudioContextRef : option nat;
  scriptProcessorRef : option nat;
  mediaStreamSourceRef : option nat;
  liveSessionRef : option nat;
  mediaStreamRef : option nat;
  nextStartTimeRef : Q;
  playbackSourcesRef : gset nat
}.

(** The component together with its surroundings: the platform calls made
    so far, the next unused object name and, for every session opened, the
    closure of the callbacks it was given. *)
Record World := mkWorld {
  state : State;
  refs : Refs;
  effects : list Effect;
  fresh : nat;
  callbacks : gmap nat Closure
}.

Definition initial : World :=
  {| state := {| isRecording := false; chatMessages := [];
                 currentInputTranscription := [];
                 currentOutputTranscription := [];
                 isLoading := false; error := None |};
     refs := {| audioContextRef := None; outputAudioContextRef := None;
                scriptProcessorRef := None; mediaStreamSourceRef := None;
                liveSessionRef := None; mediaStreamRef := None;
                nextStartTimeRef := 0%Q; playbackSourcesRef := ∅ |};
     effects := [];
     fresh := O;
     callbacks := ∅ |}.

Definition render (w : World) : Closure :=
  {| capturedInput := currentInputTranscription (state w);
     capturedOutput := currentOutputTranscription (state w);
     capturedIsRecording := isRecording (state w) |}.

Definition with_state (f : State -> State) (w : World) : World :=
  {| state := f (state w); refs := refs w; effects := effects w;
     fresh := fresh w; callbacks := callbacks w |}.

Definition with_refs (f : Refs -> Refs) (w : World) : World :=
  {| state := state w; refs := f (refs w); effects := effects w;
     fresh := fresh w; callbacks := callbacks w |}.

Definition emit (e : Effect) (w : World) : World :=
  {| state := state w; refs := refs w; effects := effects w ++ [e];
     fresh := fresh w; callbacks := callbacks w |}.

(** A new platform object. *)
Definition create (w : World) : nat * World :=
  (fresh w,
   {| state := state w; refs := refs w; effects := effects w;
      fresh := S (fresh w); callbacks := callbacks w |}).

Definition register (session : nat) (c : Closure) (w : World) : World :=
  {| state := state w; refs := refs w; effects := effects w;
     fresh := fresh w; callbacks := <[session := c]> (callbacks w) |}.

(** State setters; the transcription and message setters take an update
    function, as the component calls them. *)
Definition setIsRecording (b : bool) : World -> World :=
  with_state (fun s =>
    {| isRecording := b; chatMessages := chatMessages s;
       currentInputTranscription := currentInputTranscription s;
       currentOutputTranscription := currentOutputTranscription s;
       isLoading := isLoading s; error := error s |}).

Definition setChatMessages (f : list ChatMessage -> list ChatMessage)
    : World -> World :=
  with_state (fun s =>
    {| isRecording := isRecording s; chatMessages := f (chatMessages s);
       currentInputTranscription := currentInputTranscription s;
       currentOutputTranscription := currentOutputTranscription s;
       isLoading := isLoading s; error := error s |}).

Definition setCurrentInputTranscription (f : jsstring -> jsstring)
    : World -> World :=
  with_state (fun s =>
    {| isRecording := isRecording s; chatMessages := chatMessages s;
       currentInputTranscription := f (currentInputTranscription s);
       currentOutputTranscription := currentOutputTranscription s;
       isLoading := isLoading s; error := error s |}).

Definition setCurrentOutputTranscription (f : jsstring -> jsstring)
    : World -> World :=
  with_state (fun s =>
    {| isRecording := isRecording s; chatMessages := chatMessages s;
       currentInputTranscription := currentInputTranscription s;
       currentOutputTranscription := f (currentOutputTranscription s);
       isLoading := isLoading s; error := error s |}).

Definition setIsLoading (b : bool) : World -> World :=
  with_state (fun s =>
    {| isRecording := isRecording s; chatMessages := chatMessages s;
       currentInputTranscription := currentInputTranscription s;
       currentOutputTranscription := currentOutputTranscription s;
       isLoading := b; error := error s |}).

Definition setError (e : option jsstring) : World -> World :=
  with_state (fun s =>
    {| isRecording := isRecording s; chatMessages := chatMessages s;
       currentInputTranscription := currentInputTranscription s;
       currentOutputTranscription := currentOutputTranscription s;
       isLoading := isLoading s; error := e |}).

(** Ref assignments. *)
Definition set_audioContextRef (v : option nat) : World -> World :=
  with_refs (fun r =>
    {| audioContextRef := v; outputAudioContextRef := outputAudioContextRef r;
       scriptProcessorRef := scriptProcessorRef r;
       mediaStreamSourceRef := mediaStreamSourceRef r;
       liveSessionRef := liveSessionRef r; mediaStreamRef := mediaStreamRef r;
       nextStartTimeRef := nextStartTimeRef r;
       playbackSourcesRef := playbackSourcesRef r |}).

Definition set_outputAudioContextRef (v : option nat) : World -> World :=
  with_refs (fun r =>
    {| audioContextRef := audioContextRef r; outputAudioContextRef := v;
       scriptProcessorRef := scriptProcessorRef r;
       mediaStreamSourceRef := mediaStreamSourceRef r;
       liveSessionRef := liveSessionRef r; mediaStreamRef := mediaStreamRef r;
       nextStartTimeRef := nextStartTimeRef r;
       playbackSourcesRef := playbackSourcesRef r |}).

Definition set_scriptProcessorRef (v : option nat) : World -> World :=
  with_refs (fun r =>
    {| audioContextRef := audioContextRef r;
       outputAudioContextRef := outputAudioContextRef r;
       scriptProcessorRef := v;
       mediaStreamSourceRef := mediaStreamSourceRef r;
       liveSessionRef := liveSessionRef r; mediaStreamRef := mediaStreamRef r;
       nextStartTimeRef := nextStartTimeRef r;
       playbackSourcesRef := playbackSourcesRef r |}).

Definition set_mediaStreamSourceRef (v : option nat) : World -> World :=
  with_refs (fun r =>
    {| audioContextRef := audioContextRef r;
       outputAudioContextRef := outputAudioContextRef r;
       scriptProcessorRef := scriptProcessorRef r;
       mediaStreamSourceRef := v;
       liveSessionRef := liveSessionRef r; mediaStreamRef := mediaStreamRef r;
       nextStartTimeRef := nextStartTimeRef r;
       playbackSourcesRef := playbackSourcesRef r |}).

Definition set_liveSessionRef (v : option nat) : World -> World :=
  with_refs (fun r =>
    {| audioContextRef := audioContextRef r;
       outputAudioContextRef := outputAudioContextRef r;
       scriptProcessorRef := scriptProcessorRef r;
       mediaStreamSourceRef := mediaStreamSourceRef r;
       liveSessionRef := v; mediaStreamRef := mediaStreamRef r;
       nextStartTimeRef := nextStartTimeRef r;
       playbackSourcesRef := playbackSourcesRef r |}).

Definition set_mediaStreamRef (v : option nat) : World -> World :=
  with_refs (fun r =>
    {| audioContextRef := audioContextRef r;
       outputAudioContextRef := outputAudioContextRef r;
       scriptProcessorRef := scriptProcessorRef r;
       mediaStreamSourceRef := mediaStreamSourceRef r;
       liveSessionRef := liveSessionRef r; mediaStreamRef := v;
       nextStartTimeRef := nextStartTimeRef r;
       playbackSourcesRef := playbackSourcesRef r |}).

Definition set_nextStartTimeRef (v : Q) : World -> World :=
  with_refs (fun r =>
    {| audioContextRef := audioContextRef r;
       outputAudioContextRef := outputAudioContextRef r;
       scriptProcessorRef := scriptProcessorRef r;
       mediaStreamSourceRef := mediaStreamSourceRef r;
       liveSessionRef := liveSessionRef r; mediaStreamRef := mediaStreamRef r;
       nextStartTimeRef := v;
       playbackSourcesRef := playbackSourcesRef r |}).

Definition set_playbackSources (f : gset nat -> gset nat) : World -> World :=
  with_refs (fun r =>
    {| audioContextRef := audioContextRef r;
       outputAudioContextRef := outputAudioContextRef r;
       scriptProcessorRef := scriptProcessorRef r;
       mediaStreamSourceRef := mediaStreamSourceRef r;
       liveSessionRef := liveSessionRef r; mediaStreamRef := mediaStreamRef r;
       nextStartTimeRef := nextStartTimeRef r;
       playbackSourcesRef := f (playbackSourcesRef r) |}).

Definition addChatMessage (message : ChatMessage) : World -> World :=
  setChatMessages (fun prev => prev ++ [message]).

Definition clearCurrentTranscriptions (w : World) : World :=
  setCurrentOutputTranscription (fun _ => [])
    (setCurrentInputTranscription (fun _ => []) w).

(** The clocks a handler reads: the output context's [currentTime], a
    double, and the two [new Date()] of the turn-completion branch. *)
Record Env := mkEnv {
  currentTime : Q;
  dateUser : Z;
  dateModel : Z
}.

(** [message.serverContent?.modelTurn?.parts[0]?.inlineData?.data]: the
    access to [parts] is not optional, so a model turn without parts is a
    TypeError. *)
Definition audioOf (message : LiveServerMessage) : result (option jsstring) :=
  match serverContent message with
  | None => Ok None
  | Some sc =>
      match modelTurn sc with
      | None => Ok None
      | Some turn =>
          match parts turn with
          | None => Throw TypeError
          | Some ps =>
              Ok (p ← ps !! O; d ← inlineData p; inlineData_data d)
          end
      end
  end.

(** The ['ended'] listener of a playback source. *)
Definition sourceEnded (source : nat) : World -> World :=
  set_playbackSources (fun s => s ∖ {[source]}).

Definition started (source : nat) (w : World) : bool :=
  existsb
    (fun e =>
       match e with
       | SourceStarted s _ _ => Nat.eqb s source
       | _ => false
       end)
    (effects w).

(** [source.start(when)]: a RangeError for a negative time. *)
Definition start_source (source : nat) (when : Q) (buffer : AudioBuffer)
    (w : World) : result World :=
  if Qle_bool 0 when then Ok (emit (SourceStarted source when buffer) w)
  else Throw RangeError.

(** [source.stop()]: an InvalidStateError unless the source was started. *)
Definition stop_source (source : nat) (w : World) : result World :=
  if started source w then Ok (emit (SourceStopped source) w)
  else Throw InvalidStateError.

(** The [try] block of the audio branch: the world when it ends and the
    exception it threw, if any. *)
Definition enqueue_try (base64 : jsstring) (w : World)
    : World * option exn :=
  match (bytes ← decode base64;
         decodeAudioData bytes OUTPUT_AUDIO_SAMPLE_RATE AUDIO_NUM_CHANNELS) with
  | Throw e => (w, Some e)
  | Ok audioBuffer =>
      let (source, w) := create w in
      match start_source source (nextStartTimeRef (refs w)) audioBuffer w with
      | Throw e => (w, Some e)
      | Ok w =>
          let w :=
            set_nextStartTimeRef
              (fadd (nextStartTimeRef (refs w)) (duration audioBuffer)) w in
          (set_playbackSources (fun s => s ∪ {[source]}) w, None)
      end
  end.

(** Handle audio output. *)
Definition handleAudio (env : Env) (base64EncodedAudioString : option jsstring)
    (w : World) : World :=
  match base64EncodedAudioString, outputAudioContextRef (refs w) with
  | Some b, Some outputAudioContext =>
      if truthy b then
        let w :=
          set_nextStartTimeRef
            (Qmax (nextStartTimeRef (refs w)) (currentTime env)) w in
        let (w, thrown) := enqueue_try b w in
        match thrown with
        | Some audioError => emit ConsoleError w
        | None => w
        end
      else w
  | _, _ => w
  end.

(** Handle transcription updates. *)
Definition handleTranscription (message : LiveServerMessage) (w : World)
    : World :=
  match serverContent message with
  | None => w
  | Some sc =>
      match outputTranscription sc, inputTranscription sc with
      | Some t, _ =>
          setCurrentOutputTranscription
            (fun prev => prev ++ interpolate (transcription_text t)) w
      | None, Some t =>
          setCurrentInputTranscription
            (fun prev => prev ++ interpolate (transcription_text t)) w
      | None, None => w
      end
  end.

(** Handle turn completion.  The texts tested and copied are the ones the
    callback captured when it was created. *)
Definition handleTurnComplete (c : Closure) (env : Env)
    (message : LiveServerMessage) (w : World) : World :=
  match serverContent message with
  | None => w
  | Some sc =>
      if turnComplete sc then
        let w :=
          if truthy (trim (capturedInput c))
          then addChatMessage
                 {| role := USER; content := capturedInput c;
                    timestamp := dateUser env |} w
          else w in
        let w :=
          if truthy (trim (capturedOutput c))
          then addChatMessage
                 {| role := MODEL; content := capturedOutput c;
                    timestamp := dateModel env |} w
          else w in
        clearCurrentTranscriptions w
      else w
  end.

(** Handle interruptions. *)
Definition handleInterrupted (message : LiveServerMessage) (w : World)
    : result World :=
  match serverContent message with
  | None => Ok w
  | Some sc =>
      if interrupted sc then
        w ← fold_left
              (fun r source =>
                 w ← r;
                 w ← stop_source source w;
                 Ok (set_playbackSources (fun s => s ∖ {[source]}) w))
              (elements (playbackSourcesRef (refs w))) (Ok w);
        let w := set_nextStartTimeRef 0%Q w in
        Ok (clearCurrentTranscriptions w)
      else Ok w
  end.

(** [handleLiveMessage], as created by a render with closure [c].  A
    [Throw] is the rejection of the handler; the world at that point is not
    kept: the first statement throws before any change, and the [stop] of
    the interruption branch does not throw on a source that was started. *)
Definition handleLiveMessage (c : Closure) (env : Env)
    (message : LiveServerMessage) (w : World) : result World :=
  base64EncodedAudioString ← audioOf message;
  let w := handleAudio env base64EncodedAudioString w in
  let w := handleTranscription message w in
  let w := handleTurnComplete c env message w in
  handleInterrupted message w.

(** [stopRecording]. *)
Definition stopRecording (w : World) : result World :=
  let w :=
    match mediaStreamRef (refs w) with
    | Some stream => set_mediaStreamRef None (emit (TracksStopped stream) w)
    | None => w
    end in
  let w :=
    match mediaStreamSourceRef (refs w) with
    | Some node => set_mediaStreamSourceRef None (emit (Disconnected node) w)
    | None => w
    end in
  let w :=
    match scriptProcessorRef (refs w) with
    | Some node => set_scriptProcessorRef None (emit (Disconnected node) w)
    | None => w
    end in
  let w :=
    match audioContextRef (refs w) with
    | Some ctx => set_audioContextRef None (emit (ContextClosed ctx) w)
    | None => w
    end in
  w ← match outputAudioContextRef (refs w) with
      | Some ctx =>
          w ← fold_left (fun r source => w ← r; stop_source source w)
                (elements (playbackSourcesRef (refs w))) (Ok w);
          let w := set_playbackSources (fun _ => ∅) w in
          let w := set_nextStartTimeRef 0%Q w in
          Ok (set_outputAudioContextRef None (emit (ContextClosed ctx) w))
      | None => Ok w
      end;
  let w :=
    match liveSessionRef (refs w) with
    | Some session => set_liveSessionRef None (emit (SessionClosed session) w)
    | None => w
    end in
  Ok (setIsLoading false (setIsRecording false w)).

(** How far the set-up of [startRecording] gets; a failure carries
    [err.message]. *)
Inductive StartOutcome :=
  | MicrophoneFailed (message : option jsstring)
  | InputContextFailed (message : option jsstring)
  | OutputContextFailed (message : option jsstring)
  | ConnectionFailed (message : option jsstring)
  | Connected.

(** The message of the error a set-up throws, if it throws. *)
Definition failure (o : StartOutcome) : option (option jsstring) :=
  match o with
  | MicrophoneFailed m | InputContextFailed m | OutputContextFailed m
  | ConnectionFailed m => Some m
  | Connected => None
  end.

(** [a || b] on strings. *)
Definition or_else (a : option jsstring) (b : jsstring) : jsstring :=
  match a with
  | Some s => if truthy s then s else b
  | None => b
  end.

(** The [try] block of [startRecording]: the world when it ends and the
    message of the error it threw, if any. *)
Definition startRecording_try (c : Closure) (o : StartOutcome) (w : World)
    : World * option (option jsstring) :=
  match o with
  | MicrophoneFailed m => (w, Some m)
  | _ =>
      let (stream, w) := create w in
      let w := set_mediaStreamRef (Some stream) w in
      match o with
      | InputContextFailed m => (w, Some m)
      | _ =>
          let (ctx, w) := create w in
          let w := set_audioContextRef (Some ctx) w in
          match o with
          | OutputContextFailed m => (w, Some m)
          | _ =>
              let (octx, w) := create w in
              let w := set_outputAudioContextRef (Some octx) w in
              let (source, w) := create w in
              let w := set_mediaStreamSourceRef (Some source) w in
              let (scriptProcessor, w) := create w in
              let w := set_scriptProcessorRef (Some scriptProcessor) w in
              match o with
              | ConnectionFailed m => (w, Some m)
              | _ =>
                  let (session, w) := create w in
                  let w := register session c w in
                  let w := set_liveSessionRef (Some session) w in
                  (setIsRecording true w, None)
              end
          end
      end
  end.

(** [startRecording], as created by a render with closure [c]: the session
    it opens keeps the callbacks of that render. *)
Definition startRecording (c : Closure) (o : StartOutcome) (w : World)
    : World :=
  let w := setIsLoading true w in
  let w := setError None w in
  let w := setChatMessages (fun _ => []) w in
  let w := clearCurrentTranscriptions w in
  let (w, thrown) := startRecording_try c o w in
  let w :=
    match thrown with
    | None => w
    | Some m =>
        let w := emit ConsoleError w in
        let w :=
          setError
            (Some (jsstr "Failed to start live session: "
                   ++ or_else m (jsstr "Unknown error")
                   ++ jsstr ". Please ensure microphone access is granted."))
            w in
        let w := setIsRecording false w in
        match mediaStreamRef (refs w) with
        | Some stream => emit (TracksStopped stream) w
        | None => w
        end
    end in
  setIsLoading false w.

(** The session callbacks [onerror] and [onclose]. *)
Definition onerror (message : option jsstring) (w : World) : result World :=
  let w := emit ConsoleError w in
  let w :=
    setError
      (Some (jsstr "Live session error: " ++ interpolate message
             ++ jsstr ". Please try again.")) w in
  stopRecording w.

Definition onclose (c : Closure) (wasClean : bool) (reason : option jsstring)
    (w : World) : result World :=
  let w :=
    if wasClean then w
    else setError
           (Some (jsstr "Live session closed unexpectedly: "
                  ++ or_else reason (jsstr "Unknown reason") ++ jsstr "."))
           w in
  if capturedIsRecording c then stopRecording w else Ok w.

(** What a session delivers goes to the callbacks it was opened with. *)
Definition onmessage (session : nat) (env : Env)
    (message : LiveServerMessage) (w : World) : result World :=
  match callbacks w !! session with
  | Some c => handleLiveMessage c env message w
  | None => Ok w
  end.

(** One turn of the event loop: a click on the button (which starts with
    the callbacks of the current render, or stops), an unmount, a callback
    of a session, the end of a playback source. *)
Inductive step : World -> World -> Prop :=
  | step_start w o :
      step w (startRecording (render w) o w)
  | step_stop w w' :
      stopRecording w = Ok w' ->
      step w w'
  | step_message w session env message w' :
      onmessage session env message w = Ok w' ->
      step w w'
  | step_ended w source :
      step w (sourceEnded source w)
  | step_error w message w' :
      onerror message w = Ok w' ->
      step w w'
  | step_close w session c wasClean reason w' :
      callbacks w !! session = Some c ->
      onclose c wasClean reason w = Ok w' ->
      step w w'.

Inductive reachable : World -> Prop :=
  | reachable_initial : reachable initial
  | reachable_step w w' : reachable w -> step w w' -> reachable w'.

(** The events of the specification as server messages. *)
Definition audioDelta (base64 : jsstring) : LiveServerMessage :=
  {| serverContent := Some
       {| modelTurn := Some
            {| parts := Some
                 [{| inlineData := Some {| inlineData_data := Some base64 |} |}] |};
          outputTranscription := None; inputTranscription := None;
          turnComplete := false; interrupted := false |} |}.

Definition inputDelta (t : jsstring) : LiveServerMessage :=
  {| serverContent := Some
       {| modelTurn := None; outputTranscription := None;
          inputTranscription := Some {| transcription_text := Some t |};
          turnComplete := false; interrupted := false |} |}.

Definition outputDelta (t : jsstring) : LiveServerMessage :=
  {| serverContent := Some
       {| modelTurn := None;
          outputTranscription := Some {| transcription_text := Some t |};
          inputTranscription := None;
          turnComplete := false; interrupted := false |} |}.

Definition turnCompleteEvent : LiveServerMessage :=
  {| serverContent := Some
       {| modelTurn := None; outputTranscription := None;
          inputTranscription := None; turnComplete := true;
          interrupted := false |} |}.

Definition interruptedEvent : LiveServerMessage :=
  {| serverContent := Some
       {| modelTurn := None; outputTranscription := None;
          inputTranscription := None; turnComplete := false;
          interrupted := true |} |}.

End LiveChat.

(** ** The specification's wording *)

Module Spec.
Import JS Json WebAudio Service LiveChat.

(** The ranges of the elements of typed arrays and of base64 digits. *)
Definition byte (b : Z) : Prop := 0 <= b < 256.
Definition int16 (v : Z) : Prop := - 32768 <= v < 32768.
Definition sextet (s : Z) : Prop := 0 <= s < 64.

(** The shape of a base64 text: a body of digits whose length is 0, 2 or 3
    modulo 4, completed to a multiple of 4 by the padding. *)
Inductive shape : nat -> list Z -> Prop :=
  | shape_full k : shape (4 * k) []
  | shape_one k : shape (4 * k + 2) [pad_char; pad_char]
  | shape_two k : shape (4 * k + 3) [pad_char].

(** Rounding to the nearest integer, halves upward. *)
Definition round (q : Q) : Z := Qfloor (q + (1 # 2)).

(** The signed 16-bit value an integer wraps around to. *)
Definition wrap16 (z : Z) : Z := (z + 32768) mod 65536 - 32768.

(** The [n] low bytes of a value, least significant first. *)
Fixpoint little_endian (n : nat) (v : Z) : list Z :=
  match n with
  | O => []
  | S n => v mod 256 :: little_endian n (v / 256)
  end.

Definition little_endian16 (v : Z) : list Z := little_endian 2 v.

(** The RIFF/WAVE container of the specification: the RIFF chunk
    descriptor, the 16-byte PCM format sub-chunk and the data sub-chunk. *)
Definition wav_file (pcm : list Z) (sampleRate numChannels : Z) : list Z :=
  jsstr "RIFF" ++ little_endian 4 (Z.of_nat (List.length pcm) + 36)
  ++ jsstr "WAVE"
  ++ jsstr "fmt " ++ little_endian 4 16
  ++ little_endian 2 1
  ++ little_endian 2 numChannels
  ++ little_endian 4 sampleRate
  ++ little_endian 4 (sampleRate * numChannels * 2)
  ++ little_endian 2 (numChannels * 2)
  ++ little_endian 2 16
  ++ jsstr "data" ++ little_endian 4 (Z.of_nat (List.length pcm))
  ++ pcm.

(** [encodeFrame] in the words of the specification, for a given conversion
    of the scaled sample to an integer. *)
Definition encodeFrame_by (to_integer : Q -> Z) (samples : list Q)
    : EncodedMediaBlob :=
  {| data :=
       base64_encode
         (flat_map
            (fun s => little_endian16 (wrap16 (to_integer (s * 32768)%Q)))
            samples);
     mimeType := jsstr "audio/pcm;rate=16000" |}.

(** What [createBlob] stores for a sample: the integer part of the scaled
    sample, wrapped; zero for NaN and the infinities. *)
Definition quantize (x : number) : Z :=
  match x with
  | Num q => wrap16 (truncate (q * 32768)%Q)
  | _ => 0
  end.

(** [ys] are the samples that decoding the encoding of [xs] yields, on one
    channel. *)
Definition round_trip (xs ys : list Q) : Prop :=
  exists blob bytes buffer,
    createBlob (map Num xs) = Ok blob
    /\ decode (data blob) = Ok bytes
    /\ decodeAudioData bytes OUTPUT_AUDIO_SAMPLE_RATE 1 = Ok buffer
    /\ channels buffer = [map Num ys].

Definition within_quantum (xs ys : list Q) : Prop :=
  Forall2 (fun x y => (Qabs (x - y) <= 1 # 32768)%Q) xs ys.

(** The round-trip property for one frame. *)
Definition round_trips (xs : list Q) : Prop :=
  exists ys,
    round_trip xs ys /\ List.length ys = List.length xs /\ within_quantum xs ys.

(** The samples of an interleaved [Int16Array] dealt to [k] channels of
    [frames] samples each, every sample divided by 32768. *)
Definition deinterleaved (samples : list Z) (k frames : nat)
    : list (list number) :=
  map (fun channel =>
         map (fun i =>
                Num (inject_Z (default 0 (samples !! (i * k + channel)%nat))
                     * (1 / 32768)))
             (seq 0 frames))
      (seq 0 k).


(** The response schema of the structured analysis: an object with a
    string [analysisText] and an array [timeframes] of objects with string
    fields [startTime], [endTime] and [description]. *)
Definition is_string (o : option json) : bool :=
  match o with
  | Some (JString _) => true
  | _ => false
  end.

Definition conforms_timeframe (v : json) : bool :=
  is_string (get v (jsstr "startTime"))
  && is_string (get v (jsstr "endTime"))
  && is_string (get v (jsstr "description")).

Definition conforms (v : json) : bool :=
  is_string (get v (jsstr "analysisText"))
  && match get v (jsstr "timeframes") with
     | Some (JArray items) => forallb conforms_timeframe items
     | _ => false
     end.

(** The response text parses as JSON matching the schema. *)
Definition structured (t : jsstring) : bool :=
  match JSON_parse (trim t) with
  | Ok v => conforms v
  | Throw _ => false
  end.

(** A sample rate and a channel count that every implementation of
    [createBuffer] accepts. *)
Definition supported (rate channels : Z) : Prop :=
  1 <= channels <= maxChannels /\ minSampleRate <= rate <= maxSampleRate.

(** [decodeChunk]: the base64 text of an inbound audio delta decoded as the
    session does, at the output rate on one channel. *)
Definition decodeChunk (base64 : jsstring) : result AudioBuffer :=
  bytes ← decode base64;
  decodeAudioData bytes OUTPUT_AUDIO_SAMPLE_RATE AUDIO_NUM_CHANNELS.

(** A server message that carries the audio chunk [base64] and no
    interruption. *)
Definition carries_audio (message : LiveServerMessage) (base64 : jsstring)
    : Prop :=
  audioOf message = Ok (Some base64)
  /\ truthy base64 = true
  /\ forall sc, serverContent message = Some sc -> interrupted sc = false.

(** The refs hold no handle, the playback set is empty and the next start
    time is zero. *)
Definition released (w : World) : Prop :=
  mediaStreamRef (refs w) = None
  /\ mediaStreamSourceRef (refs w) = None
  /\ scriptProcessorRef (refs w) = None
  /\ audioContextRef (refs w) = None
  /\ outputAudioContextRef (refs w) = None
  /\ liveSessionRef (refs w) = None
  /\ playbackSourcesRef (refs w) = ∅
  /\ nextStartTimeRef (refs w) = 0%Q.

(** Every handle the refs held was given back by the platform call that
    releases it. *)
Definition gave_back (before after : World) : Prop :=
  (forall h, mediaStreamRef (refs before) = Some h ->
             TracksStopped h ∈ effects after)
  /\ (forall h, mediaStreamSourceRef (refs before) = Some h ->
                Disconnected h ∈ effects after)
  /\ (forall h, scriptProcessorRef (refs before) = Some h ->
                Disconnected h ∈ effects after)
  /\ (forall h, audioContextRef (refs before) = Some h ->
                ContextClosed h ∈ effects after)
  /\ (forall h, outputAudioContextRef (refs before) = Some h ->
                ContextClosed h ∈ effects after
                /\ forall s, s ∈ playbackSourcesRef (refs before) ->
                             SourceStopped s ∈ effects after)
  /\ (forall h, liveSessionRef (refs before) = Some h ->
                SessionClosed h ∈ effects after).

(** The world after further platform calls. *)
Definition emit_all (es : list Effect) (w : World) : World :=
  {| state := state w; refs := refs w; effects := effects w ++ es;
     fresh := fresh w; callbacks := callbacks w |}.

(** The platform calls [stopRecording] makes, and the world it leaves. *)
Definition releases (w : World) : list Effect :=
  option_list (TracksStopped <$> mediaStreamRef (refs w))
  ++ option_list (Disconnected <$> mediaStreamSourceRef (refs w))
  ++ option_list (Disconnected <$> scriptProcessorRef (refs w))
  ++ option_list (ContextClosed <$> audioContextRef (refs w))
  ++ match outputAudioContextRef (refs w) with
     | Some ctx =>
         map SourceStopped (elements (playbackSourcesRef (refs w)))
         ++ [ContextClosed ctx]
     | None => []
     end
  ++ option_list (SessionClosed <$> liveSessionRef (refs w)).

Definition torn_down (w : World) : World :=
  {| state :=
       {| isRecording := false;
          chatMessages := chatMessages (state w);
          currentInputTranscription := currentInputTranscription (state w);
          currentOutputTranscription := currentOutputTranscription (state w);
          isLoading := false;
          error := error (state w) |};
     refs :=
       {| audioContextRef := None; outputAudioContextRef := None;
          scriptProcessorRef := None; mediaStreamSourceRef := None;
          liveSessionRef := None; mediaStreamRef := None;
          nextStartTimeRef :=
            match outputAudioContextRef (refs w) with
            | Some _ => 0%Q
            | None => nextStartTimeRef (refs w)
            end;
          playbackSourcesRef :=
            match outputAudioContextRef (refs w) with
            | Some _ => ∅
            | None => playbackSourcesRef (refs w)
            end |};
     effects := effects w ++ releases w;
     fresh := fresh w;
     callbacks := callbacks w |}.

(** A transcription delta of the model ([output]) or of the user, and the
    text one speaker has said over a list of deltas. *)
Definition delta (output : bool) (t : jsstring) : LiveServerMessage :=
  if output then outputDelta t else inputDelta t.

Definition spoken (output : bool) (deltas : list (Env * (bool * jsstring)))
    : jsstring :=
  flat_map (fun d => if Bool.eqb (fst (snd d)) output then snd (snd d) else [])
    deltas.

(** The platform calls of the playback queue. *)
Definition playback_call (e : Effect) : Prop :=
  match e with
  | SourceStarted _ _ _ | SourceStopped _ | ConsoleError => True
  | _ => False
  end.

(** The invariants of the component: a source in the playback set was
    started, and without an output context nothing is scheduled. *)
Definition sources_started (w : World) : Prop :=
  forall s, s ∈ playbackSourcesRef (refs w) -> started s w = true.

Definition idle_without_output (w : World) : Prop :=
  outputAudioContextRef (refs w) = None ->
  playbackSourcesRef (refs w) = ∅ /\ nextStartTimeRef (refs w) = 0%Q.

Definition invariant (w : World) : Prop :=
  sources_started w /\ idle_without_output w.

End Spec.

(** ** Sessions used as examples *)

Module Scenario.
Import JS Json WebAudio Service LiveChat Spec.

(** The readings of the clocks at output time [t]. *)
Definition at_time (t : Q) : Env :=
  {| currentTime := t; dateUser := 1000; dateModel := 1001 |}.

(** The component after a first click on the button and a successful
    connection: the session is object 5, the output context object 2. *)
Definition connected : World :=
  startRecording (render initial) Connected initial.

(** The double nearest to 0.1 and the two doubles [2^-14] and [2^-13]
    later, as readings of the output clock. *)
Definition tenth : Q := 3602879701896397 # 36028797018963968.
Definition tenth_later : Q := 3605078725151949 # 36028797018963968.
Definition tenth_latest : Q := 3607277748407501 # 36028797018963968.

(** Two samples, 0.5 and 0.25, as an inbound chunk, and their decoding. *)
Definition chunk : jsstring := jsstr "AEAAIA==".

Definition segment : AudioBuffer :=
  {| sampleRate := 24000;
     WebAudio.length := 2;
     channels := [[Num (16384 # 32768); Num (8192 # 32768)]] |}.

(** A chunk of three bytes, which is not a whole number of samples. *)
Definition malformed_chunk : jsstring := jsstr "AEAA".

(** The messages of a list delivered in order to a session. *)
Definition deliver (session : nat)
    (events : list (Env * LiveServerMessage)) (w : World) : result World :=
  fold_left (fun r ev => w ← r; onmessage session (fst ev) (snd ev) w)
    events (Ok w).

(** The first session with two segments scheduled, sources 6 and 7. *)
Definition scheduled : World :=
  match deliver 5
          [(at_time 0, audioDelta chunk); (at_time 0, audioDelta chunk)]
          connected with
  | Ok w => w
  | Throw _ => connected
  end.

(** A turn in the first session: the user says "hello", the model answers
    "hi there". *)
Definition hello_turn : result World :=
  deliver 5
    [(at_time 1, inputDelta (jsstr "hello"));
     (at_time 2, outputDelta (jsstr "hi there"))]
    connected.

(** A first session that hears "foo" and is stopped in the middle of the
    turn, then a second click on the button; in the second session the
    user's transcription is a single space. *)
Definition second_session : result World :=
  w ← deliver 5 [(at_time 1, inputDelta (jsstr "foo"))] connected;
  w ← stopRecording w;
  let w := startRecording (render w) Connected w in
  deliver 11 [(at_time 7, inputDelta (jsstr " "))] w.

(** The world that session is in when its turn completes. *)
Definition resumed : World :=
  match second_session with
  | Ok w => w
  | Throw _ => initial
  end.

(** A first click on the button whose connection fails, after the stream
    (object 0), the two contexts (1 and 2) and the two nodes (3 and 4) were
    created; the button offers Start again, and a second click connects:
    its set-up creates objects 5 to 10 and overwrites the refs. *)
Definition failed_start : World :=
  startRecording (render initial) (ConnectionFailed (Some (jsstr "offline")))
    initial.

Definition restarted : World :=
  startRecording (render failed_start) Connected failed_start.

End Scenario.

(** ** services/geminiService.ts: the request functions *)

Module Gemini.
Import JS Json Service.

(** The fields of a [GenerateContentResponse] the functions read; every
    one may be absent. *)
Record InlineData := mkInlineData { data : option jsstring }.
Record Part := mkPart { inlineData : option InlineData }.
Record Content := mkContent { parts : option (list Part) }.
Record Web := mkWeb { uri : option jsstring; title : option jsstring }.
Record GroundingChunk := mkChunk { web : option Web }.
Record GroundingMetadata := mkGrounding {
  groundingChunks : option (list GroundingChunk)
}.
Record Candidate := mkCandidate {
  content : option Content;
  groundingMetadata : option GroundingMetadata
}.
Record Response := mkResponse {
  text : option jsstring;
  candidates : option (list Candidate)
}.

(** [!!process.env.API_KEY]. *)
Definition has_key (API_KEY : option jsstring) : bool :=
  match API_KEY with
  | Some k => truthy k
  | None => false
  end.

(** [window.aistudio]: [hasSelectedApiKey] may be undefined; otherwise it
    and [openSelectKey] are given by the outcome of the awaited call. *)
Record AiStudio := mkAiStudio {
  hasSelectedApiKey : option (result bool);
  openSelectKey : result unit
}.

Definition checkAndSelectApiKey (aistudio : option AiStudio)
    (API_KEY : option jsstring) : result bool :=
  match aistudio with
  | None => Ok (has_key API_KEY)
  | Some studio =>
      match hasSelectedApiKey studio with
      | None => Ok (has_key API_KEY)
      | Some call =>
          hasKey ← call;
          if negb hasKey then
            _ ← openSelectKey studio;
            Ok true
          else Ok true
      end
  end.

(** [generateAudioFromText]: nothing is requested for an empty text;
    otherwise
    [response.candidates?.[0]?.content?.parts?.[0]?.inlineData?.data]. *)
Definition generateAudioFromText (API_KEY : option jsstring)
    (text : jsstring) (generateContent : result Response)
    : result (option jsstring) :=
  if negb (truthy text) then Ok None
  else
    _ ← getGeminiClient API_KEY;
    response ← generateContent;
    Ok (cs ← candidates response;
        c ← cs !! O;
        ct ← content c;
        ps ← parts ct;
        p ← ps !! O;
        i ← inlineData p;
        data i).

(** [generateContentWithSearch]. *)
Record Url := mkUrl { url_uri : jsstring; url_title : option jsstring }.

Record SearchResult := mkSearchResult {
  result_text : option jsstring;
  urls : list Url
}.

(** The callback of [forEach]: [urls.push] when [chunk.web && chunk.web.uri]. *)
Definition push_url (urls : list Url) (chunk : GroundingChunk) : list Url :=
  match web chunk with
  | Some w =>
      match uri w with
      | Some u =>
          if truthy u then urls ++ [{| url_uri := u; url_title := title w |}]
          else urls
      | None => urls
      end
  | None => urls
  end.

(** [response.candidates?.[0]?.groundingMetadata?.groundingChunks]. *)
Definition grounding (response : Response) : option (list GroundingChunk) :=
  cs ← candidates response;
  c ← cs !! O;
  m ← groundingMetadata c;
  groundingChunks m.

Definition generateContentWithSearch (API_KEY : option jsstring)
    (generateContent : result Response) : result SearchResult :=
  _ ← getGeminiClient API_KEY;
  response ← generateContent;
  let urls :=
    match grounding response with
    | Some chunks => fold_left push_url chunks []
    | None => []
    end in
  Ok {| result_text := text response; urls := urls |}.

(** What a grounding chunk contributes to the list, if anything. *)
Definition citation (chunk : GroundingChunk) : option Url :=
  w ← web chunk;
  u ← uri w;
  if truthy u then Some {| url_uri := u; url_title := title w |} else None.

End Gemini.

(** ** components/ApiKeyChecker.tsx *)

Module ApiKeyChecker.
Import JS Json.

Record State := mkState {
  apiKeyAvailable : option bool;
  error : option jsstring;
  isLoading : bool
}.

Definition initial : State :=
  {| apiKeyAvailable := None; error := None; isLoading := true |}.

Definition setApiKeyAvailable (v : option bool) (s : State) : State :=
  {| apiKeyAvailable := v; error := error s; isLoading := isLoading s |}.

Definition setError (v : option jsstring) (s : State) : State :=
  {| apiKeyAvailable := apiKeyAvailable s; error := v;
     isLoading := isLoading s |}.

Definition setIsLoading (v : bool) (s : State) : State :=
  {| apiKeyAvailable := apiKeyAvailable s; error := error s; isLoading := v |}.

(** [handleCheckKey]; [check] is the outcome of the awaited
    [checkAndSelectApiKey()]. *)
Definition handleCheckKey (check : result bool) (s : State) : State :=
  let s := setIsLoading true s in
  let s := setError None s in
  let s :=
    match check with
    | Ok success =>
        let s := setApiKeyAvailable (Some success) s in
        if negb success then
          setError
            (Some (jsstr "Please select an API key to use the application. This is required for Gemini API access."))
            s
        else s
    | Throw _ =>
        let s :=
          setError
            (Some (jsstr "Failed to check or select API key. Please try again."))
            s in
        setApiKeyAvailable (Some false) s
    end in
  setIsLoading false s.

(** What the component renders. *)
Inductive View :=
  | Checking
  | KeyRequired (error : option jsstring)
  | Children.

Definition view (s : State) : View :=
  if isLoading s then Checking
  else
    match apiKeyAvailable s with
    | Some true => Children
    | _ =>
        KeyRequired
          (match error s with
           | Some e => if truthy e then Some e else None
           | None => None
           end)
    end.

End ApiKeyChecker.

(** ** components/GeneralChat.tsx *)

Module GeneralChat.
Import JS Json Service.

(** A chat message; the content follows [response.text], which may be
    undefined. *)
Record ChatMessage := mkMessage {
  role : LiveChat.ChatRole;
  content : option jsstring;
  timestamp : Z
}.

Record State := mkState {
  messages : list ChatMessage;
  input : jsstring;
  isLoading : bool;
  error : option jsstring
}.

(** How the awaited [generateContentWithSearch] ends; a failure carries
    [err.message]. *)
Inductive Outcome :=
  | Answered (answer : Gemini.SearchResult)
  | Failed (message : option jsstring).

(** [l.join(sep)]. *)
Fixpoint join (sep : jsstring) (l : list jsstring) : jsstring :=
  match l with
  | [] => []
  | [x] => x
  | x :: rest => x ++ sep ++ join sep rest
  end.

Definition newline : jsstring := [10].

(** [a || b] where both may be strings. *)
Definition or_else (a : option jsstring) (b : jsstring) : jsstring :=
  match a with
  | Some s => if truthy s then s else b
  | None => b
  end.

Definition source_line (url : Gemini.Url) : jsstring :=
  jsstr "- [" ++ or_else (Gemini.url_title url) (Gemini.url_uri url)
  ++ jsstr "](" ++ Gemini.url_uri url ++ jsstr ")".

Definition modelMessageContent (answer : Gemini.SearchResult)
    : option jsstring :=
  match Gemini.urls answer with
  | [] => Gemini.result_text answer
  | urls =>
      Some (interpolate (Gemini.result_text answer)
            ++ newline ++ newline ++ jsstr "**Sources:**" ++ newline
            ++ join newline (map source_line urls))
  end.

Definition addMessage (m : ChatMessage) (s : State) : State :=
  {| messages := messages s ++ [m]; input := input s;
     isLoading := isLoading s; error := error s |}.

Definition setInput (v : jsstring) (s : State) : State :=
  {| messages := messages s; input := v; isLoading := isLoading s;
     error := error s |}.

Definition setIsLoading (v : bool) (s : State) : State :=
  {| messages := messages s; input := input s; isLoading := v;
     error := error s |}.

Definition setError (v : option jsstring) (s : State) : State :=
  {| messages := messages s; input := input s; isLoading := isLoading s;
     error := v |}.

(** [sendMessage], as created by the current render; [dateUser] and
    [dateModel] are the readings of the two [new Date()]. *)
Definition sendMessage (dateUser dateModel : Z) (outcome : Outcome)
    (s : State) : State :=
  let input := input s in
  if negb (truthy (trim input)) then s
  else
    let userMessage :=
      {| role := LiveChat.USER; content := Some input;
         timestamp := dateUser |} in
    let s := addMessage userMessage s in
    let s := setInput [] s in
    let s := setIsLoading true s in
    let s := setError None s in
    let s :=
      match outcome with
      | Answered answer =>
          addMessage
            {| role := LiveChat.MODEL;
               content := modelMessageContent answer;
               timestamp := dateModel |} s
      | Failed message =>
          let s :=
            setError
              (Some (jsstr "Failed to get response: "
                     ++ or_else message (jsstr "Unknown error")
                     ++ jsstr "."))
              s in
          addMessage
            {| role := LiveChat.MODEL;
               content :=
                 Some (jsstr "Oops! Something went wrong. "
                       ++ or_else message (jsstr "Please try again."));
               timestamp := dateModel |} s
      end in
    setIsLoading false s.

End GeneralChat.

(** ** components/AudioPlayer.tsx *)

Module AudioPlayer.
Import JS Json WebAudio Service.

(** What happens on the platform, in order: the calls of the component and
    the end of a source's playback. *)
Inductive Event :=
  | ContextCreated (ctx : nat)
  | GainConnected (gain : nat)
  | SourceStarted (source : nat) (buffer : AudioBuffer)
  | SourceStopped (source : nat)
  | SourceDisconnected (source : nat)
  | SourceEnded (source : nat)
  | ContextClosed (ctx : nat)
  | ConsoleError.

Record Refs := mkRefs {
  audioContextRef : option nat;
  gainNodeRef : option nat;
  currentSourceRef : option nat
}.

Record World := mkWorld {
  refs : Refs;
  events : list Event;
  fresh : nat
}.

Definition initial : World :=
  {| refs := {| audioContextRef := None; gainNodeRef := None;
                currentSourceRef := None |};
     events := []; fresh := O |}.

Definition emit (e : Event) (w : World) : World :=
  {| refs := refs w; events := events w ++ [e]; fresh := fresh w |}.

Definition create (w : World) : nat * World :=
  (fresh w, {| refs := refs w; events := events w; fresh := S (fresh w) |}).

Definition with_refs (f : Refs -> Refs) (w : World) : World :=
  {| refs := f (refs w); events := events w; fresh := fresh w |}.

Definition set_audioContextRef (v : option nat) : World -> World :=
  with_refs (fun r =>
    {| audioContextRef := v; gainNodeRef := gainNodeRef r;
       currentSourceRef := currentSourceRef r |}).

Definition set_gainNodeRef (v : option nat) : World -> World :=
  with_refs (fun r =>
    {| audioContextRef := audioContextRef r; gainNodeRef := v;
       currentSourceRef := currentSourceRef r |}).

Definition set_currentSourceRef (v : option nat) : World -> World :=
  with_refs (fun r =>
    {| audioContextRef := audioContextRef r; gainNodeRef := gainNodeRef r;
       currentSourceRef := v |}).

Definition started (source : nat) (w : World) : bool :=
  existsb
    (fun e =>
       match e with
       | SourceStarted s _ => Nat.eqb s source
       | _ => false
       end)
    (events w).

(** [ctx.state === 'closed']. *)
Definition closed (ctx : nat) (w : World) : bool :=
  existsb
    (fun e =>
       match e with
       | ContextClosed c => Nat.eqb c ctx
       | _ => false
       end)
    (events w).

(** [source.stop()]: an InvalidStateError unless the source was started. *)
Definition stop_source (source : nat) (w : World) : result World :=
  if started source w then Ok (emit (SourceStopped source) w)
  else Throw InvalidStateError.

(** The block that stops the source [currentSourceRef] holds; the
    component has it three times. *)
Definition stopCurrent (w : World) : result World :=
  match currentSourceRef (refs w) with
  | Some source =>
      w ← stop_source source w;
      let w := emit (SourceDisconnected source) w in
      Ok (set_currentSourceRef None w)
  | None => Ok w
  end.

(** The [try] block of [playAudio]: the world when it ends and the
    exception it threw, if any.  [connect] on a missing gain node is a
    TypeError. *)
Definition playAudio_try (audioData : jsstring) (w : World)
    : World * option exn :=
  match (decodedBytes ← decode audioData;
         decodeAudioData decodedBytes OUTPUT_AUDIO_SAMPLE_RATE
           AUDIO_NUM_CHANNELS) with
  | Throw e => (w, Some e)
  | Ok audioBuffer =>
      let (source, w) := create w in
      match gainNodeRef (refs w) with
      | None => (w, Some TypeError)
      | Some gain =>
          let w := emit (SourceStarted source audioBuffer) w in
          (set_currentSourceRef (Some source) w, None)
      end
  end.

(** [playAudio].  The continuation after the [await] runs before any
    other effect or clean-up, so the function is one step. *)
Definition playAudio (audioData : jsstring) (w : World) : result World :=
  let w :=
    match audioContextRef (refs w) with
    | Some _ => w
    | None =>
        let (ctx, w) := create w in
        let w := emit (ContextCreated ctx) w in
        let w := set_audioContextRef (Some ctx) w in
        let (gain, w) := create w in
        let w := emit (GainConnected gain) w in
        set_gainNodeRef (Some gain) w
    end in
  w ← stopCurrent w;
  let (w, thrown) := playAudio_try audioData w in
  match thrown with
  | Some error => Ok (emit ConsoleError w)
  | None => Ok w
  end.

(** The body of the effect for a value of the [base64Audio] prop. *)
Definition effect (base64Audio : option jsstring) (w : World)
    : result World :=
  match base64Audio with
  | Some audio => if truthy audio then playAudio audio w else stopCurrent w
  | None => stopCurrent w
  end.

(** The clean-up function the effect returns. *)
Definition cleanup (w : World) : result World :=
  w ← stopCurrent w;
  match audioContextRef (refs w) with
  | Some ctx =>
      let w := if closed ctx w then w else emit (ContextClosed ctx) w in
      Ok (set_gainNodeRef None (set_audioContextRef None w))
  | None => Ok w
  end.

(** [source.onended]. *)
Definition onended (source : nat) (w : World) : World :=
  match currentSourceRef (refs w) with
  | Some current =>
      if Nat.eqb current source then set_currentSourceRef None w else w
  | None => w
  end.

(** The life of the component: the effect runs at the mount and after
    every change of the prop, each time after the clean-up of the run
    before (which does nothing at the mount); the clean-up runs at the
    unmount; a started source ends. *)
Inductive step : World -> World -> Prop :=
  | step_effect w base64Audio w1 w2 :
      cleanup w = Ok w1 -> effect base64Audio w1 = Ok w2 -> step w w2
  | step_unmount w w' :
      cleanup w = Ok w' -> step w w'
  | step_ended w source :
      started source w = true ->
      step w (onended source (emit (SourceEnded source) w)).

Inductive reachable : World -> Prop :=
  | reachable_initial : reachable initial
  | reachable_step w w' : reachable w -> step w w' -> reachable w'.

(** A source that can no longer be heard. *)
Definition silent (source : nat) (w : World) : Prop :=
  SourceStopped source ∈ events w \/ SourceEnded source ∈ events w.

(** The world [stopCurrent] leaves when the current source was started,
    and the world [cleanup] leaves then. *)
Definition halted (w : World) : World :=
  match currentSourceRef (refs w) with
  | Some source =>
      set_currentSourceRef None
        (emit (SourceDisconnected source) (emit (SourceStopped source) w))
  | None => w
  end.

Definition cleaned (w : World) : World :=
  let w := halted w in
  match audioContextRef (refs w) with
  | Some ctx =>
      set_gainNodeRef None
        (set_audioContextRef None
           (if closed ctx w then w else emit (ContextClosed ctx) w))
  | None => w
  end.

(** The invariants of the player: the source the ref holds was started
    and every other started source is silent; the context and the gain
    node are held together; the context held is open; the names of the
    context held and of the closed contexts have been handed out. *)
Definition invariant (w : World) : Prop :=
  (forall s, currentSourceRef (refs w) = Some s -> started s w = true)
  /\ (forall s, started s w = true ->
                currentSourceRef (refs w) = Some s \/ silent s w)
  /\ (audioContextRef (refs w) = None <-> gainNodeRef (refs w) = None)
  /\ (forall ctx, audioContextRef (refs w) = Some ctx ->
                  closed ctx w = false /\ (ctx < fresh w)%nat)
  /\ (forall ctx, closed ctx w = true -> (ctx < fresh w)%nat).

(** The player after the mount with a narration of two samples. *)
Definition narrating : World :=
  match effect (Some (jsstr "AEAAIA==")) initial with
  | Ok w => w
  | Throw _ => initial
  end.

End AudioPlayer.

(** * Proofs *)

Import JS Json WebAudio Service LiveChat Spec Scenario.
#[local] Set Warnings "-clear-no-such-hyp".

Section Loops.
Context {A : Type}.

Lemma for_loop_store (f : nat -> A) count :
  forall start (done rest : list A),
    List.length done = start -> List.length rest = count ->
    for_loop start count (fun i a => <[i := f i]> a) (done ++ rest)
    = done ++ map f (seq start count).
Proof.
  induction count as [|count IH]; intros start done rest Hd Hr.
  - destruct rest; [|discriminate]. reflexivity.
  - destruct rest as [|x rest]; [discriminate|].
    simpl. rewrite <- Hd.
    rewrite (insert_app_r_alt done (x :: rest) (List.length done)) by lia.
    rewrite Nat.sub_diag. simpl.
    rewrite (cons_middle (f (List.length done))), app_assoc.
    rewrite IH.
    + rewrite <- app_assoc. simpl. rewrite Hd. reflexivity.
    + rewrite length_app. simpl. lia.
    + simpl in Hr. lia.
Qed.

Lemma for_loop_append (g : nat -> list A) count :
  forall start (acc : list A),
    for_loop start count (fun i s => s ++ g i) acc
    = acc ++ flat_map g (seq start count).
Proof.
  induction count as [|count IH]; intros start acc; simpl.
  - now rewrite app_nil_r.
  - rewrite IH, <- app_assoc. reflexivity.
Qed.

Lemma map_seq_lookup {B} (g : option A -> B) (l : list A) :
  forall start (pre : list A),
    List.length pre = start ->
    map (fun i => g ((pre ++ l) !! i)) (seq start (List.length l))
    = map (fun x => g (Some x)) l.
Proof.
  induction l as [|x l IH]; intros start pre Hp; simpl; [reflexivity|].
  f_equal.
  - rewrite lookup_app_r by lia. rewrite Hp, Nat.sub_diag. reflexivity.
  - rewrite (cons_middle x pre l), app_assoc. apply IH.
    rewrite length_app. simpl. lia.
Qed.
End Loops.

Lemma store_all {A B} (g : option A -> B) (l : list A) (d : B) :
  for_loop 0 (List.length l) (fun i a => <[i := g (l !! i)]> a)
    (replicate (List.length l) d)
  = map (fun x => g (Some x)) l.
Proof.
  pose proof (for_loop_store (fun i => g (l !! i)) (List.length l) O []
                (replicate (List.length l) d) eq_refl (length_replicate _ _))
    as H.
  simpl in H. rewrite H.
  apply (map_seq_lookup g l O []). reflexivity.
Qed.

(** ** Bytes and bit operations *)


Lemma lor_shiftl_add lo hi k :
  0 <= k -> 0 <= lo < 2 ^ k -> Z.lor lo (Z.shiftl hi k) = lo + hi * 2 ^ k.
Proof.
  intros Hk Hlo.
  pose proof (Z.add_lor_land lo (Z.shiftl hi k)) as Hadd.
  assert (Z.land lo (Z.shiftl hi k) = 0) as Hland.
  { apply Z.bits_inj'. intros n Hn.
    rewrite Z.land_spec, Z.bits_0.
    destruct (Z.lt_ge_cases n k) as [Hlt|Hge].
    - rewrite (Z.shiftl_spec_low hi k n Hlt). apply andb_false_r.
    - rewrite <- (Z.mod_small lo (2 ^ k)) by lia.
      rewrite Z.mod_pow2_bits_high by lia. reflexivity. }
  rewrite Z.shiftl_mul_pow2 in * by lia. lia.
Qed.

Lemma shiftl_lor_add hi lo k :
  0 <= k -> 0 <= lo < 2 ^ k -> Z.lor (Z.shiftl hi k) lo = hi * 2 ^ k + lo.
Proof. intros. rewrite Z.lor_comm, lor_shiftl_add by assumption. lia. Qed.

Lemma land_255 v : Z.land v 255 = v mod 256.
Proof. change 255 with (Z.ones 8). now rewrite Z.land_ones. Qed.
Lemma land_63 v : Z.land v 63 = v mod 64.
Proof. change 63 with (Z.ones 6). now rewrite Z.land_ones. Qed.
Lemma land_15 v : Z.land v 15 = v mod 16.
Proof. change 15 with (Z.ones 4). now rewrite Z.land_ones. Qed.
Lemma land_3 v : Z.land v 3 = v mod 4.
Proof. change 3 with (Z.ones 2). now rewrite Z.land_ones. Qed.

Ltac pow2_values :=
  change (2 ^ 2) with 4 in *; change (2 ^ 4) with 16 in *;
  change (2 ^ 6) with 64 in *; change (2 ^ 8) with 256 in *.

Ltac bits_to_arith :=
  repeat first
    [ rewrite land_255 | rewrite land_63 | rewrite land_15 | rewrite land_3
    | rewrite Z.shiftr_div_pow2 by lia
    | rewrite lor_shiftl_add
        by (try lia; bits_to_arith; pow2_values; Z.div_mod_to_equations; lia)
    | rewrite shiftl_lor_add
        by (try lia; bits_to_arith; pow2_values; Z.div_mod_to_equations; lia)
    | rewrite Z.shiftl_mul_pow2 by lia ];
  pow2_values.

Lemma bytes_of_int16_bytes v : Forall byte (bytes_of_int16 v).
Proof.
  unfold bytes_of_int16, byte. rewrite !land_255.
  repeat constructor; Z.div_mod_to_equations; lia.
Qed.

Lemma int16_of_bytes_of_int16 v :
  int16 v ->
  int16_of_bytes (Z.land v 255) (Z.land (Z.shiftr v 8) 255) = v.
Proof.
  unfold int16, int16_of_bytes. intros Hv.
  rewrite !land_255, Z.shiftr_div_pow2 by lia.
  rewrite lor_shiftl_add by (try lia; Z.div_mod_to_equations; lia).
  change (2 ^ 8) with 256. change (2 ^ 15) with 32768. change (2 ^ 16) with 65536.
  destruct (Z.leb_spec 32768 (v mod 256 + (v / 256) mod 256 * 256));
    Z.div_mod_to_equations; lia.
Qed.

Lemma int16_view_bytes vs :
  Forall int16 vs -> int16_view (Uint8Array_of_Int16 vs) = vs.
Proof.
  induction 1 as [|v vs Hv _ IH]; [reflexivity|].
  change (Uint8Array_of_Int16 (v :: vs))
    with (Z.land v 255 :: Z.land (Z.shiftr v 8) 255 :: Uint8Array_of_Int16 vs).
  cbn [int16_view]. rewrite IH.
  now rewrite int16_of_bytes_of_int16.
Qed.

Lemma Uint8Array_of_Int16_bytes vs : Forall byte (Uint8Array_of_Int16 vs).
Proof.
  induction vs as [|v vs IH]; [constructor|].
  change (Uint8Array_of_Int16 (v :: vs))
    with (bytes_of_int16 v ++ Uint8Array_of_Int16 vs).
  apply Forall_app. split; [apply bytes_of_int16_bytes | exact IH].
Qed.

Lemma Uint8Array_of_Int16_length vs :
  List.length (Uint8Array_of_Int16 vs) = (2 * List.length vs)%nat.
Proof.
  induction vs as [|v vs IH]; [reflexivity|].
  change (Uint8Array_of_Int16 (v :: vs))
    with (Z.land v 255 :: Z.land (Z.shiftr v 8) 255 :: Uint8Array_of_Int16 vs).
  cbn [List.length]. lia.
Qed.

(** ** Base64 *)


Lemma triples_ind {A} (P : list A -> Prop) :
  P [] -> (forall a, P [a]) -> (forall a b, P [a; b]) ->
  (forall a b c l, P l -> P (a :: b :: c :: l)) ->
  forall l, P l.
Proof.
  intros H0 H1 H2 H3. fix IH 1.
  intros [|a [|b [|c l]]];
    [exact H0 | apply H1 | apply H2 | apply H3, IH].
Qed.

Lemma sextet_of_b64char s : sextet s -> sextet_of_char (b64char s) = Some s.
Proof.
  unfold sextet, sextet_of_char, b64char. intros Hs.
  repeat match goal with
         | |- context [?a <? ?b] => destruct (Z.ltb_spec a b)
         | |- context [?a <=? ?b] => destruct (Z.leb_spec a b)
         | |- context [?a =? ?b] => destruct (Z.eqb_spec a b)
         | _ => progress simpl
         end; try lia; f_equal; lia.
Qed.

Lemma b64char_plain s :
  sextet s -> ascii_whitespace (b64char s) = false /\ b64char s <> pad_char.
Proof.
  unfold sextet, ascii_whitespace, b64char, pad_char. intros Hs.
  repeat match goal with
         | |- context [?a <? ?b] => destruct (Z.ltb_spec a b)
         | |- context [?a =? ?b] => destruct (Z.eqb_spec a b)
         | _ => progress simpl
         end; split; try reflexivity; lia.
Qed.

Lemma sextets_of_bytes_range bs :
  Forall byte bs -> Forall sextet (sextets_of_bytes bs).
Proof.
  induction bs as [|a|a b|a b c l IH] using triples_ind; intros H;
    repeat match goal with
           | H : Forall _ (_ :: _) |- _ => inversion H; subst; clear H
           end;
    cbn [sextets_of_bytes]; unfold byte, sextet in *;
    repeat (apply Forall_cons; split); try apply Forall_nil; try (apply IH; assumption);
    bits_to_arith; Z.div_mod_to_equations; lia.
Qed.

Lemma bytes_of_sextets_of_bytes bs :
  Forall byte bs -> bytes_of_sextets (sextets_of_bytes bs) = bs.
Proof.
  induction bs as [|a|a b|a b c l IH] using triples_ind; intros H;
    repeat match goal with
           | H : Forall _ (_ :: _) |- _ => inversion H; subst; clear H
           end;
    cbn [sextets_of_bytes bytes_of_sextets]; unfold byte in *.
  - reflexivity.
  - f_equal. bits_to_arith. Z.div_mod_to_equations; lia.
  - f_equal; [|f_equal]; bits_to_arith; Z.div_mod_to_equations; lia.
  - rewrite IH by assumption.
    f_equal; [|f_equal; [|f_equal]]; bits_to_arith; Z.div_mod_to_equations; lia.
Qed.

Lemma mapM_sextets ss :
  Forall sextet ss -> mapM sextet_of_char (map b64char ss) = Some ss.
Proof.
  induction 1 as [|s ss Hs _ IH]; [reflexivity|].
  cbn [map mapM]. rewrite (sextet_of_b64char s Hs), IH. reflexivity.
Qed.

Lemma filter_plain (body pad : jsstring) :
  Forall (fun c => ascii_whitespace c = false) (body ++ pad) ->
  filter (fun c => ascii_whitespace c = false) (body ++ pad) = body ++ pad.
Proof.
  generalize (body ++ pad). intros l. induction 1 as [|c l Hc _ IH]; [reflexivity|].
  rewrite filter_cons. destruct (decide (ascii_whitespace c = false)); [|contradiction].
  now rewrite IH.
Qed.

Lemma padding_plus3 n : padding (S (S (S n))) = padding n.
Proof.
  unfold padding. replace (S (S (S n))) with (n + 1 * 3)%nat by lia.
  now rewrite Nat.Div0.mod_add.
Qed.

Lemma encoding_shape (bs : list Z) :
  shape (List.length (sextets_of_bytes bs)) (padding (List.length bs)).
Proof.
  induction bs as [|a|a b|a b c l IH] using triples_ind.
  - apply (shape_full 0).
  - apply (shape_one 0).
  - apply (shape_two 0).
  - cbn [sextets_of_bytes List.length]. rewrite padding_plus3.
    destruct IH as [k|k|k].
    + replace (S (S (S (S (4 * k))))) with (4 * (S k))%nat by lia. constructor.
    + replace (S (S (S (S (4 * k + 2))))) with (4 * (S k) + 2)%nat by lia. constructor.
    + replace (S (S (S (S (4 * k + 3))))) with (4 * (S k) + 3)%nat by lia. constructor.
Qed.

Lemma strip_padding_shape (body pad : jsstring) :
  Forall (fun c => c <> pad_char) body ->
  shape (List.length body) pad ->
  strip_padding (body ++ pad) = body.
Proof.
  intros Hbody Hs. unfold strip_padding.
  rewrite rev_app_distr.
  assert (Forall (fun c => c <> pad_char) (rev body)) as Hrev.
  { apply List.Forall_rev. exact Hbody. }
  inversion Hs as [k Hk Hp|k Hk Hp|k Hk Hp]; subst pad; cbn [rev app].
  - rewrite app_nil_r.
    destruct (rev body) as [|p [|q r]] eqn:E; [reflexivity| |];
      inversion Hrev as [|? ? Hp']; subst;
      (destruct (Z.eqb_spec p pad_char); [contradiction|reflexivity]).
  - change (pad_char =? pad_char) with true. cbn iota.
    apply rev_involutive.
  - destruct (rev body) as [|q r] eqn:E.
    + apply (f_equal (@List.length Z)) in E. rewrite length_rev in E.
      simpl in E. lia.
    + change (pad_char =? pad_char) with true. cbn iota.
      inversion Hrev as [|? ? Hq]; subst.
      destruct (Z.eqb_spec q pad_char); [contradiction|].
      change (rev r ++ [q]) with (rev (q :: r)).
      rewrite <- E. apply rev_involutive.
Qed.

Lemma shape_length n pad :
  shape n pad -> ((n + List.length pad) mod 4 = 0 /\ n mod 4 <> 1)%nat.
Proof.
  intros [k|k|k]; cbn [List.length].
  - rewrite Nat.add_0_r, Nat.mul_comm, Nat.Div0.mod_mul. split; lia.
  - replace (4 * k + 2 + 2)%nat with ((S k) * 4)%nat by lia.
    rewrite Nat.Div0.mod_mul.
    replace (4 * k + 2)%nat with (2 + k * 4)%nat by lia.
    rewrite Nat.Div0.mod_add. split; [reflexivity|]. cbn. lia.
  - replace (4 * k + 3 + 1)%nat with ((S k) * 4)%nat by lia.
    rewrite Nat.Div0.mod_mul.
    replace (4 * k + 3)%nat with (3 + k * 4)%nat by lia.
    rewrite Nat.Div0.mod_add. split; [reflexivity|]. cbn. lia.
Qed.

Lemma atob_base64_encode bs :
  Forall byte bs -> atob (base64_encode bs) = Ok bs.
Proof.
  intros Hbs. unfold atob, base64_encode.
  pose proof (sextets_of_bytes_range bs Hbs) as Hss.
  pose proof (encoding_shape bs) as Hshape.
  set (ss := sextets_of_bytes bs) in *.
  set (pad := padding (List.length bs)) in *.
  assert (Forall (fun c => ascii_whitespace c = false) (map b64char ss ++ pad))
    as Hplain.
  { apply Forall_app. split.
    - apply Forall_map. eapply Forall_impl; [exact Hss|].
      intros s Hs. apply (b64char_plain s Hs).
    - inversion Hshape; repeat constructor. }
  rewrite (filter_plain _ _ Hplain).
  assert (Forall (fun c => c <> pad_char) (map b64char ss)) as Hbody.
  { apply Forall_map. eapply Forall_impl; [exact Hss|].
    intros s Hs. apply (b64char_plain s Hs). }
  rewrite <- (length_map b64char ss) in Hshape.
  destruct (shape_length _ _ Hshape) as [Hfour Hone].
  rewrite length_app, Hfour. cbn [Nat.eqb].
  rewrite (strip_padding_shape _ _ Hbody Hshape).
  destruct (Nat.eqb_spec (List.length (map b64char ss) mod 4) 1) as [E|_];
    [contradiction|].
  rewrite (mapM_sextets ss Hss).
  unfold ss. now rewrite bytes_of_sextets_of_bytes.
Qed.

(** [encode] never fails on bytes, and [decode] inverts it. *)
Lemma ToUintN_int bits v :
  ToUintN bits (Num (inject_Z v)) = v mod 2 ^ bits.
Proof. unfold ToUintN, truncate. simpl. now rewrite Z.quot_1_r. Qed.

Lemma encode_bytes bs : Forall byte bs -> encode bs = Ok (base64_encode bs).
Proof.
  intros Hbs. unfold encode. rewrite for_loop_append. cbn [app].
  assert (flat_map (fun i => fromCharCode (read_int bs i))
            (seq 0 (List.length bs)) = bs) as ->.
  { rewrite flat_map_concat_map.
    pose proof (map_seq_lookup
                  (fun o : option Z =>
                     fromCharCode (match o with
                                   | Some v => Num (inject_Z v)
                                   | None => NaN
                                   end)) bs O [] eq_refl) as H.
    cbn [app] in H. unfold read_int. rewrite H. clear H.
    induction Hbs as [|b bs Hb _ IH]; [reflexivity|].
    cbn [map concat]. rewrite IH. unfold fromCharCode.
    rewrite ToUintN_int. unfold byte in Hb.
    rewrite Z.mod_small by lia. reflexivity. }
  unfold btoa.
  assert (forallb (fun c => (0 <=? c) && (c <=? 255)) bs = true) as ->.
  { apply forallb_forall. intros c Hc.
    assert (byte c) as [H0 H1].
    { revert c Hc. apply List.Forall_forall. exact Hbs. }
    apply andb_true_iff. split; apply Z.leb_le; lia. }
  reflexivity.
Qed.

Lemma decode_base64_encode bs :
  Forall byte bs -> decode (base64_encode bs) = Ok bs.
Proof.
  intros Hbs. unfold decode. rewrite (atob_base64_encode bs Hbs).
  cbn [mbind result_bind]. f_equal.
  unfold read_int.
  rewrite (store_all (fun o : option Z =>
                        ToUintN 8 (match o with
                                   | Some v => Num (inject_Z v)
                                   | None => NaN
                                   end)) bs 0).
  induction Hbs as [|b bs Hb _ IH]; [reflexivity|].
  cbn [map]. rewrite IH, ToUintN_int. unfold byte in Hb.
  rewrite Z.mod_small by lia. reflexivity.
Qed.

Lemma truncate_nonneg (q : Q) :
  (0 <= q)%Q -> (inject_Z (truncate q) <= q /\ q < inject_Z (truncate q) + 1)%Q.
Proof.
  destruct q as [n d]. unfold truncate, Qle, Qlt. simpl. intros Hq.
  pose proof (Z.quot_rem' n (Z.pos d)) as Heq.
  pose proof (Z.rem_bound_pos n (Z.pos d)) as Hr.
  rewrite Z.mul_1_r in *. nia.
Qed.

Lemma truncate_nonpos (q : Q) :
  (q <= 0)%Q -> (inject_Z (truncate q) - 1 < q /\ q <= inject_Z (truncate q))%Q.
Proof.
  destruct q as [n d]. unfold truncate, Qle, Qlt. simpl. intros Hq.
  pose proof (Z.quot_rem' n (Z.pos d)) as Heq.
  pose proof (Z.rem_bound_pos_neg n (Z.pos d)) as Hr.
  rewrite ?Z.mul_1_r, ?Pos.mul_1_r in *.
  assert (n <= 0) as Hn by lia. specialize (Hr eq_refl Hn).
  split; nia.
Qed.

Lemma ToInt16_wrap (q : Q) : ToInt16 (Num q) = wrap16 (truncate q).
Proof.
  unfold ToInt16, ToUintN, wrap16.
  change (2 ^ 16) with 65536. change (2 ^ 15) with 32768.
  destruct (Z.leb_spec 32768 (truncate q mod 65536));
    Z.div_mod_to_equations; lia.
Qed.

Lemma wrap16_int16 v : int16 (wrap16 v).
Proof. unfold int16, wrap16. Z.div_mod_to_equations; lia. Qed.

Lemma wrap16_small v : int16 v -> wrap16 v = v.
Proof. unfold int16, wrap16. intros. Z.div_mod_to_equations; lia. Qed.

Lemma ToInt16_quantize (x : number) : ToInt16 (scale x 32768) = quantize x.
Proof. destruct x as [q| |s]; [apply ToInt16_wrap|reflexivity|reflexivity]. Qed.

Lemma quantize_int16 x : int16 (quantize x).
Proof.
  destruct x as [q| |s]; cbn [quantize]; [apply wrap16_int16| |];
    unfold int16; lia.
Qed.

Lemma bytes_of_int16_little_endian v :
  bytes_of_int16 v = little_endian16 v.
Proof.
  unfold bytes_of_int16, little_endian16. cbn [little_endian].
  rewrite !land_255, Z.shiftr_div_pow2 by lia. reflexivity.
Qed.

(** The samples [createBlob] stores. *)
Lemma createBlob_int16 (data : list number) :
  for_loop 0 (List.length data)
    (fun i int16 =>
       <[i := ToInt16 (scale (default NaN (data !! i)) 32768)]> int16)
    (replicate (List.length data) 0)
  = map quantize data.
Proof.
  rewrite (store_all (fun o => ToInt16 (scale (default NaN o) 32768)) data 0).
  apply map_ext. intros x. apply ToInt16_quantize.
Qed.

Lemma createBlob_spec (data : list number) :
  createBlob data
  = Ok {| Service.data :=
            base64_encode (Uint8Array_of_Int16 (map quantize data));
          mimeType := jsstr "audio/pcm;rate=16000" |}.
Proof.
  unfold createBlob. rewrite createBlob_int16.
  rewrite encode_bytes by apply Uint8Array_of_Int16_bytes.
  reflexivity.
Qed.

(** A sample in [-1, 1) is stored without wrapping, within one quantum. *)
Lemma quantize_in_range (x : Q) :
  (-1 <= x)%Q -> (x < 1)%Q ->
  quantize (Num x) = truncate (x * 32768)%Q
  /\ (Qabs (x - inject_Z (quantize (Num x)) * (1 / 32768)) <= 1 # 32768)%Q.
Proof.
  intros Hlo Hhi. cbn [quantize].
  set (t := truncate (x * 32768)%Q).
  assert ((inject_Z t - 1 < x * 32768)%Q /\ (x * 32768 < inject_Z t + 1)%Q
          /\ - 32768 <= t < 32768) as (Hl & Hu & Ht).
  { destruct (Qlt_le_dec x 0) as [Hneg|Hpos].
    - destruct (truncate_nonpos (x * 32768)%Q) as [H1 H2]; [lra|].
      fold t in H1, H2.
      assert (inject_Z (- 32768) <= inject_Z t)%Q as Ha
          by (change (inject_Z (- 32768)) with (- 32768 # 1)%Q; lra).
      assert (inject_Z t < inject_Z 1)%Q as Hb
          by (change (inject_Z 1) with 1%Q; lra).
      rewrite <- Zle_Qle in Ha. rewrite <- Zlt_Qlt in Hb.
      repeat split; try lra; lia.
    - destruct (truncate_nonneg (x * 32768)%Q) as [H1 H2]; [lra|].
      fold t in H1, H2.
      assert (inject_Z t < inject_Z 32768)%Q as Ha
          by (change (inject_Z 32768) with 32768%Q; lra).
      assert (inject_Z (- 1) < inject_Z t)%Q as Hb
          by (change (inject_Z (- 1)) with (- 1 # 1)%Q; lra).
      rewrite <- Zlt_Qlt in Ha. rewrite <- Zlt_Qlt in Hb.
      repeat split; try lra; lia. }
  rewrite wrap16_small by exact Ht. split; [reflexivity|].
  change (1 / 32768)%Q with (1 # 32768)%Q.
  apply Qabs_Qle_condition. split; lra.
Qed.

Lemma for_loop_ext {S} (f g : nat -> S -> S) count :
  (forall i s, f i s = g i s) ->
  forall start s, for_loop start count f s = for_loop start count g s.
Proof.
  intros Hfg. induction count as [|count IH]; intros start s; simpl;
    [reflexivity|]. now rewrite Hfg, IH.
Qed.

Lemma pairs_ind {A} (P : list A -> Prop) :
  P [] -> (forall a, P [a]) -> (forall a b l, P l -> P (a :: b :: l)) ->
  forall l, P l.
Proof.
  intros H0 H1 H2. fix IH 1.
  intros [|a [|b l]]; [exact H0 | apply H1 | apply H2, IH].
Qed.

Lemma int16_view_length buf :
  List.length (int16_view buf) = (List.length buf / 2)%nat.
Proof.
  induction buf as [|a|a b l IH] using pairs_ind; try reflexivity.
  cbn [int16_view List.length]. rewrite IH.
  change (S (S (List.length l))) with (1 * 2 + List.length l)%nat.
  now rewrite Nat.div_add_l by lia.
Qed.

Lemma divide_by_one n :
  0 <= n -> divide n 1 = Num (inject_Z n / inject_Z 1)
  /\ truncate (inject_Z n / inject_Z 1) = n
  /\ Qceiling (inject_Z n / inject_Z 1) = n.
Proof.
  intros Hn. split; [reflexivity|].
  unfold truncate, Qceiling, Qfloor, Qdiv, Qmult, Qinv, Qopp, inject_Z. simpl.
  rewrite Z.mul_1_r, Z.quot_1_r, Z.div_1_r. split; lia.
Qed.

(** Within the limits, [createBuffer] refuses only an empty buffer. *)
Lemma createBuffer_within (k : Z) (len : number) (rate : Z) :
  1 <= k <= maxChannels ->
  minSampleRate <= rate <= maxSampleRate ->
  createBuffer k len rate
  = if ToUintN 32 len =? 0 then Throw NotSupportedError
    else Ok {| sampleRate := rate;
               WebAudio.length := Z.to_nat (ToUintN 32 len);
               channels := replicate (Z.to_nat k)
                             (replicate (Z.to_nat (ToUintN 32 len)) (Num 0)) |}.
Proof.
  intros Hk Hr. unfold createBuffer.
  destruct (Z.leb_spec k 0) as [E|_]; [lia|].
  destruct (Z.ltb_spec maxChannels k) as [E|_]; [lia|].
  destruct (Z.ltb_spec rate minSampleRate) as [E|_]; [lia|].
  destruct (Z.ltb_spec maxSampleRate rate) as [E|_]; [lia|].
  cbn [orb]. now rewrite !orb_false_r.
Qed.


(** Decoding on one channel: every 16-bit element divided by 32768. *)
Lemma decodeAudioData_mono (data : list Z) (rate : Z) :
  minSampleRate <= rate <= maxSampleRate ->
  (List.length data mod 2 = 0)%nat ->
  0 < Z.of_nat (List.length data / 2) < 2 ^ 32 ->
  decodeAudioData data rate 1
  = Ok {| sampleRate := rate;
          WebAudio.length := (List.length data / 2)%nat;
          channels :=
            [map (fun v => Num (inject_Z v * (1 / 32768))) (int16_view data)] |}.
Proof.
  intros Hrate Heven Hn. unfold decodeAudioData, Int16Array_of_buffer.
  assert (Z.of_nat (List.length data) mod 2 = 0) as ->.
  { change 2 with (Z.of_nat 2). rewrite <- Nat2Z.inj_mod, Heven. reflexivity. }
  cbn [Z.eqb mbind result_bind].
  rewrite int16_view_length.
  set (n := (List.length data / 2)%nat) in *.
  destruct (divide_by_one (Z.of_nat n)) as (Hd & Ht & Hc); [lia|].
  rewrite Hd, createBuffer_within by (unfold maxChannels; lia).
  unfold ToUintN. rewrite Ht.
  rewrite Z.mod_small by lia.
  destruct (Z.eqb_spec (Z.of_nat n) 0) as [E|_]; [lia|].
  cbn [passes]. rewrite Hc, Nat2Z.id.
  change (Z.to_nat 1) with 1%nat.
  cbn [mbind result_bind replicate for_loop].
  cbn [channels sampleRate WebAudio.length lookup list_lookup default
       insert list_insert].
  f_equal. f_equal. f_equal.
  pose (g := fun o : option Z =>
               scale match o with
                     | Some v => Num (inject_Z v)
                     | None => NaN
                     end (1 / 32768)).
  rewrite (for_loop_ext _ (fun i a => <[i := g (int16_view data !! i)]> a)).
  - replace n with (List.length (int16_view data))
      by apply int16_view_length.
    unfold id. rewrite (store_all g (int16_view data) (Num 0)). reflexivity.
  - intros i a. unfold read_int, g.
    now rewrite Nat.mul_1_r, Nat.add_0_r.
Qed.

Lemma little_endian_bytes (data : list number) :
  Uint8Array_of_Int16 (map quantize data)
  = flat_map (fun x => little_endian16 (quantize x)) data.
Proof.
  unfold Uint8Array_of_Int16. rewrite flat_map_concat_map, map_map.
  rewrite flat_map_concat_map. f_equal. apply map_ext.
  intros x. apply bytes_of_int16_little_endian.
Qed.

(** C6 (as amended): [createBlob] never fails; it stores for every sample
    the integer part of [sample * 32768] (rounded toward zero, not to the
    nearest integer), wrapped to 16 bits, and zero for NaN and the
    infinities; the blob carries the base64 encoding of the little-endian
    bytes, which [atob] decodes back, tagged audio/pcm;rate=16000. *)
Theorem createBlob_truncates :
  (forall data : list number,
      exists blob,
        createBlob data = Ok blob
        /\ Service.data blob
           = base64_encode
               (flat_map (fun x => little_endian16 (quantize x)) data)
        /\ atob (Service.data blob)
           = Ok (flat_map (fun x => little_endian16 (quantize x)) data)
        /\ mimeType blob = jsstr "audio/pcm;rate=16000")
  /\ (forall samples : list Q,
         createBlob (map Num samples) = Ok (encodeFrame_by truncate samples)).
Proof.
  split.
  - intros data. eexists. split; [apply createBlob_spec|].
    cbn [Service.data mimeType]. rewrite <- little_endian_bytes.
    repeat split.
    apply atob_base64_encode, Uint8Array_of_Int16_bytes.
  - intros samples. rewrite createBlob_spec, little_endian_bytes.
    unfold encodeFrame_by. do 3 f_equal.
    rewrite !flat_map_concat_map, map_map. reflexivity.
Qed.

(** C6, the claim as stated fails: the sample 0.75 / 32768 is stored as 0,
    where rounding to the nearest integer gives 1. *)
Lemma createBlob_does_not_round :
  createBlob (map Num [3 # 131072])
  <> Ok (encodeFrame_by round [3 # 131072]).
Proof. vm_compute. discriminate. Qed.

(** C1 (as amended): a non-empty frame of fewer than 2^32 samples, each in
    [-1, 1), is decoded to a frame of the same length whose samples differ
    from the originals by at most 1/32768. *)
Theorem round_trip_half_open (xs : list Q) :
  xs <> [] ->
  Z.of_nat (List.length xs) < 2 ^ 32 ->
  Forall (fun x => (-1 <= x)%Q /\ (x < 1)%Q) xs ->
  round_trips xs.
Proof.
  intros Hne Hlen Hxs.
  set (vs := map quantize (map Num xs)).
  assert (Forall int16 vs) as Hvs.
  { unfold vs. apply Forall_map. apply Forall_map. apply Forall_true.
    intros x. apply quantize_int16. }
  assert (List.length vs = List.length xs) as Hl
      by (unfold vs; now rewrite !length_map).
  exists (map (fun x => inject_Z (quantize (Num x)) * (1 / 32768))%Q xs).
  split; [|split].
  - exists {| Service.data := base64_encode (Uint8Array_of_Int16 vs);
              mimeType := jsstr "audio/pcm;rate=16000" |},
           (Uint8Array_of_Int16 vs).
    eexists. split; [apply createBlob_spec|]. cbn [Service.data].
    split; [apply decode_base64_encode, Uint8Array_of_Int16_bytes|].
    split.
    + apply decodeAudioData_mono.
      * unfold OUTPUT_AUDIO_SAMPLE_RATE, minSampleRate, maxSampleRate. lia.
      * rewrite Uint8Array_of_Int16_length, Nat.mul_comm.
        apply Nat.Div0.mod_mul.
      * rewrite Uint8Array_of_Int16_length, Nat.mul_comm, Nat.div_mul by lia.
        rewrite Hl. destruct xs; [contradiction|].
        cbn [List.length] in *. lia.
    + cbn [channels]. rewrite int16_view_bytes by exact Hvs.
      unfold vs. rewrite !map_map. reflexivity.
  - apply length_map.
  - unfold within_quantum. clear Hne Hlen vs Hvs Hl.
    induction Hxs as [|x xs [Hlo Hhi] _ IH]; [constructor|].
    cbn [map]. constructor; [|exact IH].
    apply (quantize_in_range x Hlo Hhi).
Qed.

Lemma round_trip_half_open_witness :
  [1 # 2; - (1); 0]%Q <> []
  /\ Z.of_nat (List.length [1 # 2; - (1); 0]%Q) < 2 ^ 32
  /\ round_trips [1 # 2; - (1); 0]%Q.
Proof.
  split; [discriminate|]. split; [reflexivity|].
  apply round_trip_half_open; [discriminate|reflexivity|].
  repeat constructor; discriminate.
Defined.

(** C1, the claim as stated fails at both ends: the sample 1.0 is in
    [-1, 1] but is stored as 32768, which wraps to -32768 and decodes to
    -1.0; and the empty frame is refused by [createBuffer]. *)
Lemma round_trip_fails_at_one :
  Forall (fun x => (-1 <= x)%Q /\ (x <= 1)%Q) [1%Q]
  /\ ~ round_trips [1%Q]
  /\ ~ round_trips [].
Proof.
  split; [repeat constructor; discriminate|]. split.
  - intros (ys & (blob & bytes & buffer & H1 & H2 & H3 & H4) & _ & Hq).
    vm_compute in H1. injection H1 as <-.
    vm_compute in H2. injection H2 as <-.
    vm_compute in H3. injection H3 as <-.
    cbn [channels] in H4.
    destruct ys as [|y [|y' ys]]; try discriminate.
    injection H4 as <-.
    inversion Hq as [|? ? ? ? Habs _]; subst.
    vm_compute in Habs. apply Habs. reflexivity.
  - intros (ys & (blob & bytes & buffer & H1 & H2 & H3 & H4) & _ & _).
    vm_compute in H1. injection H1 as <-.
    vm_compute in H2. injection H2 as <-.
    vm_compute in H3. discriminate.
Qed.

(** ** The WAV writer *)

Lemma for_loop_setUint8 (f : nat -> Z) (off count : nat) :
  forall start (done rest : list Z),
    List.length done = (off + start)%nat -> List.length rest = count ->
    for_loop start count
      (fun i r => view ← r; setUint8 view (off + i) (f i))
      (Ok (done ++ rest))
    = Ok (done ++ map (fun i => Z.land (f i) 255) (seq start count)).
Proof.
  induction count as [|count IH]; intros start done rest Hd Hr.
  - destruct rest; [|discriminate]. reflexivity.
  - destruct rest as [|x rest]; [discriminate|].
    cbn [for_loop mbind result_bind].
    assert (setUint8 (done ++ x :: rest) (off + start) (f start)
            = Ok ((done ++ [Z.land (f start) 255]) ++ rest)) as ->.
    { unfold setUint8. rewrite length_app. cbn [List.length].
      destruct (Nat.leb_spec (off + start + 1)
                  (List.length done + S (List.length rest))); [|lia].
      rewrite <- Hd.
      rewrite insert_app_r_alt by lia.
      rewrite Nat.sub_diag. cbn [insert list_insert].
      now rewrite <- app_assoc. }
    rewrite IH.
    + rewrite <- app_assoc. reflexivity.
    + rewrite length_app. cbn [List.length]. lia.
    + cbn [List.length] in Hr. lia.
Qed.

Lemma byte1 v : Z.land (Z.shiftr v 8) 255 = (v / 256) mod 256.
Proof. now rewrite land_255, Z.shiftr_div_pow2 by lia. Qed.

Lemma byte2 v : Z.land (Z.shiftr v 16) 255 = (v / 256 / 256) mod 256.
Proof.
  rewrite land_255, Z.shiftr_div_pow2, Z.div_div by lia. reflexivity.
Qed.

Lemma byte3 v : Z.land (Z.shiftr v 24) 255 = (v / 256 / 256 / 256) mod 256.
Proof.
  rewrite land_255, Z.shiftr_div_pow2, !Z.div_div by lia. reflexivity.
Qed.

Lemma copied_bytes (pcm : list Z) :
  Forall byte pcm ->
  map (fun i => Z.land (default 0 (pcm !! i)) 255) (seq 0 (List.length pcm))
  = pcm.
Proof.
  intros Hpcm.
  pose proof (map_seq_lookup (fun o => Z.land (default 0 o) 255) pcm O []
                eq_refl) as H.
  cbn [app] in H. rewrite H. clear H.
  induction Hpcm as [|b pcm Hb _ IH]; [reflexivity|].
  cbn [map]. rewrite IH. cbn [default from_option id].
  unfold byte in Hb. rewrite land_255, Z.mod_small by lia. reflexivity.
Qed.

Lemma convertPcmToWavBlob_layout (pcm : list Z) (rate channels : Z) :
  Forall byte pcm ->
  convertPcmToWavBlob pcm rate channels
  = Ok {| blobBytes := wav_file pcm rate channels;
          blobType := jsstr "audio/wav" |}.
Proof.
  intros Hpcm. unfold convertPcmToWavBlob, wav_file.
  change (jsstr "RIFF") with [82; 73; 70; 70].
  change (jsstr "WAVE") with [87; 65; 86; 69].
  change (jsstr "fmt ") with [102; 109; 116; 32].
  change (jsstr "data") with [100; 97; 116; 97].
  set (n := List.length pcm).
  set (copy := for_loop 0 n).
  cbn -[Z.add Z.sub Z.mul Z.div Z.modulo Z.land Z.shiftr Z.of_nat copy].
  subst copy.
  match goal with
  | |- context [for_loop 0 n _ (Ok ?v)] =>
      match v with
      | context C [replicate n 0] =>
          let hd := context C [@nil Z] in
          change v with (hd ++ replicate n 0)
      end
  end.
  erewrite (for_loop_setUint8 (fun i => default 0 (pcm !! i)) 44 n O);
    [|reflexivity|apply length_replicate].
  cbn [mbind result_bind]. unfold n. rewrite (copied_bytes pcm Hpcm).
  rewrite !byte1, !byte2, !byte3, !land_255.
  replace (Z.of_nat (List.length pcm) + Z.of_nat 44 - 8)
    with (Z.of_nat (List.length pcm) + 36) by lia.
  change (16 / 8) with 2.
  reflexivity.
Qed.

Lemma wav_file_fields (pcm : list Z) (rate channels : Z) :
  let bytes := wav_file pcm rate channels in
  List.length bytes = (44 + List.length pcm)%nat
  /\ take 4 bytes = jsstr "RIFF"
  /\ take 4 (drop 36 bytes) = jsstr "data"
  /\ drop 44 bytes = pcm
  /\ getUint32 bytes 4 = (Z.of_nat (List.length pcm) + 36) mod 2 ^ 32
  /\ getUint32 bytes 28 = (rate * channels * 2) mod 2 ^ 32
  /\ getUint16 bytes 32 = (channels * 2) mod 2 ^ 16
  /\ getUint32 bytes 40 = Z.of_nat (List.length pcm) mod 2 ^ 32.
Proof.
  unfold wav_file.
  change (jsstr "RIFF") with [82; 73; 70; 70].
  change (jsstr "WAVE") with [87; 65; 86; 69].
  change (jsstr "fmt ") with [102; 109; 116; 32].
  change (jsstr "data") with [100; 97; 116; 97].
  cbn [little_endian app]. cbv zeta.
  unfold getUint32, getUint16.
  cbn [List.length take drop lookup list_lookup default from_option id
       Nat.add].
  change (2 ^ 32) with 4294967296. change (2 ^ 16) with 65536.
  repeat split; Z.div_mod_to_equations; lia.
Qed.

(** C8: the 2-byte payload at 24000 Hz, mono, becomes a 46-byte file that
    starts with RIFF, has the data tag at bytes 36-39 and declares a data
    length of 2; and in general, as long as the values fit their fields, the
    RIFF size is the total length minus 8, the byte rate is
    sampleRate * numChannels * 2 and the block align numChannels * 2. *)
Theorem wav_header_exact :
  (forall b0 b1 : Z,
      byte b0 -> byte b1 ->
      exists blob,
        convertPcmToWavBlob [b0; b1] 24000 1 = Ok blob
        /\ List.length (blobBytes blob) = 46%nat
        /\ take 4 (blobBytes blob) = jsstr "RIFF"
        /\ take 4 (drop 36 (blobBytes blob)) = jsstr "data"
        /\ getUint32 (blobBytes blob) 40 = 2
        /\ getUint32 (blobBytes blob) 4 = 46 - 8
        /\ getUint32 (blobBytes blob) 28 = 24000 * 1 * 2
        /\ getUint16 (blobBytes blob) 32 = 1 * 2)
  /\ (forall (pcm : list Z) (rate channels : Z),
         Forall byte pcm ->
         Z.of_nat (List.length pcm) + 36 < 2 ^ 32 ->
         0 <= rate * channels * 2 < 2 ^ 32 ->
         0 <= channels * 2 < 2 ^ 16 ->
         exists blob,
           convertPcmToWavBlob pcm rate channels = Ok blob
           /\ List.length (blobBytes blob) = (44 + List.length pcm)%nat
           /\ take 4 (blobBytes blob) = jsstr "RIFF"
           /\ take 4 (drop 36 (blobBytes blob)) = jsstr "data"
           /\ drop 44 (blobBytes blob) = pcm
           /\ getUint32 (blobBytes blob) 40 = Z.of_nat (List.length pcm)
           /\ getUint32 (blobBytes blob) 4
              = Z.of_nat (List.length (blobBytes blob)) - 8
           /\ getUint32 (blobBytes blob) 28 = rate * channels * 2
           /\ getUint16 (blobBytes blob) 32 = channels * 2).
Proof.
  assert (forall (pcm : list Z) (rate channels : Z),
             Forall byte pcm ->
             Z.of_nat (List.length pcm) + 36 < 2 ^ 32 ->
             0 <= rate * channels * 2 < 2 ^ 32 ->
             0 <= channels * 2 < 2 ^ 16 ->
             exists blob,
               convertPcmToWavBlob pcm rate channels = Ok blob
               /\ List.length (blobBytes blob) = (44 + List.length pcm)%nat
               /\ take 4 (blobBytes blob) = jsstr "RIFF"
               /\ take 4 (drop 36 (blobBytes blob)) = jsstr "data"
               /\ drop 44 (blobBytes blob) = pcm
               /\ getUint32 (blobBytes blob) 40 = Z.of_nat (List.length pcm)
               /\ getUint32 (blobBytes blob) 4
                  = Z.of_nat (List.length (blobBytes blob)) - 8
               /\ getUint32 (blobBytes blob) 28 = rate * channels * 2
               /\ getUint16 (blobBytes blob) 32 = channels * 2) as General.
  { intros pcm rate channels Hpcm Hlen Hrate Halign.
    eexists. split; [apply (convertPcmToWavBlob_layout pcm rate channels Hpcm)|].
    cbn [blobBytes].
    destruct (wav_file_fields pcm rate channels)
      as (Hl & Hriff & Hdata & Hpayload & Hsize & Hbr & Hba & Hdl).
    rewrite Hl, Hsize, Hbr, Hba, Hdl.
    rewrite !Z.mod_small by lia.
    repeat split; try assumption; lia. }
  split; [|exact General].
  intros b0 b1 H0 H1.
  assert (Forall byte [b0; b1]) as Hp
      by (repeat (apply List.Forall_cons; [assumption|]); apply List.Forall_nil).
  destruct (General [b0; b1] 24000 1 Hp)
    as (blob & Hb & Hl & Hr & Hd & _ & Hdl & Hs & Hbr & Hba);
    [cbn; lia | lia | lia |].
  exists blob. rewrite Hs, Hl. repeat split; assumption.
Qed.

Lemma wav_header_exact_witness :
  (byte 7 /\ byte 9
   /\ exists blob,
       convertPcmToWavBlob [7; 9] 24000 1 = Ok blob
       /\ List.length (blobBytes blob) = 46%nat
       /\ take 4 (blobBytes blob) = jsstr "RIFF"
       /\ take 4 (drop 36 (blobBytes blob)) = jsstr "data"
       /\ getUint32 (blobBytes blob) 40 = 2
       /\ getUint32 (blobBytes blob) 4 = 46 - 8
       /\ getUint32 (blobBytes blob) 28 = 24000 * 1 * 2
       /\ getUint16 (blobBytes blob) 32 = 1 * 2)
  /\ (Forall byte [1; 2; 3; 4]
      /\ exists blob,
          convertPcmToWavBlob [1; 2; 3; 4] 44100 2 = Ok blob
          /\ getUint32 (blobBytes blob) 28 = 44100 * 2 * 2
          /\ getUint16 (blobBytes blob) 32 = 2 * 2).
Proof.
  split.
  - assert (byte 7) as H7 by (unfold byte; lia).
    assert (byte 9) as H9 by (unfold byte; lia).
    split; [exact H7|]. split; [exact H9|].
    exact (proj1 wav_header_exact 7 9 H7 H9).
  - assert (Forall byte [1; 2; 3; 4]) as Hb
        by (repeat (apply List.Forall_cons; [unfold byte; lia|]);
            apply List.Forall_nil).
    split; [exact Hb|].
    assert (Z.of_nat (List.length [1; 2; 3; 4]) + 36 < 2 ^ 32) as Hl
        by (cbn; lia).
    assert (0 <= 44100 * 2 * 2 < 2 ^ 32) as Hr by lia.
    assert (0 <= 2 * 2 < 2 ^ 16) as Ha by lia.
    destruct (proj2 wav_header_exact [1; 2; 3; 4] 44100 2 Hb Hl Hr Ha)
      as (blob & Hc & _ & _ & _ & _ & _ & _ & Hbr & Hba).
    exists blob. repeat split; assumption.
Defined.

(** ** Structured analysis *)

(** C9 (as amended): with a client and an answer from the endpoint, a
    response text that is not valid JSON (or is missing) does not fail the
    operation: the result has an empty [timeframes] and an [analysisText]
    made of the notice "Failed to parse structured analysis. Raw response: "
    followed by the raw text.  A text that is valid JSON is returned as
    parsed, whether or not it matches the schema. *)
Theorem analysis_degrades_on_syntax_error
    (API_KEY : option jsstring) (response : GenerateContentResponse) :
  getGeminiClient API_KEY = Ok tt ->
  (match text response with
   | Some t => throws (JSON_parse (trim t))
   | None => True
   end ->
   exists v,
     analyzeVideoTranscriptForInfo API_KEY (Ok response) = Ok v
     /\ get v (jsstr "timeframes") = Some (JArray [])
     /\ get v (jsstr "analysisText")
        = Some (JString
                  (jsstr "Failed to parse structured analysis. Raw response: "
                   ++ interpolate (text response))))
  /\ (forall t parsed,
         text response = Some t ->
         JSON_parse (trim t) = Ok parsed ->
         analyzeVideoTranscriptForInfo API_KEY (Ok response) = Ok parsed).
Proof.
  intros Hkey. unfold analyzeVideoTranscriptForInfo. rewrite Hkey.
  cbn [mbind result_bind]. split.
  - intros Hfail. exists (analysis_fallback (text response)). split.
    + destruct (text response) as [t|]; [|reflexivity].
      destruct Hfail as [e ->]. reflexivity.
    + split; reflexivity.
  - intros t parsed -> ->. reflexivity.
Qed.

Lemma analysis_degrades_on_syntax_error_witness :
  getGeminiClient (Some (jsstr "key")) = Ok tt
  /\ throws (JSON_parse (trim (jsstr "oops")))
  /\ (exists v,
         analyzeVideoTranscriptForInfo (Some (jsstr "key"))
           (Ok {| text := Some (jsstr "oops") |}) = Ok v
         /\ get v (jsstr "timeframes") = Some (JArray [])
         /\ get v (jsstr "analysisText")
            = Some (JString
                      (jsstr "Failed to parse structured analysis. Raw response: "
                       ++ jsstr "oops")))
  /\ analyzeVideoTranscriptForInfo (Some (jsstr "key"))
       (Ok {| text := Some (jsstr " [1, 2] ") |})
     = Ok (JArray [JNumber (jsstr "1"); JNumber (jsstr "2")]).
Proof.
  assert (throws (JSON_parse (trim (jsstr "oops")))) as Hthrows
      by (exists SyntaxError; reflexivity).
  split; [reflexivity|]. split; [exact Hthrows|]. split.
  - exact (proj1 (analysis_degrades_on_syntax_error (Some (jsstr "key"))
                    {| text := Some (jsstr "oops") |} eq_refl) Hthrows).
  - exact (proj2 (analysis_degrades_on_syntax_error (Some (jsstr "key"))
                    {| text := Some (jsstr " [1, 2] ") |} eq_refl)
             (jsstr " [1, 2] ") _ eq_refl eq_refl).
Defined.

(** C9, the claim as stated fails: for the text "oops" the [analysisText]
    returned is the notice followed by the text, not the text; and the text
    "42", valid JSON that does not match the schema, is returned as the
    number it denotes, with no [timeframes] at all. *)
Lemma analysis_text_is_not_raw :
  structured (jsstr "oops") = false
  /\ (forall v,
         analyzeVideoTranscriptForInfo (Some (jsstr "key"))
           (Ok {| text := Some (jsstr "oops") |}) = Ok v ->
         get v (jsstr "analysisText") <> Some (JString (jsstr "oops")))
  /\ structured (jsstr "42") = false
  /\ (forall v,
         analyzeVideoTranscriptForInfo (Some (jsstr "key"))
           (Ok {| text := Some (jsstr "42") |}) = Ok v ->
         get v (jsstr "timeframes") = None).
Proof.
  split; [reflexivity|]. split.
  - intros v H. vm_compute in H. injection H as <-. vm_compute. discriminate.
  - split; [reflexivity|].
    intros v H. vm_compute in H. injection H as <-. reflexivity.
Qed.

(** ** The live session: what each stage of the handler leaves alone *)

Lemma handleTranscription_frame message w :
  refs (handleTranscription message w) = refs w
  /\ effects (handleTranscription message w) = effects w
  /\ fresh (handleTranscription message w) = fresh w
  /\ callbacks (handleTranscription message w) = callbacks w
  /\ chatMessages (state (handleTranscription message w))
     = chatMessages (state w).
Proof.
  unfold handleTranscription.
  destruct (serverContent message) as [sc|]; [|repeat split].
  destruct (outputTranscription sc), (inputTranscription sc); repeat split.
Qed.

Lemma handleTurnComplete_frame c env message w :
  refs (handleTurnComplete c env message w) = refs w
  /\ effects (handleTurnComplete c env message w) = effects w
  /\ fresh (handleTurnComplete c env message w) = fresh w
  /\ callbacks (handleTurnComplete c env message w) = callbacks w.
Proof.
  unfold handleTurnComplete.
  destruct (serverContent message) as [sc|]; [|repeat split].
  destruct (turnComplete sc); [|repeat split].
  destruct (truthy (trim (capturedInput c))),
    (truthy (trim (capturedOutput c))); repeat split.
Qed.

Lemma handleInterrupted_skip message w :
  (forall sc, serverContent message = Some sc -> interrupted sc = false) ->
  handleInterrupted message w = Ok w.
Proof.
  intros H. unfold handleInterrupted.
  destruct (serverContent message) as [sc|]; [|reflexivity].
  now rewrite (H sc eq_refl).
Qed.

(** ** Enqueueing a decoded segment *)

Lemma Qle_bool_max (next now : Q) :
  (0 <= now)%Q -> Qle_bool 0 (Qmax next now) = true.
Proof.
  intros H. apply Qle_bool_iff.
  eapply Qle_trans; [exact H|]. apply Q.le_max_r.
Qed.

Lemma handleAudio_enqueue env b w ctx buffer :
  outputAudioContextRef (refs w) = Some ctx ->
  truthy b = true ->
  decodeChunk b = Ok buffer ->
  (0 <= currentTime env)%Q ->
  let startAt := Qmax (nextStartTimeRef (refs w)) (currentTime env) in
  let w' := handleAudio env (Some b) w in
  effects w' = effects w ++ [SourceStarted (fresh w) startAt buffer]
  /\ nextStartTimeRef (refs w') = fadd startAt (duration buffer)
  /\ playbackSourcesRef (refs w') = playbackSourcesRef (refs w) ∪ {[fresh w]}
  /\ outputAudioContextRef (refs w') = Some ctx
  /\ liveSessionRef (refs w') = liveSessionRef (refs w)
  /\ state w' = state w
  /\ fresh w' = S (fresh w)
  /\ callbacks w' = callbacks w.
Proof.
  intros Hctx Hb Hdec Hnow startAt w'. subst w' startAt.
  unfold handleAudio. rewrite Hctx, Hb. unfold enqueue_try.
  unfold decodeChunk in Hdec.
  destruct w as [st rf ef fr cb]. destruct rf.
  cbn -[Qmax Qle_bool Qplus fadd duration decode decodeAudioData] in *.
  rewrite Hdec.
  cbn -[Qmax Qle_bool Qplus fadd duration]. unfold start_source.
  rewrite (Qle_bool_max _ _ Hnow).
  cbn -[Qmax Qle_bool Qplus fadd duration].
  repeat split; try reflexivity. exact Hctx.
Qed.

Lemma handleAudio_dropped env b w ctx e :
  outputAudioContextRef (refs w) = Some ctx ->
  truthy b = true ->
  decodeChunk b = Throw e ->
  handleAudio env (Some b) w
  = emit ConsoleError
      (set_nextStartTimeRef
         (Qmax (nextStartTimeRef (refs w)) (currentTime env)) w).
Proof.
  intros Hctx Hb Hdec. unfold handleAudio. rewrite Hctx, Hb.
  unfold enqueue_try. unfold decodeChunk in Hdec.
  now rewrite Hdec.
Qed.

(** The handler on a message that carries audio and no interruption. *)
Lemma handleLiveMessage_audio c env message b w ctx buffer :
  carries_audio message b ->
  outputAudioContextRef (refs w) = Some ctx ->
  decodeChunk b = Ok buffer ->
  (0 <= currentTime env)%Q ->
  let startAt := Qmax (nextStartTimeRef (refs w)) (currentTime env) in
  exists w',
    handleLiveMessage c env message w = Ok w'
    /\ effects w' = effects w ++ [SourceStarted (fresh w) startAt buffer]
    /\ nextStartTimeRef (refs w') = fadd startAt (duration buffer)
    /\ playbackSourcesRef (refs w')
       = playbackSourcesRef (refs w) ∪ {[fresh w]}
    /\ outputAudioContextRef (refs w') = Some ctx
    /\ liveSessionRef (refs w') = liveSessionRef (refs w)
    /\ fresh w' = S (fresh w).
Proof.
  intros (Haudio & Hb & Hint) Hctx Hdec Hnow startAt.
  unfold handleLiveMessage. rewrite Haudio. cbn [mbind result_bind].
  rewrite (handleInterrupted_skip _ _ Hint).
  eexists. split; [reflexivity|].
  destruct (handleAudio_enqueue env b w ctx buffer Hctx Hb Hdec Hnow)
    as (He & Hn & Hs & Ho & Hl & _ & Hf & _).
  set (w1 := handleAudio env (Some b) w) in *.
  destruct (handleTranscription_frame message w1) as (Hr1 & He1 & Hf1 & _).
  set (w2 := handleTranscription message w1) in *.
  destruct (handleTurnComplete_frame c env message w2) as (Hr2 & He2 & Hf2 & _).
  rewrite Hr2, He2, Hf2, Hr1, He1, Hf1.
  repeat split; assumption.
Qed.

(** ** Stopping sources *)

Lemma started_emit s e w : started s w = true -> started s (emit e w) = true.
Proof.
  unfold started. cbn [effects emit]. rewrite existsb_app.
  intros ->. reflexivity.
Qed.

Lemma started_effects s w w' :
  (exists l, effects w' = effects w ++ l) ->
  started s w = true -> started s w' = true.
Proof.
  intros [l Hl]. unfold started. rewrite Hl, existsb_app.
  intros ->. reflexivity.
Qed.

Lemma started_mono s w w' :
  effects w ⊆ effects w' -> started s w = true -> started s w' = true.
Proof.
  unfold started. intros Hsub H.
  apply existsb_exists in H as (e & He & Hmatch).
  apply existsb_exists. exists e. split; [|exact Hmatch].
  apply list_elem_of_In, Hsub, list_elem_of_In, He.
Qed.

Lemma started_SourceStarted s when buffer w :
  started s (emit (SourceStarted s when buffer) w) = true.
Proof.
  unfold started. cbn [effects emit]. rewrite existsb_app.
  cbn [existsb]. rewrite Nat.eqb_refl. apply orb_true_iff. right. reflexivity.
Qed.

(** The loop of the interruption branch stops and removes every source. *)
Lemma interruption_loop (l : list nat) :
  forall w,
    (forall s, s ∈ l -> started s w = true) ->
    fold_left
      (fun r source =>
         w ← r;
         w ← stop_source source w;
         Ok (set_playbackSources (fun s => s ∖ {[source]}) w))
      l (Ok w)
    = Ok (set_playbackSources (fun s => s ∖ list_to_set l)
            (emit_all (map SourceStopped l) w)).
Proof.
  induction l as [|a l IH]; intros w Hstarted.
  - cbn [fold_left list_to_set map]. f_equal.
    destruct w as [st rf ef fr cb]. destruct rf.
    unfold set_playbackSources, with_refs, emit_all. cbn.
    rewrite app_nil_r. do 2 f_equal. set_solver.
  - cbn [fold_left mbind result_bind]. unfold stop_source at 2.
    rewrite (Hstarted a) by set_solver. cbn [mbind result_bind].
    rewrite IH.
    + f_equal. destruct w as [st rf ef fr cb]. destruct rf.
      unfold set_playbackSources, with_refs, emit_all, emit. cbn.
      rewrite <- app_assoc. cbn [app]. do 2 f_equal. set_solver.
    + intros s Hs. apply started_effects with (w := w).
      * exists [SourceStopped a]. reflexivity.
      * apply Hstarted. set_solver.
Qed.

(** The loop of [stopRecording] stops every source and removes none. *)
Lemma stopping_loop (l : list nat) :
  forall w,
    (forall s, s ∈ l -> started s w = true) ->
    fold_left (fun r source => w ← r; stop_source source w) l (Ok w)
    = Ok (emit_all (map SourceStopped l) w).
Proof.
  induction l as [|a l IH]; intros w Hstarted.
  - cbn [fold_left map]. f_equal. destruct w. unfold emit_all. cbn.
    now rewrite app_nil_r.
  - cbn [fold_left mbind result_bind]. unfold stop_source at 2.
    rewrite (Hstarted a) by set_solver. rewrite IH.
    + f_equal. destruct w. unfold emit_all, emit. cbn.
      now rewrite <- app_assoc.
    + intros s Hs. apply started_emit, Hstarted. set_solver.
Qed.

(** ** Invariants of the component *)

Lemma invariant_initial : invariant initial.
Proof.
  split.
  - intros s Hs. cbn in Hs. set_solver.
  - intros _. split; reflexivity.
Qed.

(** A change of the [useState] cells alone keeps the invariants. *)
Lemma invariant_with_state f w : invariant w -> invariant (with_state f w).
Proof. intros H. exact H. Qed.

Lemma invariant_same w w' :
  refs w' = refs w -> (exists l, effects w' = effects w ++ l) ->
  invariant w -> invariant w'.
Proof.
  intros Hr He [Hs Hi]. split.
  - intros s Hin. rewrite Hr in Hin.
    apply (started_effects s w w' He). apply Hs, Hin.
  - unfold idle_without_output. rewrite Hr. exact Hi.
Qed.

Lemma invariant_handleAudio env a w :
  invariant w -> invariant (handleAudio env a w).
Proof.
  intros Hinv. unfold handleAudio.
  destruct a as [b|]; [|exact Hinv].
  destruct (outputAudioContextRef (refs w)) as [ctx|] eqn:Hctx; [|exact Hinv].
  destruct (truthy b); [|exact Hinv].
  unfold enqueue_try.
  assert (forall v e, invariant (emit e (set_nextStartTimeRef v w))) as Hdrop.
  { intros v e. destruct Hinv as [Hs Hi]. split.
    - intros s Hin. apply (started_effects s w); [now exists [e]|].
      apply Hs. exact Hin.
    - intros Hnone. cbn in Hnone. congruence. }
  destruct (decode b ≫= _) as [buffer|e]; [|apply Hdrop].
  unfold start_source.
  set (w1 := set_nextStartTimeRef _ w).
  cbn [create fst snd].
  destruct (Qle_bool 0 _).
  - destruct Hinv as [Hs Hi]. split.
    + intros s Hin. cbn -[Qmax Qplus fadd duration] in Hin.
      apply elem_of_union in Hin as [Hin|Hin].
      * apply (started_effects s w); [|apply Hs, Hin].
        eexists. reflexivity.
      * apply elem_of_singleton in Hin as ->. unfold started.
        cbn [effects emit set_playbackSources set_nextStartTimeRef with_refs].
        rewrite existsb_app. cbn [existsb].
        unfold w1. cbn [fresh set_nextStartTimeRef with_refs].
        rewrite Nat.eqb_refl. apply orb_true_iff. right. reflexivity.
    + intros Hnone. cbn in Hnone. congruence.
  - destruct Hinv as [Hs Hi]. split.
    + intros s Hin. apply (started_effects s w); [|apply Hs, Hin].
      eexists. reflexivity.
    + intros Hnone. cbn in Hnone. congruence.
Qed.

Lemma invariant_handleTranscription message w :
  invariant w -> invariant (handleTranscription message w).
Proof.
  destruct (handleTranscription_frame message w) as (Hr & He & _).
  apply invariant_same; [exact Hr|]. exists []. now rewrite app_nil_r.
Qed.

Lemma invariant_handleTurnComplete c env message w :
  invariant w -> invariant (handleTurnComplete c env message w).
Proof.
  destruct (handleTurnComplete_frame c env message w) as (Hr & He & _).
  apply invariant_same; [exact Hr|]. exists []. now rewrite app_nil_r.
Qed.

(** With the invariants, the interruption branch does not throw. *)
Lemma handleInterrupted_run message w sc :
  sources_started w ->
  serverContent message = Some sc -> interrupted sc = true ->
  handleInterrupted message w
  = Ok (clearCurrentTranscriptions
          (set_nextStartTimeRef 0%Q
             (set_playbackSources
                (fun s => s ∖ list_to_set (elements (playbackSourcesRef (refs w))))
                (emit_all
                   (map SourceStopped (elements (playbackSourcesRef (refs w))))
                   w)))).
Proof.
  intros Hs Hsc Hint. unfold handleInterrupted. rewrite Hsc, Hint.
  rewrite interruption_loop; [reflexivity|].
  intros s Hin. apply Hs. now apply elem_of_elements.
Qed.

Lemma invariant_handleInterrupted message w w' :
  invariant w -> handleInterrupted message w = Ok w' -> invariant w'.
Proof.
  intros Hinv Hrun.
  destruct (serverContent message) as [sc|] eqn:Hsc.
  - destruct (interrupted sc) eqn:Hint.
    + rewrite (handleInterrupted_run message w sc (proj1 Hinv) Hsc Hint)
        in Hrun.
      injection Hrun as <-. split.
      * intros s Hin. cbn in Hin. set_solver.
      * intros _. cbn. split; [set_solver|reflexivity].
    + unfold handleInterrupted in Hrun. rewrite Hsc, Hint in Hrun.
      now injection Hrun as <-.
  - unfold handleInterrupted in Hrun. rewrite Hsc in Hrun.
    now injection Hrun as <-.
Qed.

Lemma invariant_handleLiveMessage c env message w w' :
  invariant w -> handleLiveMessage c env message w = Ok w' -> invariant w'.
Proof.
  intros Hinv. unfold handleLiveMessage.
  destruct (audioOf message) as [a|e]; [|discriminate].
  cbn [mbind result_bind]. apply invariant_handleInterrupted.
  apply invariant_handleTurnComplete, invariant_handleTranscription,
    invariant_handleAudio, Hinv.
Qed.

(** ** Teardown *)

Lemma stopped_in_effects (s : nat) (sources : gset nat) :
  s ∈ sources -> SourceStopped s ∈ map SourceStopped (elements sources).
Proof.
  intros Hs.
  apply list_elem_of_In, in_map, list_elem_of_In, elem_of_elements, Hs.
Qed.

Ltac world_values :=
  cbv beta iota zeta delta
    [stopRecording torn_down releases emit_all
     state refs effects fresh callbacks
     audioContextRef outputAudioContextRef scriptProcessorRef
     mediaStreamSourceRef liveSessionRef mediaStreamRef nextStartTimeRef
     playbackSourcesRef
     isRecording chatMessages currentInputTranscription
     currentOutputTranscription isLoading error
     set_audioContextRef set_outputAudioContextRef set_scriptProcessorRef
     set_mediaStreamSourceRef set_liveSessionRef set_mediaStreamRef
     set_nextStartTimeRef set_playbackSources setIsLoading setIsRecording
     emit with_state with_refs option_list fmap option_fmap option_map].

(** [stopRecording] where every source of the playback set was started. *)
Lemma stopRecording_torn_down (w : World) :
  sources_started w -> stopRecording w = Ok (torn_down w).
Proof.
  intros Hs.
  destruct w as [st rf ef fr cb].
  destruct rf as [a o sp ms ls mst nx ps]. destruct st.
  unfold sources_started in Hs. cbn [refs playbackSourcesRef] in Hs.
  destruct o as [ctx|].
  - destruct mst as [h1|], ms as [h2|], sp as [h3|], a as [h4|], ls as [h6|];
      world_values;
      (rewrite stopping_loop;
       [|intros s Hin; apply elem_of_elements in Hin;
         eapply started_mono; [|apply Hs, Hin];
         cbv beta iota delta [effects]; clear; set_solver]);
      cbv beta iota zeta delta [mbind result_bind]; world_values;
      rewrite <- ?app_assoc; reflexivity.
  - destruct mst as [h1|], ms as [h2|], sp as [h3|], a as [h4|], ls as [h6|];
      world_values; cbv beta iota zeta delta [mbind result_bind];
      rewrite <- ?app_assoc, ?app_nil_r; reflexivity.
Qed.

Lemma torn_down_released w : idle_without_output w -> released (torn_down w).
Proof.
  intros Hi. unfold released, torn_down. cbn.
  destruct (outputAudioContextRef (refs w)) as [ctx|] eqn:Ho.
  - repeat split.
  - destruct (Hi Ho) as [-> ->]. repeat split.
Qed.

Lemma option_list_here {A} (x : A) : x ∈ option_list (Some x).
Proof. constructor. Qed.

Lemma torn_down_gave_back w : gave_back w (torn_down w).
Proof.
  unfold gave_back, torn_down, releases. cbn [effects].
  split; [|split; [|split; [|split; [|split]]]].
  - intros h Hh. rewrite Hh. pose proof (option_list_here (TracksStopped h)).
    rewrite ?elem_of_app. tauto.
  - intros h Hh. rewrite Hh. pose proof (option_list_here (Disconnected h)).
    rewrite ?elem_of_app. tauto.
  - intros h Hh. rewrite Hh. pose proof (option_list_here (Disconnected h)).
    rewrite ?elem_of_app. tauto.
  - intros h Hh. rewrite Hh. pose proof (option_list_here (ContextClosed h)).
    rewrite ?elem_of_app. tauto.
  - intros h Hh. rewrite Hh. split.
    + pose proof (option_list_here (ContextClosed h)) as H.
      change (option_list (Some (ContextClosed h))) with [ContextClosed h] in H.
      rewrite ?elem_of_app. tauto.
    + intros s Hin. apply stopped_in_effects in Hin.
      rewrite ?elem_of_app. tauto.
  - intros h Hh. rewrite Hh. pose proof (option_list_here (SessionClosed h)).
    rewrite ?elem_of_app. tauto.
Qed.

Lemma torn_down_again w :
  idle_without_output w -> torn_down (torn_down w) = torn_down w.
Proof.
  intros Hi. unfold torn_down at 1. unfold releases. cbn.
  rewrite app_nil_r. reflexivity.
Qed.

(** [stopRecording] in a world that satisfies the invariants. *)
Lemma stopRecording_run (w : World) :
  invariant w ->
  exists w',
    stopRecording w = Ok w'
    /\ released w'
    /\ gave_back w w'
    /\ stopRecording w' = Ok w'
    /\ invariant w'
    /\ callbacks w' = callbacks w.
Proof.
  intros [Hs Hi]. exists (torn_down w).
  pose proof (torn_down_released w Hi) as Hrel.
  assert (invariant (torn_down w)) as Hinv.
  { split.
    - intros s Hin. destruct Hrel as (_ & _ & _ & _ & _ & _ & Hp & _).
      rewrite Hp in Hin. set_solver.
    - intros _. destruct Hrel as (_ & _ & _ & _ & _ & _ & Hp & Hn).
      split; assumption. }
  split; [apply stopRecording_torn_down, Hs|].
  split; [exact Hrel|]. split; [apply torn_down_gave_back|].
  split.
  - rewrite (stopRecording_torn_down _ (proj1 Hinv)).
    f_equal. apply torn_down_again, Hi.
  - split; [exact Hinv|reflexivity].
Qed.

Lemma invariant_startRecording c o w :
  invariant w -> invariant (startRecording c o w).
Proof.
  intros [Hs Hi].
  destruct w as [st rf ef fr cb].
  destruct rf as [a oc sp ms ls mst nx ps]. destruct st.
  unfold idle_without_output, sources_started in *.
  cbn [refs playbackSourcesRef outputAudioContextRef nextStartTimeRef] in *.
  destruct o as [m|m|m|m|]; unfold startRecording; cbn;
    try destruct mst as [h|];
    (split;
     [ intros s Hin; cbn in Hin;
       eapply started_mono; [|apply Hs, Hin]; cbn [effects]; set_solver
     | intros Hnone; cbn in Hnone; try discriminate; apply Hi, Hnone ]).
Qed.

Lemma invariant_sourceEnded source w :
  invariant w -> invariant (sourceEnded source w).
Proof.
  intros [Hs Hi]. split.
  - intros s Hin. cbn in Hin.
    apply (started_mono s w); [cbn; set_solver|]. apply Hs. set_solver.
  - intros Hnone. cbn in Hnone. destruct (Hi Hnone) as [Hp Hn].
    cbn. rewrite Hp, Hn. split; [set_solver|reflexivity].
Qed.

Lemma invariant_stopRecording w w' :
  invariant w -> stopRecording w = Ok w' -> invariant w'.
Proof.
  intros Hinv Hrun.
  destruct (stopRecording_run w Hinv) as (w1 & H1 & _ & _ & _ & Hinv1 & _).
  congruence.
Qed.

Lemma invariant_emit e w : invariant w -> invariant (emit e w).
Proof. apply invariant_same; [reflexivity|]. now exists [e]. Qed.

Lemma invariant_step w w' : invariant w -> step w w' -> invariant w'.
Proof.
  intros Hinv Hstep. destruct Hstep as
    [w o|w w' H|w session env message w' H|w source|w message w' H
    |w session c wasClean reason w' Hc H].
  - apply invariant_startRecording, Hinv.
  - apply (invariant_stopRecording w w' Hinv H).
  - unfold onmessage in H. destruct (callbacks w !! session) as [c|].
    + apply (invariant_handleLiveMessage c env message w w' Hinv H).
    + now injection H as <-.
  - apply invariant_sourceEnded, Hinv.
  - unfold onerror in H.
    apply (invariant_stopRecording _ w'
             (invariant_with_state _ _ (invariant_emit ConsoleError w Hinv))
             H).
  - unfold onclose in H.
    assert (invariant (if wasClean then w
                       else setError
                              (Some (jsstr "Live session closed unexpectedly: "
                                     ++ or_else reason (jsstr "Unknown reason")
                                     ++ jsstr ".")) w)) as Hinv'
        by (destruct wasClean; [exact Hinv|apply invariant_with_state, Hinv]).
    destruct (capturedIsRecording c).
    + apply (invariant_stopRecording _ w' Hinv' H).
    + now injection H as <-.
Qed.

Lemma reachable_invariant w : reachable w -> invariant w.
Proof.
  induction 1 as [|w w' _ IH Hstep]; [apply invariant_initial|].
  apply (invariant_step w w' IH Hstep).
Qed.

(** What the audio branch never touches. *)
Lemma handleAudio_frame env a w :
  let w' := handleAudio env a w in
  state w' = state w
  /\ callbacks w' = callbacks w
  /\ outputAudioContextRef (refs w') = outputAudioContextRef (refs w)
  /\ liveSessionRef (refs w') = liveSessionRef (refs w)
  /\ playbackSourcesRef (refs w) ⊆ playbackSourcesRef (refs w')
  /\ effects w ⊆ effects w'.
Proof.
  cbn zeta. unfold handleAudio.
  destruct a as [b|]; [|repeat split; set_solver].
  destruct (outputAudioContextRef (refs w)) as [ctx|] eqn:Hctx;
    [|repeat split; set_solver].
  destruct (truthy b); [|repeat split; try set_solver; congruence].
  unfold enqueue_try.
  destruct (decode b ≫= _) as [buffer|e].
  - unfold start_source. cbn [create fst snd].
    destruct (Qle_bool 0 _); cbn -[Qmax Qplus fadd duration];
      repeat split; try set_solver; congruence.
  - cbn -[Qmax]. repeat split; try set_solver; congruence.
Qed.

(** ** Gapless scheduling *)

Lemma Qmax_left (x y : Q) : (y <= x)%Q -> Qmax x y = x.
Proof.
  intros H. unfold Qmax, GenericMinMax.gmax.
  destruct (x ?= y)%Q eqn:E; try reflexivity.
  apply Qlt_alt in E. lra.
Qed.

(** ** Double precision *)

Lemma round_half_even_nearest (q : Q) :
  (Qabs (inject_Z (round_half_even q) - q) <= 1 # 2)%Q.
Proof.
  unfold round_half_even.
  pose proof (Qfloor_le q) as Hlo. pose proof (Qlt_floor q) as Hhi.
  set (f := Qfloor q) in *.
  rewrite inject_Z_plus in Hhi. change (inject_Z 1) with 1%Q in Hhi.
  assert (forall x : Q, (- (1 # 2) <= x)%Q -> (x <= 1 # 2)%Q ->
                        (Qabs x <= 1 # 2)%Q) as Habs.
  { intros x H1 H2. apply Qabs_Qle_condition. split; assumption. }
  destruct (q - inject_Z f ?= 1 # 2)%Q eqn:E.
  - apply Qeq_alt in E.
    destruct (Z.even f); [|rewrite inject_Z_plus; change (inject_Z 1) with 1%Q];
      apply Habs; lra.
  - apply Qlt_alt in E. apply Habs; lra.
  - apply Qgt_alt in E. rewrite inject_Z_plus. change (inject_Z 1) with 1%Q.
    apply Habs; lra.
Qed.

Lemma Qpower_2_pos (e : Z) : (0 < 2 ^ e)%Q.
Proof. apply Qpower_0_lt. reflexivity. Qed.

(** The rounding error is at most half a step of the grid. *)
Lemma nearest64_error (q : Q) :
  let e := Z.max (floor_log2 q - 52) (- 1074) in
  (Qabs (nearest64 q - q) <= (1 # 2) * 2 ^ e)%Q.
Proof.
  cbn zeta. unfold nearest64.
  set (e := Z.max (floor_log2 q - 52) (- 1074)).
  pose proof (Qpower_2_pos e) as Hp.
  pose proof (round_half_even_nearest (q / 2 ^ e)) as H.
  set (n := inject_Z (round_half_even (q / 2 ^ e))) in *.
  assert (n * 2 ^ e - q == (n - q / 2 ^ e) * 2 ^ e)%Q as ->.
  { field. lra. }
  rewrite Qabs_Qmult, (Qabs_pos (2 ^ e)) by lra.
  apply Qmult_le_compat_r; [exact H|lra].
Qed.

Lemma Qpower_2_inject (n : Z) : 0 <= n -> (inject_Z (2 ^ n) == 2 ^ n)%Q.
Proof. intros Hn. rewrite Zpower_Qpower by exact Hn. reflexivity. Qed.

Lemma Qpower_2_succ (k : Z) : (2 ^ (k + 1) == 2 * 2 ^ k)%Q.
Proof.
  rewrite Qpower_plus by (intros H; discriminate H).
  change (2 ^ 1)%Q with 2%Q. ring.
Qed.

Lemma Qpower_2_minus (a b : Z) : (2 ^ (a - b) == 2 ^ a / 2 ^ b)%Q.
Proof.
  unfold Z.sub. rewrite Qpower_plus by (intros H; discriminate H).
  rewrite Qpower_opp. reflexivity.
Qed.

(** [floor_log2] is the exponent of the leading bit. *)
Lemma floor_log2_spec (q : Q) :
  (0 < q)%Q ->
  (2 ^ floor_log2 q <= q)%Q /\ (q < 2 ^ (floor_log2 q + 1))%Q.
Proof.
  intros Hq. unfold floor_log2.
  destruct q as [num den]. cbn [Qnum Qden].
  assert (0 < num) as Hnum.
  { unfold Qlt in Hq. cbn in Hq. lia. }
  destruct (Z.log2_spec num Hnum) as [Ha1 Ha2].
  destruct (Z.log2_spec (Z.pos den) (Pos2Z.is_pos den)) as [Hb1 Hb2].
  pose proof (Z.log2_nonneg num) as Ha0.
  pose proof (Z.log2_nonneg (Z.pos den)) as Hb0.
  set (a := Z.log2 num) in *. set (b := Z.log2 (Z.pos den)) in *.
  assert (num # den == inject_Z num / inject_Z (Z.pos den))%Q as Hdiv
    by apply Qmake_Qdiv.
  assert (0 < inject_Z (Z.pos den))%Q as Hden.
  { change 0%Q with (inject_Z 0). rewrite <- Zlt_Qlt. lia. }
  assert (2 ^ a <= inject_Z num)%Q as Qa1.
  { rewrite <- Qpower_2_inject by lia. rewrite <- Zle_Qle. exact Ha1. }
  assert (inject_Z num < 2 * 2 ^ a)%Q as Qa2.
  { rewrite <- Qpower_2_succ, <- Qpower_2_inject by lia.
    rewrite <- Zlt_Qlt. exact Ha2. }
  assert (2 ^ b <= inject_Z (Z.pos den))%Q as Qb1.
  { rewrite <- Qpower_2_inject by lia. rewrite <- Zle_Qle. exact Hb1. }
  assert (inject_Z (Z.pos den) < 2 * 2 ^ b)%Q as Qb2.
  { rewrite <- Qpower_2_succ, <- Qpower_2_inject by lia.
    rewrite <- Zlt_Qlt. exact Hb2. }
  pose proof (Qpower_2_pos a) as Pa. pose proof (Qpower_2_pos b) as Pb.
  assert (2 ^ (a - b) * 2 ^ b == 2 ^ a)%Q as Hk.
  { rewrite Qpower_2_minus. field. lra. }
  pose proof (Qpower_2_pos (a - b)) as Pk.
  set (x := inject_Z num) in *. set (y := inject_Z (Z.pos den)) in *.
  set (A := (2 ^ a)%Q) in *. set (B := (2 ^ b)%Q) in *.
  set (K := (2 ^ (a - b))%Q) in *.
  assert (num # den == x / y)%Q as Hdiv' by exact Hdiv.
  assert (2 ^ (a - b + 1) == 2 * K)%Q as Hup by apply Qpower_2_succ.
  assert (2 ^ (a - b - 1) == K / 2)%Q as Hdown
    by (rewrite (Qpower_2_minus (a - b) 1); reflexivity).
  assert (2 ^ (a - b) == K)%Q as HK by reflexivity.
  clearbody x y A B K.
  assert (K * B <= K * y)%Q as Hm1
    by (apply Qmult_le_l; assumption).
  assert (K * y < K * (2 * B))%Q as Hm2
    by (apply Qmult_lt_l; assumption).
  assert (x / y < 2 * K)%Q as Hupper.
  { apply Qlt_shift_div_r; [exact Hden|].
    apply Qlt_le_trans with (2 * A)%Q; [exact Qa2|].
    rewrite <- Hk, <- Qmult_assoc.
    apply Qmult_le_l; [reflexivity|exact Hm1]. }
  assert (K / 2 < x / y)%Q as Hlower.
  { apply Qlt_shift_div_l; [exact Hden|].
    apply Qlt_le_trans with A; [|exact Qa1].
    rewrite <- Hk.
    assert (K / 2 * y == (1 # 2) * (K * y))%Q as -> by field.
    assert (K * B == (1 # 2) * (K * (2 * B)))%Q as -> by ring.
    apply Qmult_lt_l; [reflexivity|exact Hm2]. }
  destruct (Qle_bool K (num # den)) eqn:E.
  - apply Qle_bool_iff in E. rewrite HK, Hup, Hdiv'.
    split; [rewrite <- Hdiv'; exact E|exact Hupper].
  - assert (~ (K <= num # den)%Q) as Hn.
    { intros H. apply Qle_bool_iff in H. congruence. }
    apply Qnot_le_lt in Hn.
    replace (a - b - 1 + 1) with (a - b) by lia.
    rewrite HK, Hdown, Hdiv'.
    split; [|rewrite <- Hdiv'; exact Hn]. lra.
Qed.

Lemma round_half_even_bounds (x : Q) (N : Z) :
  (0 <= x)%Q -> (x <= inject_Z N)%Q -> 0 <= round_half_even x <= N.
Proof.
  intros H0 HN. unfold round_half_even.
  pose proof (Qfloor_le x) as Hlo.
  assert (0 <= Qfloor x) as Hf0.
  { change 0 with (Qfloor (inject_Z 0)). apply Qfloor_resp_le. exact H0. }
  assert (Qfloor x <= N) as HfN.
  { rewrite <- (Qfloor_Z N). apply Qfloor_resp_le. exact HN. }
  set (f := Qfloor x) in *.
  assert ((0 < x - inject_Z f)%Q -> f + 1 <= N) as Hstep.
  { intros Hpos. enough (f < N) by lia.
    rewrite Zlt_Qlt. lra. }
  destruct (x - inject_Z f ?= 1 # 2)%Q eqn:E.
  - apply Qeq_alt in E. destruct (Z.even f); [lia|].
    split; [lia|]. apply Hstep. lra.
  - lia.
  - apply Qgt_alt in E. split; [lia|]. apply Hstep. lra.
Qed.

Lemma nearest64_double (q : Q) : (0 < q)%Q -> double (nearest64 q).
Proof.
  intros Hq. unfold nearest64.
  destruct (floor_log2_spec q Hq) as [_ Hhi].
  set (e := Z.max (floor_log2 q - 52) (- 1074)) in *.
  pose proof (Qpower_2_pos e) as Hp.
  exists (round_half_even (q / 2 ^ e)), e.
  split; [|split; [lia|reflexivity]].
  assert (q / 2 ^ e <= inject_Z (2 ^ 53))%Q as Hb.
  { apply Qle_shift_div_r; [exact Hp|].
    rewrite Qpower_2_inject by lia.
    rewrite <- Qpower_plus by (intros H; discriminate H).
    apply Qlt_le_weak. eapply Qlt_le_trans; [exact Hhi|].
    apply Qpower_le_compat_l; [lia|]. intros H. discriminate H. }
  assert (0 <= q / 2 ^ e)%Q as H0.
  { apply Qle_shift_div_l; [exact Hp|]. lra. }
  pose proof (round_half_even_bounds _ _ H0 Hb). lia.
Qed.

(** [round64] yields a double. *)
Lemma round64_double (q : Q) : double (round64 q).
Proof.
  unfold round64. destruct (q ?= 0)%Q eqn:E.
  - exists 0, 0. split; [cbn; lia|]. split; [lia|reflexivity].
  - apply Qlt_alt in E.
    assert (0 < - q)%Q as Hq by lra.
    destruct (nearest64_double (- q) Hq) as (m & e & Hm & He & Heq).
    exists (- m), e. split; [lia|]. split; [exact He|].
    rewrite Heq, inject_Z_opp. ring.
  - apply Qgt_alt in E. apply nearest64_double. exact E.
Qed.

(** The rounding at work: a tenth is not a double, and a sum accumulated
    by two additions is not the exact sum rounded once. *)
Lemma round64_tenth :
  (round64 (1 # 10) == 3602879701896397 # 36028797018963968)%Q.
Proof. vm_compute. reflexivity. Qed.

Lemma round64_of_double :
  round64 (3602879701896397 # 36028797018963968)
  = round64 (round64 (3602879701896397 # 36028797018963968)).
Proof. vm_compute. reflexivity. Qed.

Lemma round64_ties_to_even :
  (round64 (inject_Z (2 ^ 53 + 1)) == inject_Z (2 ^ 53))%Q
  /\ (round64 (inject_Z (2 ^ 53 + 3)) == inject_Z (2 ^ 53 + 4))%Q
  /\ (round64 (- (3 # 2) * 2 ^ (- 1074)) == - (2 * 2 ^ (- 1074)))%Q
  /\ (round64 ((1 # 2) * 2 ^ (- 1074)) == 0)%Q.
Proof. repeat split; vm_compute; reflexivity. Qed.

Lemma accumulated_sum_is_rounded_twice :
  let s := round64 (2432 # 24000) in
  let d := round64 (2 # 24000) in
  ~ (fadd (fadd s d) d == round64 (s + d + d))%Q.
Proof. vm_compute. intros H. discriminate H. Qed.

(** C2: every enqueue starts the segment at max(nextStartTime, currentTime)
    and advances nextStartTime by the duration of the segment, with the
    addition the code performs, on doubles; hence three segments, each
    arriving before its predecessor has finished playing, start at s1,
    s1 + d1 and (s1 + d1) + d2, the sums computed from left to right as
    the code accumulates them, whatever their arrival times.  The sums
    are taken below the overflow threshold of the doubles. *)
Theorem gapless_scheduling :
  (forall c env message b w ctx buffer,
      carries_audio message b ->
      outputAudioContextRef (refs w) = Some ctx ->
      decodeChunk b = Ok buffer ->
      (0 <= currentTime env)%Q ->
      let startAt := Qmax (nextStartTimeRef (refs w)) (currentTime env) in
      overflows (startAt + duration buffer) = false ->
      exists w',
        handleLiveMessage c env message w = Ok w'
        /\ effects w'
           = effects w ++ [SourceStarted (fresh w) startAt buffer]
        /\ nextStartTimeRef (refs w') = fadd startAt (duration buffer))
  /\ (forall c1 c2 c3 e1 e2 e3 m1 m2 m3 b1 b2 b3 buf1 buf2 buf3 w0 ctx,
         outputAudioContextRef (refs w0) = Some ctx ->
         carries_audio m1 b1 -> carries_audio m2 b2 -> carries_audio m3 b3 ->
         decodeChunk b1 = Ok buf1 -> decodeChunk b2 = Ok buf2 ->
         decodeChunk b3 = Ok buf3 ->
         (0 <= currentTime e1)%Q -> (0 <= currentTime e2)%Q ->
         (0 <= currentTime e3)%Q ->
         let s1 := Qmax (nextStartTimeRef (refs w0)) (currentTime e1) in
         let s2 := fadd s1 (duration buf1) in
         let s3 := fadd s2 (duration buf2) in
         overflows (s1 + duration buf1) = false ->
         overflows (s2 + duration buf2) = false ->
         overflows (s3 + duration buf3) = false ->
         (currentTime e2 <= s2)%Q ->
         (currentTime e3 <= s3)%Q ->
         exists w1 w2 w3,
           handleLiveMessage c1 e1 m1 w0 = Ok w1
           /\ handleLiveMessage c2 e2 m2 w1 = Ok w2
           /\ handleLiveMessage c3 e3 m3 w2 = Ok w3
           /\ effects w3
              = effects w0
                ++ [SourceStarted (fresh w0) s1 buf1;
                    SourceStarted (fresh w1) s2 buf2;
                    SourceStarted (fresh w2) s3 buf3]
           /\ nextStartTimeRef (refs w3) = fadd s3 (duration buf3)).
Proof.
  split.
  - intros c env message b w ctx buffer Ha Hctx Hdec Hnow startAt _.
    destruct (handleLiveMessage_audio c env message b w ctx buffer
                Ha Hctx Hdec Hnow) as (w' & Hrun & He & Hn & _).
    exists w'. repeat split; assumption.
  - intros c1 c2 c3 e1 e2 e3 m1 m2 m3 b1 b2 b3 buf1 buf2 buf3 w0 ctx
      Hctx Ha1 Ha2 Ha3 Hd1 Hd2 Hd3 Hn1 Hn2 Hn3 s1 s2 s3 _ _ _ Hj2 Hj3.
    destruct (handleLiveMessage_audio c1 e1 m1 b1 w0 ctx buf1
                Ha1 Hctx Hd1 Hn1) as (w1 & Hr1 & He1 & Hx1 & _ & Hc1 & _).
    destruct (handleLiveMessage_audio c2 e2 m2 b2 w1 ctx buf2
                Ha2 Hc1 Hd2 Hn2) as (w2 & Hr2 & He2 & Hx2 & _ & Hc2 & _).
    destruct (handleLiveMessage_audio c3 e3 m3 b3 w2 ctx buf3
                Ha3 Hc2 Hd3 Hn3) as (w3 & Hr3 & He3 & Hx3 & _).
    fold s1 in He1, Hx1. fold s2 in Hx1.
    rewrite Hx1, (Qmax_left _ _ Hj2) in He2, Hx2. fold s3 in Hx2.
    rewrite Hx2, (Qmax_left _ _ Hj3) in He3, Hx3.
    exists w1, w2, w3. repeat split; try assumption.
    rewrite He3, He2, He1, <- !app_assoc. reflexivity.
Qed.

Lemma carries_audio_delta b : truthy b = true -> carries_audio (audioDelta b) b.
Proof.
  intros Hb. split; [reflexivity|]. split; [exact Hb|].
  intros sc H. injection H as <-. reflexivity.
Qed.

Lemma gapless_scheduling_witness :
  outputAudioContextRef (refs connected) = Some 2%nat
  /\ carries_audio (audioDelta chunk) chunk
  /\ decodeChunk chunk = Ok segment
  /\ (0 <= currentTime (at_time tenth))%Q
  /\ overflows (tenth + duration segment) = false
  /\ overflows (fadd tenth (duration segment) + duration segment) = false
  /\ overflows
       (fadd (fadd tenth (duration segment)) (duration segment)
        + duration segment) = false
  /\ (currentTime (at_time tenth_later) <= fadd tenth (duration segment))%Q
  /\ (currentTime (at_time tenth_latest)
      <= fadd (fadd tenth (duration segment)) (duration segment))%Q
  /\ ~ (fadd tenth (duration segment) == tenth + duration segment)%Q
  /\ exists w1 w2 w3,
      handleLiveMessage (render initial) (at_time tenth) (audioDelta chunk)
        connected = Ok w1
      /\ handleLiveMessage (render initial) (at_time tenth_later)
           (audioDelta chunk) w1 = Ok w2
      /\ handleLiveMessage (render initial) (at_time tenth_latest)
           (audioDelta chunk) w2 = Ok w3
      /\ effects w3
         = effects connected
           ++ [SourceStarted (fresh connected) tenth segment;
               SourceStarted (fresh w1) (fadd tenth (duration segment))
                 segment;
               SourceStarted (fresh w2)
                 (fadd (fadd tenth (duration segment)) (duration segment))
                 segment]
      /\ nextStartTimeRef (refs w3)
         = fadd (fadd (fadd tenth (duration segment)) (duration segment))
             (duration segment).
Proof.
  assert (carries_audio (audioDelta chunk) chunk) as Ha
      by (apply carries_audio_delta; reflexivity).
  assert (decodeChunk chunk = Ok segment) as Hd by (vm_compute; reflexivity).
  split; [reflexivity|]. split; [exact Ha|]. split; [exact Hd|].
  split; [vm_compute; intros H; discriminate H|].
  split; [vm_compute; reflexivity|].
  split; [vm_compute; reflexivity|].
  split; [vm_compute; reflexivity|].
  split; [vm_compute; intros H; discriminate H|].
  split; [vm_compute; intros H; discriminate H|].
  split; [vm_compute; intros H; discriminate H|].
  apply (proj2 gapless_scheduling (render initial) (render initial)
           (render initial) (at_time tenth) (at_time tenth_later)
           (at_time tenth_latest) (audioDelta chunk) (audioDelta chunk)
           (audioDelta chunk) chunk chunk chunk segment segment segment
           connected 2%nat);
    try reflexivity; try assumption;
    try (vm_compute; reflexivity); vm_compute; intros H; discriminate H.
Defined.

(** ** Interruption *)

Lemma handleTurnComplete_skip c env message sc w :
  serverContent message = Some sc -> turnComplete sc = false ->
  handleTurnComplete c env message w = w.
Proof. intros Hsc Ht. unfold handleTurnComplete. now rewrite Hsc, Ht. Qed.


Lemma reachable_connected : reachable connected.
Proof.
  exact (reachable_step _ _ reachable_initial (step_start initial Connected)).
Qed.

Lemma reachable_deliver session events :
  forall w w', reachable w -> deliver session events w = Ok w' -> reachable w'.
Proof.
  unfold deliver.
  induction events as [|[env message] events IH]; intros w w' Hw Hrun.
  - cbn in Hrun. now injection Hrun as <-.
  - cbn [fold_left fst snd mbind result_bind] in Hrun.
    destruct (onmessage session env message w) as [w1|e] eqn:E.
    + apply (IH w1 w'); [|exact Hrun].
      exact (reachable_step _ _ Hw (step_message _ _ _ _ _ E)).
    + exfalso. clear -Hrun. induction events as [|ev events IH'].
      * discriminate Hrun.
      * apply IH'. exact Hrun.
Qed.

(** The world with two segments scheduled. *)
Lemma reachable_scheduled :
  reachable scheduled
  /\ playbackSourcesRef (refs scheduled) = {[6%nat; 7%nat]}
  /\ outputAudioContextRef (refs scheduled) = Some 2%nat.
Proof.
  split.
  - apply (reachable_deliver 5
             [(at_time 0, audioDelta chunk); (at_time 0, audioDelta chunk)]
             connected scheduled reachable_connected).
    vm_compute. reflexivity.
  - split; vm_compute; reflexivity.
Qed.


(** ** Teardown *)

(** [stopRecording] in a reachable world raises no error and clears every
    ref, the playback set and the next start time, each handle the refs
    held having been released; called again at once it raises no error,
    makes no platform call and changes nothing; and called before any
    session was started it changes nothing either. *)
Lemma stopRecording_idempotent :
  (forall w,
      reachable w ->
      exists w1,
        stopRecording w = Ok w1
        /\ released w1
        /\ gave_back w w1
        /\ stopRecording w1 = Ok w1)
  /\ stopRecording initial = Ok initial
  /\ released initial.
Proof.
  split.
  - intros w Hreach.
    destruct (stopRecording_run w (reachable_invariant w Hreach))
      as (w1 & H1 & H2 & H3 & H4 & _).
    exists w1. split; [exact H1|]. split; [exact H2|].
    split; [exact H3|exact H4].
  - split; [reflexivity|]. repeat split.
Qed.

Lemma reachable_restarted : reachable restarted.
Proof.
  apply (reachable_step failed_start); [|apply step_start].
  apply (reachable_step initial); [exact reachable_initial|apply step_start].
Qed.

(** C7, the code at the failing input: a first start fails at the
    connection, a second start connects, then [stopRecording] is called
    twice.  Neither call raises an error, the second changes nothing, and
    every ref ends null with the playback set empty and nextStartTime
    zero; but the only handles released are those of the second set-up
    (and the stream of the first, stopped by the failed start itself): the
    two audio contexts and the two nodes the failed start had acquired,
    objects 1 to 4, are never closed or disconnected, because the second
    set-up overwrote the refs that held them. *)
Theorem stopRecording_after_failed_start :
  reachable restarted
  /\ audioContextRef (refs failed_start) = Some 1%nat
  /\ outputAudioContextRef (refs failed_start) = Some 2%nat
  /\ mediaStreamSourceRef (refs failed_start) = Some 3%nat
  /\ scriptProcessorRef (refs failed_start) = Some 4%nat
  /\ effects failed_start = [ConsoleError; TracksStopped 0]
  /\ isRecording (state failed_start) = false
  /\ effects restarted = effects failed_start
  /\ exists w,
      stopRecording restarted = Ok w
      /\ stopRecording w = Ok w
      /\ released w
      /\ effects w
         = [ConsoleError; TracksStopped 0;
            TracksStopped 5; Disconnected 8; Disconnected 9;
            ContextClosed 6; ContextClosed 7; SessionClosed 10]
      /\ (ContextClosed 1 ∉ effects w)
      /\ (ContextClosed 2 ∉ effects w)
      /\ (Disconnected 3 ∉ effects w)
      /\ (Disconnected 4 ∉ effects w).
Proof.
  split; [exact reachable_restarted|].
  do 7 (split; [vm_compute; reflexivity|]).
  destruct (stopRecording_run restarted
              (reachable_invariant restarted reachable_restarted))
    as (w & Hrun & Hrel & _ & Hagain & _).
  exists w. split; [exact Hrun|]. split; [exact Hagain|].
  split; [exact Hrel|].
  assert (stopRecording restarted
          = Ok (torn_down restarted)) as Hval
      by (apply stopRecording_torn_down,
            (reachable_invariant restarted reachable_restarted)).
  rewrite Hval in Hrun. injection Hrun as <-.
  assert (effects (torn_down restarted)
          = [ConsoleError; TracksStopped 0;
             TracksStopped 5; Disconnected 8; Disconnected 9;
             ContextClosed 6; ContextClosed 7; SessionClosed 10]) as ->
      by (vm_compute; reflexivity).
  repeat split; intros H; repeat (apply elem_of_cons in H as [H|H];
    [discriminate H|]); apply elem_of_nil in H; exact H.
Qed.

(** ** Malformed chunks *)

Lemma truncate_quotient n d :
  0 <= n -> 0 < d -> truncate (inject_Z n / inject_Z d) = n / d.
Proof.
  intros Hn Hd. destruct d as [|p|p]; try lia.
  unfold truncate, Qdiv, Qmult, Qinv, inject_Z. cbn.
  rewrite Z.mul_1_r. apply Z.quot_div_nonneg; lia.
Qed.

(** When [decodeAudioData] throws at a supported rate and channel count:
    on an odd byte length, or when the chunk holds no complete frame. *)
Lemma decodeAudioData_throws (data : list Z) (rate channels : Z) :
  supported rate channels ->
  Z.of_nat (List.length data / 2) < 2 ^ 32 ->
  throws (decodeAudioData data rate channels)
  <-> (List.length data mod 2 <> 0)%nat
      \/ Z.of_nat (List.length data / 2) < channels.
Proof.
  intros [Hch Hrate] Hlen. unfold decodeAudioData, Int16Array_of_buffer.
  assert (Z.of_nat (List.length data) mod 2
          = Z.of_nat (List.length data mod 2)) as ->
      by (now rewrite Nat2Z.inj_mod).
  destruct (Nat.eq_dec (List.length data mod 2)%nat 0%nat) as [Heven|Hodd].
  - rewrite Heven. change (Z.of_nat 0 =? 0) with true.
    cbn [mbind result_bind]. rewrite int16_view_length.
    set (n := Z.of_nat (List.length data / 2)) in *.
    rewrite createBuffer_within by assumption.
    unfold divide, ToUintN.
    destruct (Z.eqb_spec channels 0) as [E|_]; [lia|].
    rewrite truncate_quotient by lia.
    assert (0 <= n / channels <= n) as Hq.
    { split; [apply Z.div_pos; lia|].
      apply Z.div_le_upper_bound; [lia|]. nia. }
    rewrite Z.mod_small by lia.
    destruct (Z.eqb_spec (n / channels) 0) as [Hz|Hnz].
    + cbn [mbind result_bind]. split.
      * intros _. right. apply Z.div_small_iff in Hz; lia.
      * intros _. eexists. reflexivity.
    + cbn [mbind result_bind]. split.
      * intros [e He]. discriminate He.
      * intros [H|H]; [contradiction|].
        exfalso. apply Hnz. apply Z.div_small. lia.
  - destruct (Z.eqb_spec (Z.of_nat (List.length data mod 2)) 0) as [E|_];
      [lia|].
    cbn [mbind result_bind]. split.
    + intros _. left. exact Hodd.
    + intros _. eexists. reflexivity.
Qed.

Lemma handleLiveMessage_dropped c env message b w ctx e :
  carries_audio message b ->
  outputAudioContextRef (refs w) = Some ctx ->
  decodeChunk b = Throw e ->
  exists w',
    handleLiveMessage c env message w = Ok w'
    /\ effects w' = effects w ++ [ConsoleError]
    /\ playbackSourcesRef (refs w') = playbackSourcesRef (refs w)
    /\ liveSessionRef (refs w') = liveSessionRef (refs w)
    /\ outputAudioContextRef (refs w') = Some ctx.
Proof.
  intros (Haudio & Hb & Hint) Hctx Hdec.
  unfold handleLiveMessage. rewrite Haudio. cbn [mbind result_bind].
  rewrite (handleInterrupted_skip _ _ Hint).
  eexists. split; [reflexivity|].
  rewrite (handleAudio_dropped env b w ctx e Hctx Hb Hdec).
  set (w1 := emit ConsoleError _).
  destruct (handleTranscription_frame message w1) as (Hr1 & He1 & _).
  set (w2 := handleTranscription message w1) in *.
  destruct (handleTurnComplete_frame c env message w2) as (Hr2 & He2 & _).
  rewrite Hr2, He2, Hr1, He1.
  repeat split. exact Hctx.
Qed.

(** C5 (as amended): [decodeAudioData] has no length check of its own.  At
    a sample rate and a channel count that every implementation of
    [createBuffer] supports (from 8000 to 96000 Hz, up to 32 channels), it
    throws when the byte length is odd (the 16-bit view is refused) or when
    the chunk holds fewer samples than channels (the buffer would be empty),
    and only then; on one channel, as the session decodes, a non-empty chunk
    is refused exactly when its byte length is not a multiple of
    numChannels * 2 = 2.  An audio delta that fails to decode is logged and
    dropped: nothing is scheduled, the playback set, the session and the
    output context stay as they are, and a later valid audio delta is
    decoded and scheduled. *)
Theorem malformed_chunk_containment :
  (forall (data : list Z) (rate channels : Z),
      supported rate channels ->
      Z.of_nat (List.length data / 2) < 2 ^ 32 ->
      throws (decodeAudioData data rate channels)
      <-> (List.length data mod 2 <> 0)%nat
          \/ Z.of_nat (List.length data / 2) < channels)
  /\ (forall (data : list Z) (rate : Z),
         supported rate AUDIO_NUM_CHANNELS ->
         data <> [] ->
         Z.of_nat (List.length data / 2) < 2 ^ 32 ->
         throws (decodeAudioData data rate AUDIO_NUM_CHANNELS)
         <-> Z.of_nat (List.length data) mod (AUDIO_NUM_CHANNELS * 2) <> 0)
  /\ (forall c env message b w ctx e,
         carries_audio message b ->
         outputAudioContextRef (refs w) = Some ctx ->
         decodeChunk b = Throw e ->
         exists w',
           handleLiveMessage c env message w = Ok w'
           /\ effects w' = effects w ++ [ConsoleError]
           /\ playbackSourcesRef (refs w') = playbackSourcesRef (refs w)
           /\ liveSessionRef (refs w') = liveSessionRef (refs w)
           /\ outputAudioContextRef (refs w') = Some ctx
           /\ forall c2 env2 m2 b2 buffer,
               carries_audio m2 b2 ->
               decodeChunk b2 = Ok buffer ->
               (0 <= currentTime env2)%Q ->
               exists w'',
                 handleLiveMessage c2 env2 m2 w' = Ok w''
                 /\ effects w''
                    = effects w'
                      ++ [SourceStarted (fresh w')
                            (Qmax (nextStartTimeRef (refs w'))
                               (currentTime env2)) buffer]
                 /\ fresh w' ∈ playbackSourcesRef (refs w'')
                 /\ liveSessionRef (refs w'') = liveSessionRef (refs w)).
Proof.
  split; [exact decodeAudioData_throws|]. split.
  - intros data rate Hsup Hne Hlen.
    rewrite (decodeAudioData_throws data rate AUDIO_NUM_CHANNELS Hsup Hlen).
    unfold AUDIO_NUM_CHANNELS. change (1 * 2) with (Z.of_nat 2).
    rewrite <- Nat2Z.inj_mod.
    pose proof (Nat.div_mod_eq (List.length data) 2) as Hdm.
    destruct data as [|x data]; [contradiction|]. cbn [List.length] in *.
    split; [intros [H|H]|intros H; left]; lia.
  - intros c env message b w ctx e Ha Hctx Hdec.
    destruct (handleLiveMessage_dropped c env message b w ctx e Ha Hctx Hdec)
      as (w' & Hrun & He & Hs & Hl & Hc).
    exists w'. repeat (split; [assumption|]).
    intros c2 env2 m2 b2 buffer Ha2 Hd2 Hnow.
    destruct (handleLiveMessage_audio c2 env2 m2 b2 w' ctx buffer
                Ha2 Hc Hd2 Hnow) as (w'' & Hrun2 & He2 & _ & Hs2 & _ & Hl2 & _).
    exists w''. split; [exact Hrun2|]. split; [exact He2|].
    split; [rewrite Hs2; set_solver|congruence].
Qed.

Lemma malformed_chunk_containment_witness :
  supported 24000 2
  /\ Z.of_nat (List.length [1; 0; 2; 0; 3; 0] / 2) < 2 ^ 32
  /\ (throws (decodeAudioData [1; 0; 2; 0; 3; 0] 24000 2)
      <-> (List.length [1; 0; 2; 0; 3; 0] mod 2 <> 0)%nat
          \/ Z.of_nat (List.length [1; 0; 2; 0; 3; 0] / 2) < 2)
  /\ supported 24000 AUDIO_NUM_CHANNELS
  /\ [1; 0; 2] <> []
  /\ (throws (decodeAudioData [1; 0; 2] 24000 AUDIO_NUM_CHANNELS)
      <-> Z.of_nat (List.length [1; 0; 2]) mod (AUDIO_NUM_CHANNELS * 2) <> 0)
  /\ carries_audio (audioDelta malformed_chunk) malformed_chunk
  /\ outputAudioContextRef (refs connected) = Some 2%nat
  /\ decodeChunk malformed_chunk = Throw RangeError
  /\ carries_audio (audioDelta chunk) chunk
  /\ decodeChunk chunk = Ok segment
  /\ (0 <= currentTime (at_time 2))%Q
  /\ exists w' w'',
      handleLiveMessage (render initial) (at_time 1)
        (audioDelta malformed_chunk) connected = Ok w'
      /\ effects w' = effects connected ++ [ConsoleError]
      /\ handleLiveMessage (render initial) (at_time 2) (audioDelta chunk) w'
         = Ok w''
      /\ fresh w' ∈ playbackSourcesRef (refs w'')
      /\ liveSessionRef (refs w'') = liveSessionRef (refs connected).
Proof.
  assert (supported 24000 2) as Hs2
      by (unfold supported, maxChannels, minSampleRate, maxSampleRate; lia).
  assert (Z.of_nat (List.length [1; 0; 2; 0; 3; 0] / 2) < 2 ^ 32) as Hl6
      by (vm_compute; reflexivity).
  assert (supported 24000 AUDIO_NUM_CHANNELS) as Hs1
      by (unfold supported, AUDIO_NUM_CHANNELS, maxChannels, minSampleRate,
            maxSampleRate; lia).
  assert ([1; 0; 2] <> []) as Hne by discriminate.
  assert (Z.of_nat (List.length [1; 0; 2] / 2) < 2 ^ 32) as Hl3
      by (vm_compute; reflexivity).
  assert (carries_audio (audioDelta malformed_chunk) malformed_chunk) as Ha
      by (apply carries_audio_delta; reflexivity).
  assert (decodeChunk malformed_chunk = Throw RangeError) as Hd
      by (vm_compute; reflexivity).
  assert (carries_audio (audioDelta chunk) chunk) as Ha2
      by (apply carries_audio_delta; reflexivity).
  assert (decodeChunk chunk = Ok segment) as Hd2 by (vm_compute; reflexivity).
  assert (0 <= currentTime (at_time 2))%Q as Hnow
      by (vm_compute; intros H; discriminate H).
  split; [exact Hs2|]. split; [exact Hl6|].
  split; [exact (proj1 malformed_chunk_containment
                   [1; 0; 2; 0; 3; 0] 24000 2 Hs2 Hl6)|].
  split; [exact Hs1|]. split; [exact Hne|].
  split; [exact (proj1 (proj2 malformed_chunk_containment)
                   [1; 0; 2] 24000 Hs1 Hne Hl3)|].
  repeat (split; [first [assumption|reflexivity]|]).
  destruct (proj2 (proj2 malformed_chunk_containment) (render initial)
              (at_time 1) (audioDelta malformed_chunk) malformed_chunk
              connected 2%nat RangeError Ha eq_refl Hd)
    as (w' & Hrun & He & _ & _ & _ & Hnext).
  destruct (Hnext (render initial) (at_time 2) (audioDelta chunk) chunk
              segment Ha2 Hd2 Hnow) as (w'' & Hrun2 & _ & Hin & Hl).
  exists w', w''. repeat split; assumption.
Defined.

(** C5, the claim as stated fails: six bytes on two channels are not a
    multiple of numChannels * 2 = 4, yet they are decoded (the odd third
    sample is dropped); and the empty chunk, a multiple of 2, is refused on
    one channel. *)
Lemma odd_frame_is_not_refused :
  ~ (throws (decodeAudioData [1; 0; 2; 0; 3; 0] 24000 2)
     <-> Z.of_nat (List.length [1; 0; 2; 0; 3; 0]) mod (2 * 2) <> 0)
  /\ ~ (throws (decodeAudioData [] 24000 1)
        <-> Z.of_nat (List.length (@nil Z)) mod (1 * 2) <> 0).
Proof.
  split.
  - intros [_ H].
    destruct H as [e He]; [vm_compute; discriminate|].
    vm_compute in He. discriminate He.
  - intros [H _]. apply H; [|reflexivity].
    exists NotSupportedError. reflexivity.
Qed.

(** ** Turn completion *)

(** What the turn-completion branch does with the texts its callback
    captured: a USER message for a captured input that is not blank, then a
    MODEL message for a captured output that is not blank, and both buffers
    cleared. *)
Lemma handleTurnComplete_finalizes c env message sc w :
  serverContent message = Some sc -> turnComplete sc = true ->
  let w' := handleTurnComplete c env message w in
  chatMessages (state w')
  = chatMessages (state w)
    ++ (if truthy (trim (capturedInput c))
        then [{| role := USER; content := capturedInput c;
                 timestamp := dateUser env |}]
        else [])
    ++ (if truthy (trim (capturedOutput c))
        then [{| role := MODEL; content := capturedOutput c;
                 timestamp := dateModel env |}]
        else [])
  /\ currentInputTranscription (state w') = []
  /\ currentOutputTranscription (state w') = [].
Proof.
  intros Hsc Ht. cbn zeta. unfold handleTurnComplete. rewrite Hsc, Ht.
  destruct (truthy (trim (capturedInput c))),
    (truthy (trim (capturedOutput c))); cbn;
    rewrite <- ?app_assoc, ?app_nil_r; repeat split.
Qed.

(** With the callback of the current render, the buffers "hello" and
    "hi there" are finalized in reading order. *)
Lemma turn_complete_with_current_closure env w :
  currentInputTranscription (state w) = jsstr "hello" ->
  currentOutputTranscription (state w) = jsstr "hi there" ->
  exists w',
    handleLiveMessage (render w) env turnCompleteEvent w = Ok w'
    /\ chatMessages (state w')
       = chatMessages (state w)
         ++ [{| role := USER; content := jsstr "hello";
                timestamp := dateUser env |};
             {| role := MODEL; content := jsstr "hi there";
                timestamp := dateModel env |}]
    /\ currentInputTranscription (state w') = []
    /\ currentOutputTranscription (state w') = [].
Proof.
  intros Hin Hout. eexists. split; [reflexivity|].
  cbn [handleAudio handleTranscription serverContent turnCompleteEvent
       outputTranscription inputTranscription].
  destruct (handleTurnComplete_finalizes (render w) env turnCompleteEvent
              _ w eq_refl eq_refl) as (Hm & Hi & Ho).
  cbn zeta in *. rewrite Hm, Hi, Ho.
  unfold render. cbn [capturedInput capturedOutput]. rewrite Hin, Hout.
  change (truthy (trim (jsstr "hello"))) with true.
  change (truthy (trim (jsstr "hi there"))) with true.
  repeat split.
Qed.

Lemma reachable_hello_turn w : hello_turn = Ok w -> reachable w.
Proof. apply reachable_deliver, reachable_connected. Qed.

Lemma reachable_second_session w : second_session = Ok w -> reachable w.
Proof.
  unfold second_session.
  destruct (deliver 5 [(at_time 1, inputDelta (jsstr "foo"))] connected)
    as [wa|] eqn:Ea; [|discriminate].
  cbn [mbind result_bind].
  destruct (stopRecording wa) as [wb|] eqn:Eb; [|discriminate].
  cbn [mbind result_bind]. apply reachable_deliver.
  apply (reachable_step wb); [|apply step_start].
  apply (reachable_step wa); [|apply step_stop, Eb].
  apply (reachable_deliver 5 _ connected wa reachable_connected Ea).
Qed.

(** C4, the code at the failing input: in the session opened from the
    initial render, after the transcription deltas "hello" and "hi there"
    the buffers hold them, and the turn-complete event clears the buffers
    without adding any message: the session calls the handler of the render
    in which recording was started, which captured empty texts. *)
Theorem turn_complete_in_session_adds_no_message :
  exists w w',
    hello_turn = Ok w
    /\ reachable w
    /\ currentInputTranscription (state w) = jsstr "hello"
    /\ currentOutputTranscription (state w) = jsstr "hi there"
    /\ callbacks w !! 5%nat = Some (render initial)
    /\ onmessage 5 (at_time 3) turnCompleteEvent w = Ok w'
    /\ chatMessages (state w') = []
    /\ currentInputTranscription (state w') = []
    /\ currentOutputTranscription (state w') = [].
Proof.
  eexists. eexists. split; [vm_compute; reflexivity|].
  split; [apply reachable_hello_turn; vm_compute; reflexivity|].
  repeat (split; [vm_compute; reflexivity|]).
  vm_compute. reflexivity.
Qed.

(** C10, the code at the failing input: the second session is opened from a
    render that still shows "foo"; its input buffer holds a single space at
    turn completion, yet a USER message is created, with the stale text.
    The defect is the one of C4. *)
Theorem blank_buffer_finalized_with_stale_text :
  exists w w',
    second_session = Ok w
    /\ reachable w
    /\ currentInputTranscription (state w) = jsstr " "
    /\ truthy (trim (currentInputTranscription (state w))) = false
    /\ callbacks w !! 11%nat
       = Some {| capturedInput := jsstr "foo"; capturedOutput := [];
                 capturedIsRecording := false |}
    /\ onmessage 11 (at_time 8) turnCompleteEvent w = Ok w'
    /\ chatMessages (state w')
       = [{| role := USER; content := jsstr "foo"; timestamp := 1000 |}].
Proof.
  eexists. eexists. split; [vm_compute; reflexivity|].
  split; [apply reachable_second_session; vm_compute; reflexivity|].
  repeat (split; [vm_compute; reflexivity|]).
  vm_compute. reflexivity.
Qed.

(** The guard itself: at turn completion a message is created for a buffer
    exactly when the text captured for it is not blank. *)
Lemma blank_captured_text_creates_no_message c env message sc w :
  serverContent message = Some sc -> turnComplete sc = true ->
  truthy (trim (capturedInput c)) = false ->
  truthy (trim (capturedOutput c)) = false ->
  chatMessages (state (handleTurnComplete c env message w))
  = chatMessages (state w).
Proof.
  intros Hsc Ht Hi Ho.
  destruct (handleTurnComplete_finalizes c env message sc w Hsc Ht)
    as (Hm & _). cbn zeta in Hm.
  rewrite Hm, Hi, Ho. now rewrite !app_nil_r.
Qed.

(** ** The byte codec: [encode] and [decode] *)

(** [decode] stores the code units of [atob]'s binary string as bytes. *)
Lemma decode_atob (s bin : jsstring) :
  atob s = Ok bin -> decode s = Ok (map (fun c => c mod 256) bin).
Proof.
  intros H. unfold decode. rewrite H. cbn [mbind result_bind]. f_equal.
  unfold read_int.
  rewrite (store_all (fun o : option Z =>
                        ToUintN 8 (match o with
                                   | Some v => Num (inject_Z v)
                                   | None => NaN
                                   end)) bin 0).
  apply map_ext. intros c. apply ToUintN_int.
Qed.

Lemma decode_throws (s : jsstring) e :
  atob s = Throw e -> decode s = Throw e.
Proof. intros H. unfold decode. now rewrite H. Qed.

Lemma decode_bytes (s : jsstring) (bs : list Z) :
  decode s = Ok bs -> Forall byte bs.
Proof.
  intros H. destruct (atob s) as [bin|e] eqn:E.
  - rewrite (decode_atob s bin E) in H. injection H as <-.
    apply Forall_map, List.Forall_forall. intros c _. unfold byte.
    apply Z.mod_pos_bound. lia.
  - rewrite (decode_throws s e E) in H. discriminate H.
Qed.

Lemma base64_encode_length (bs : list Z) :
  List.length (base64_encode bs) = (4 * ((List.length bs + 2) / 3))%nat.
Proof.
  unfold base64_encode. rewrite length_app, length_map.
  induction bs as [| a | a b | a b c l IH] using triples_ind;
    [reflexivity..|].
  cbn [sextets_of_bytes List.length].
  rewrite padding_plus3.
  replace (S (S (S (List.length l))) + 2)%nat
    with (List.length l + 2 + 1 * 3)%nat by lia.
  rewrite Nat.div_add by lia. lia.
Qed.

Lemma base64_encode_alphabet (bs : list Z) :
  Forall byte bs ->
  Forall (fun c => is_Some (sextet_of_char c) \/ c = pad_char)
    (base64_encode bs).
Proof.
  intros Hbs. unfold base64_encode. apply Forall_app. split.
  - apply Forall_map.
    eapply Forall_impl; [apply (sextets_of_bytes_range bs Hbs)|].
    intros v Hv. left. cbn. rewrite (sextet_of_b64char v Hv). now exists v.
  - unfold padding. apply List.Forall_forall. intros c Hc.
    apply list_elem_of_In, elem_of_replicate in Hc. right. tauto.
Qed.

(** A character other than [=] survives the removal of the padding. *)
Lemma strip_padding_keeps (s : jsstring) (c : Z) :
  c ∈ s -> c <> pad_char -> c ∈ strip_padding s.
Proof.
  intros Hin Hc. unfold strip_padding.
  destruct (rev s) as [|p [|q r]] eqn:E; [exact Hin| |].
  - destruct (Z.eqb_spec p pad_char) as [Hp|_]; [|exact Hin].
    apply (f_equal (@rev Z)) in E. rewrite rev_involutive in E. subst s.
    cbn in Hin. apply list_elem_of_singleton in Hin. congruence.
  - destruct (Z.eqb_spec p pad_char) as [Hp|_]; [|exact Hin].
    apply (f_equal (@rev Z)) in E. rewrite rev_involutive in E. subst s.
    cbn [rev] in Hin.
    rewrite !elem_of_app, !list_elem_of_singleton in Hin.
    destruct (Z.eqb_spec q pad_char) as [Hq|_].
    + destruct Hin as [[Hin| ->]| ->]; [exact Hin|contradiction..].
    + cbn [rev]. rewrite elem_of_app, list_elem_of_singleton.
      destruct Hin as [[Hin| ->]| ->]; [tauto|tauto|contradiction].
Qed.

Lemma atob_foreign_character (s : jsstring) (c : Z) :
  c ∈ s -> ascii_whitespace c = false -> c <> pad_char ->
  sextet_of_char c = None ->
  atob s = Throw InvalidCharacterError.
Proof.
  intros Hin Hws Hpad Hnone. unfold atob.
  set (d0 := filter (fun c => ascii_whitespace c = false) s).
  assert (c ∈ d0) as H0.
  { apply list_elem_of_filter. split; [exact Hws|exact Hin]. }
  set (d := if (List.length d0 mod 4 =? 0)%nat then strip_padding d0 else d0).
  assert (c ∈ d) as Hd.
  { unfold d. destruct (List.length d0 mod 4 =? 0)%nat; [|exact H0].
    apply strip_padding_keeps; assumption. }
  destruct (List.length d mod 4 =? 1)%nat; [reflexivity|].
  rewrite (proj2 (mapM_None sextet_of_char d)); [reflexivity|].
  apply List.Exists_exists. exists c. split; [|exact Hnone].
  apply list_elem_of_In, Hd.
Qed.

(** X1: whatever bytes a [Uint8Array] holds, [encode] produces a text and
    [decode] gives the same bytes back. *)
Theorem encode_decode_round_trip (bs : list Z) :
  Forall byte bs -> exists s, encode bs = Ok s /\ decode s = Ok bs.
Proof.
  intros Hbs. exists (base64_encode bs). split.
  - apply encode_bytes, Hbs.
  - apply decode_base64_encode, Hbs.
Qed.

Lemma encode_decode_round_trip_witness :
  Forall byte [0; 255; 16; 77]
  /\ exists s, encode [0; 255; 16; 77] = Ok s /\ decode s = Ok [0; 255; 16; 77].
Proof.
  assert (Forall byte [0; 255; 16; 77]) as H.
  { repeat constructor; unfold byte; lia. }
  split; [exact H|]. exact (encode_decode_round_trip [0; 255; 16; 77] H).
Defined.

(** X2: the text [encode] returns for [n] bytes has [4 * ceil (n / 3)]
    characters, each a base64 digit or the padding sign [=]. *)
Theorem encode_length_and_alphabet (bs : list Z) :
  Forall byte bs ->
  exists s,
    encode bs = Ok s
    /\ List.length s = (4 * ((List.length bs + 2) / 3))%nat
    /\ Forall (fun c => is_Some (sextet_of_char c) \/ c = pad_char) s.
Proof.
  intros Hbs. exists (base64_encode bs). split; [|split].
  - apply encode_bytes, Hbs.
  - apply base64_encode_length.
  - apply base64_encode_alphabet, Hbs.
Qed.

Lemma encode_length_and_alphabet_witness :
  Forall byte [1; 2; 3; 4]
  /\ exists s,
      encode [1; 2; 3; 4] = Ok s
      /\ List.length s = (4 * ((List.length [1; 2; 3; 4] + 2) / 3))%nat
      /\ Forall (fun c => is_Some (sextet_of_char c) \/ c = pad_char) s.
Proof.
  assert (Forall byte [1; 2; 3; 4]) as H.
  { repeat constructor; unfold byte; lia. }
  split; [exact H|]. exact (encode_length_and_alphabet [1; 2; 3; 4] H).
Defined.

(** X3: [decode] refuses a text that holds a character which is neither a
    base64 digit, nor the padding sign, nor ASCII white space: the
    InvalidCharacterError of [atob] escapes, no byte is returned. *)
Theorem decode_rejects_foreign_character (s : jsstring) (c : Z) :
  c ∈ s -> ascii_whitespace c = false -> c <> pad_char ->
  sextet_of_char c = None ->
  decode s = Throw InvalidCharacterError.
Proof.
  intros Hin Hws Hpad Hnone. apply decode_throws.
  apply (atob_foreign_character s c); assumption.
Qed.

Lemma decode_rejects_foreign_character_witness :
  45 ∈ jsstr "AE-A"
  /\ decode (jsstr "AE-A") = Throw InvalidCharacterError.
Proof.
  assert (45 ∈ jsstr "AE-A") as H.
  { apply list_elem_of_In. cbn. tauto. }
  split; [exact H|].
  apply (decode_rejects_foreign_character (jsstr "AE-A") 45 H);
    [reflexivity|discriminate|reflexivity].
Defined.

(** X4: what [decode] returns are bytes, and encoding them again gives a
    text that decodes to the same bytes, also when the original text was
    not in canonical form (white space, missing padding). *)
Theorem decode_then_encode_is_stable (s : jsstring) (bs : list Z) :
  decode s = Ok bs ->
  Forall byte bs /\ exists s', encode bs = Ok s' /\ decode s' = Ok bs.
Proof.
  intros H. pose proof (decode_bytes s bs H) as Hbs. split; [exact Hbs|].
  exists (base64_encode bs). split.
  - apply encode_bytes, Hbs.
  - apply decode_base64_encode, Hbs.
Qed.

Lemma decode_then_encode_is_stable_witness :
  decode (jsstr "AE A") = Ok [0; 64]
  /\ Forall byte [0; 64]
  /\ exists s', encode [0; 64] = Ok s' /\ decode s' = Ok [0; 64].
Proof.
  assert (decode (jsstr "AE A") = Ok [0; 64]) as H by (vm_compute; reflexivity).
  split; [exact H|].
  exact (decode_then_encode_is_stable (jsstr "AE A") [0; 64] H).
Defined.

(** ** [decodeAudioData] on any number of channels *)

Lemma for_loop_add {S} (body : nat -> S -> S) (a b : nat) :
  forall start s,
    for_loop start (a + b) body s
    = for_loop (start + a) b body (for_loop start a body s).
Proof.
  induction a as [|a IH]; intros start s; cbn [for_loop Nat.add].
  - now rewrite Nat.add_0_r.
  - rewrite IH. now replace (Datatypes.S start + a)%nat
                      with (start + Datatypes.S a)%nat by lia.
Qed.

(** Stores past the end of a typed array are ignored. *)
Lemma for_loop_store_beyond {A} (f : nat -> A) (l : list A) count :
  forall start,
    (List.length l <= start)%nat ->
    for_loop start count (fun i a => <[i := f i]> a) l = l.
Proof.
  induction count as [|count IH]; intros start Hs; cbn [for_loop];
    [reflexivity|].
  rewrite list_insert_ge by lia. apply IH. lia.
Qed.

Lemma for_loop_store_over {A} (f : nat -> A) (n extra : nat) (d : A) :
  for_loop 0 (n + extra) (fun i a => <[i := f i]> a) (replicate n d)
  = map f (seq 0 n).
Proof.
  rewrite for_loop_add.
  pose proof (for_loop_store f n O [] (replicate n d) eq_refl
                (length_replicate n d)) as H.
  cbn [app] in H. rewrite H. cbn [Nat.add].
  apply for_loop_store_beyond. now rewrite length_map, length_seq.
Qed.

Section Channels.
Variables (rate : Z) (n : nat) (fill : nat -> list number -> list number)
          (g : nat -> list number) (zeros : list number).
Hypothesis fill_zeros : forall channel, fill channel zeros = g channel.

Lemma channel_loop count :
  forall start (done : list (list number)),
    List.length done = start ->
    for_loop start count
      (fun channel buffer =>
         let channelData := default [] (channels buffer !! channel) in
         let channelData := fill channel channelData in
         {| sampleRate := sampleRate buffer;
            WebAudio.length := WebAudio.length buffer;
            channels := <[channel := channelData]> (channels buffer) |})
      {| sampleRate := rate; WebAudio.length := n;
         channels := done ++ replicate count zeros |}
    = {| sampleRate := rate; WebAudio.length := n;
         channels := done ++ map g (seq start count) |}.
Proof.
  induction count as [|count IH]; intros start done Hd;
    cbn [for_loop replicate seq map]; [reflexivity|].
  cbn [sampleRate WebAudio.length channels].
  rewrite lookup_app_r by lia.
  replace (start - List.length done)%nat with O by lia.
  cbn [lookup list_lookup default]. unfold id.
  rewrite fill_zeros.
  rewrite insert_app_r_alt by lia.
  replace (start - List.length done)%nat with O by lia.
  cbn [insert list_insert].
  assert (forall l, done ++ g start :: l = (done ++ [g start]) ++ l) as E
    by (intros l; now rewrite <- app_assoc).
  rewrite (E (replicate count zeros)), (E (map g (seq (Datatypes.S start) count))).
  apply (IH (Datatypes.S start) (done ++ [g start])).
  rewrite length_app. cbn. lia.
Qed.
End Channels.






Lemma decodeAudioData_channels (data : list Z) (rate k : Z) :
  supported rate k ->
  (List.length data mod 2 = 0)%nat ->
  k <= Z.of_nat (List.length data / 2) < 2 ^ 32 ->
  decodeAudioData data rate k
  = Ok {| sampleRate := rate;
          WebAudio.length := Z.to_nat (Z.of_nat (List.length data / 2) / k);
          channels :=
            deinterleaved (int16_view data) (Z.to_nat k)
              (Z.to_nat (Z.of_nat (List.length data / 2) / k)) |}.
Proof.
  intros [Hk Hrate] Heven [Hlow Hhigh].
  unfold decodeAudioData, Int16Array_of_buffer.
  replace (Z.of_nat (List.length data) mod 2) with 0
    by (rewrite <- (Nat2Z.inj_mod _ 2), Heven; reflexivity).
  cbn [Z.eqb mbind result_bind].
  rewrite int16_view_length.
  set (m := Z.of_nat (List.length data / 2)) in *.
  unfold divide. destruct (Z.eqb_spec k 0) as [->|_]; [lia|].
  rewrite createBuffer_within by assumption. unfold ToUintN.
  rewrite truncate_quotient by lia.
  assert (1 <= m / k) as Hone.
  { apply Z.div_le_lower_bound; lia. }
  assert (m / k <= m) as Hle.
  { apply Z.div_le_upper_bound; nia. }
  rewrite (Z.mod_small (m / k)) by lia.
  destruct (Z.eqb_spec (m / k) 0) as [?|_]; [lia|].
  cbn [mbind result_bind]. f_equal.
  set (n := Z.to_nat (m / k)).
  set (K := Z.to_nat k).
  assert (exists extra, passes (Num (inject_Z m / inject_Z k)) = (n + extra)%nat)
    as [extra ->].
  { exists (passes (Num (inject_Z m / inject_Z k)) - n)%nat.
    enough (n <= passes (Num (inject_Z m / inject_Z k)))%nat by lia.
    assert (m / k <= Qceiling (inject_Z m / inject_Z k)) as Hc.
    { rewrite <- (truncate_quotient m k) by lia.
      assert (0 <= inject_Z m / inject_Z k)%Q as Hq.
      { apply Qle_shift_div_l.
        - change 0%Q with (inject_Z 0). rewrite <- Zlt_Qlt. lia.
        - rewrite Qmult_0_l. change 0%Q with (inject_Z 0).
          rewrite <- Zle_Qle. lia. }
      destruct (truncate_nonneg _ Hq) as [Ht _].
      rewrite Zle_Qle. eapply Qle_trans; [exact Ht|apply Qle_ceiling]. }
    unfold passes, n. apply Z2Nat.inj_le; lia. }
  pose proof (channel_loop rate n
                (fun channel channelData =>
                   for_loop 0 (n + extra)
                     (fun i channelData =>
                        <[i := scale
                                 (read_int (int16_view data) (i * K + channel))
                                 (1 / 32768)]> channelData)
                     channelData)
                (fun channel =>
                   map (fun i =>
                          scale (read_int (int16_view data) (i * K + channel))
                            (1 / 32768))
                       (seq 0 n))
                (replicate n (Num 0))
                (fun channel => for_loop_store_over _ n extra (Num 0))
                K O [] eq_refl) as H.
  cbn [app] in H. rewrite H. clear H. f_equal.
  unfold deinterleaved. apply map_ext_in. intros c Hc.
  apply map_ext_in. intros i Hi.
  apply in_seq in Hc, Hi.
  unfold read_int.
  assert (i * K + c < List.length (int16_view data))%nat as Hidx.
  { rewrite int16_view_length.
    assert (Z.of_nat n * k <= m) as Hnk.
    { unfold n. rewrite Z2Nat.id by lia. rewrite Z.mul_comm.
      apply Z.mul_div_le. lia. }
    unfold m in Hnk. unfold K. nia. }
  destruct (lookup_lt_is_Some_2 _ _ Hidx) as [v ->]. reflexivity.
Qed.


(** X5: at a sample rate and a channel count [k] that every implementation
    of [createBuffer] supports, for a buffer of [m] 16-bit samples with
    [k <= m < 2^32], [decodeAudioData] creates [floor (m / k)] frames;
    channel [c] receives the samples at the positions [i * k + c], each
    divided by 32768; the samples of an incomplete last frame are
    dropped. *)
Theorem decodeAudioData_deinterleaves (data : list Z) (rate k : Z) :
  supported rate k ->
  (List.length data mod 2 = 0)%nat ->
  k <= Z.of_nat (List.length data / 2) < 2 ^ 32 ->
  decodeAudioData data rate k
  = Ok {| sampleRate := rate;
          WebAudio.length := Z.to_nat (Z.of_nat (List.length data / 2) / k);
          channels :=
            deinterleaved (int16_view data) (Z.to_nat k)
              (Z.to_nat (Z.of_nat (List.length data / 2) / k)) |}.
Proof. exact (decodeAudioData_channels data rate k). Qed.

Lemma decodeAudioData_deinterleaves_witness :
  supported 48000 2
  /\ decodeAudioData [1; 0; 2; 0; 3; 0; 4; 0; 5; 0] 48000 2
     = Ok {| sampleRate := 48000;
             WebAudio.length := 2;
             channels := [[Num (1 # 32768); Num (3 # 32768)];
                          [Num (2 # 32768); Num (4 # 32768)]] |}.
Proof.
  assert (supported 48000 2) as Hs
      by (unfold supported, maxChannels, minSampleRate, maxSampleRate; lia).
  split; [exact Hs|].
  apply (decodeAudioData_deinterleaves [1; 0; 2; 0; 3; 0; 4; 0; 5; 0] 48000 2);
    [exact Hs|reflexivity|split; [intros H; discriminate H|reflexivity]].
Defined.



(** ** The WAV writer: the format chunk and [writeString] *)

Lemma little_endian_bytes_range n v : Forall byte (little_endian n v).
Proof.
  revert v. induction n as [|n IH]; intros v; cbn [little_endian];
    constructor; [|apply IH].
  unfold byte. apply Z.mod_pos_bound. lia.
Qed.

Lemma wav_file_bytes (pcm : list Z) (rate channels : Z) :
  Forall byte pcm -> Forall byte (wav_file pcm rate channels).
Proof.
  intros Hpcm. unfold wav_file.
  change (jsstr "RIFF") with [82; 73; 70; 70].
  change (jsstr "WAVE") with [87; 65; 86; 69].
  change (jsstr "fmt ") with [102; 109; 116; 32].
  change (jsstr "data") with [100; 97; 116; 97].
  repeat (apply Forall_app; split);
    try apply little_endian_bytes_range; try exact Hpcm;
    repeat constructor; unfold byte; lia.
Qed.

Lemma wav_file_format (pcm : list Z) (rate channels : Z) :
  let bytes := wav_file pcm rate channels in
  take 4 (drop 8 bytes) = jsstr "WAVE"
  /\ take 4 (drop 12 bytes) = jsstr "fmt "
  /\ getUint32 bytes 16 = 16
  /\ getUint16 bytes 20 = 1
  /\ getUint16 bytes 22 = channels mod 2 ^ 16
  /\ getUint32 bytes 24 = rate mod 2 ^ 32
  /\ getUint16 bytes 34 = 16.
Proof.
  unfold wav_file.
  change (jsstr "RIFF") with [82; 73; 70; 70].
  change (jsstr "WAVE") with [87; 65; 86; 69].
  change (jsstr "fmt ") with [102; 109; 116; 32].
  change (jsstr "data") with [100; 97; 116; 97].
  cbn [little_endian app]. cbv zeta.
  unfold getUint32, getUint16.
  cbn [List.length take drop lookup list_lookup default from_option id
       Nat.add].
  change (2 ^ 32) with 4294967296. change (2 ^ 16) with 65536.
  repeat split; Z.div_mod_to_equations; lia.
Qed.

(** X7: besides the sizes, the header [convertPcmToWavBlob] writes names
    the container and the format: WAVE, a 16-byte fmt chunk, PCM (format
    1), the channel count and the sample rate as given (reduced to the
    width of their fields), 16 bits per sample; every element of the file
    is a byte and the blob is typed audio/wav. *)
Theorem wav_format_chunk (pcm : list Z) (rate channels : Z) :
  Forall byte pcm ->
  exists blob,
    convertPcmToWavBlob pcm rate channels = Ok blob
    /\ blobType blob = jsstr "audio/wav"
    /\ take 4 (drop 8 (blobBytes blob)) = jsstr "WAVE"
    /\ take 4 (drop 12 (blobBytes blob)) = jsstr "fmt "
    /\ getUint32 (blobBytes blob) 16 = 16
    /\ getUint16 (blobBytes blob) 20 = 1
    /\ getUint16 (blobBytes blob) 22 = channels mod 2 ^ 16
    /\ getUint32 (blobBytes blob) 24 = rate mod 2 ^ 32
    /\ getUint16 (blobBytes blob) 34 = 16
    /\ Forall byte (blobBytes blob).
Proof.
  intros Hpcm. eexists. split; [apply convertPcmToWavBlob_layout, Hpcm|].
  cbn [blobBytes blobType]. split; [reflexivity|].
  pose proof (wav_file_format pcm rate channels) as H. cbv zeta in H.
  pose proof (wav_file_bytes pcm rate channels Hpcm).
  tauto.
Qed.

Lemma wav_format_chunk_witness :
  Forall byte [1; 2; 3; 4]
  /\ exists blob,
      convertPcmToWavBlob [1; 2; 3; 4] 44100 2 = Ok blob
      /\ getUint16 (blobBytes blob) 22 = 2
      /\ getUint32 (blobBytes blob) 24 = 44100.
Proof.
  assert (Forall byte [1; 2; 3; 4]) as Hb.
  { repeat constructor; unfold byte; lia. }
  split; [exact Hb|].
  destruct (wav_format_chunk [1; 2; 3; 4] 44100 2 Hb)
    as (blob & H0 & _ & _ & _ & _ & _ & H5 & H6 & _).
  exists blob. split; [exact H0|]. split; [exact H5|exact H6].
Defined.

(** [writeString]. *)
Lemma for_loop_throw {A} (body : nat -> result A -> result A) (e : exn) count :
  (forall i, body i (Throw e) = Throw e) ->
  forall start, for_loop start count body (Throw e) = Throw e.
Proof.
  intros Hb. induction count as [|count IH]; intros start; cbn [for_loop];
    [reflexivity|].
  rewrite Hb. apply IH.
Qed.

Lemma for_loop_setUint8_segment (f : nat -> Z) (off count : nat) :
  forall start (done rest post : list Z),
    List.length done = (off + start)%nat -> List.length rest = count ->
    for_loop start count
      (fun i r => view ← r; setUint8 view (off + i) (f i))
      (Ok (done ++ rest ++ post))
    = Ok (done ++ map (fun i => Z.land (f i) 255) (seq start count) ++ post).
Proof.
  induction count as [|count IH]; intros start done rest post Hd Hr.
  - destruct rest; [|discriminate]. reflexivity.
  - destruct rest as [|x rest]; [discriminate|].
    cbn [for_loop mbind result_bind].
    assert (setUint8 (done ++ (x :: rest) ++ post) (off + start) (f start)
            = Ok ((done ++ [Z.land (f start) 255]) ++ rest ++ post)) as ->.
    { unfold setUint8. rewrite !length_app. cbn [List.length].
      destruct (Nat.leb_spec (off + start + 1)
                  (List.length done
                   + (S (List.length rest) + List.length post))); [|lia].
      rewrite <- Hd.
      rewrite insert_app_r_alt by lia.
      rewrite Nat.sub_diag. cbn [insert list_insert app].
      now rewrite <- app_assoc. }
    rewrite IH.
    + rewrite <- app_assoc. reflexivity.
    + rewrite length_app. cbn [List.length]. lia.
    + cbn [List.length] in Hr. lia.
Qed.

Lemma for_loop_setUint8_middle (f : nat -> Z) (off count : nat) :
  forall (view : list Z),
    (off + count <= List.length view)%nat ->
    for_loop 0 count
      (fun i r => view ← r; setUint8 view (off + i) (f i))
      (Ok view)
    = Ok (take off view
          ++ map (fun i => Z.land (f i) 255) (seq 0 count)
          ++ drop (off + count) view).
Proof.
  intros view Hlen.
  rewrite <- (take_drop off view) at 1.
  rewrite <- (take_drop count (drop off view)) at 1.
  rewrite drop_drop.
  apply for_loop_setUint8_segment.
  - rewrite length_take. lia.
  - rewrite length_take, length_drop. lia.
Qed.

Lemma writeString_in_bounds (view : list Z) (offset : nat) (s : jsstring) :
  (offset + List.length s <= List.length view)%nat ->
  writeString view offset s
  = Ok (take offset view ++ map (fun c => Z.land c 255) s
        ++ drop (offset + List.length s) view).
Proof.
  intros Hlen. unfold writeString.
  rewrite (for_loop_setUint8_middle (charCodeAt s) offset (List.length s))
    by lia.
  do 2 f_equal.
  pose proof (map_seq_lookup (fun o => Z.land (default 0 o) 255) s O []
                eq_refl) as H.
  cbn [app] in H. unfold charCodeAt. rewrite H.
  reflexivity.
Qed.

Lemma writeString_out_of_bounds (view : list Z) (offset : nat) (s : jsstring) :
  s <> [] ->
  (List.length view < offset + List.length s)%nat ->
  writeString view offset s = Throw RangeError.
Proof.
  intros Hs Hlen. unfold writeString.
  set (i0 := (List.length view - offset)%nat).
  assert (i0 < List.length s)%nat as Hi0.
  { unfold i0. destruct s; [congruence|]. cbn [List.length] in *. lia. }
  replace (List.length s) with (i0 + Datatypes.S (List.length s - i0 - 1))%nat
    by lia.
  rewrite for_loop_add. cbn [Nat.add].
  destruct (Nat.le_gt_cases offset (List.length view)) as [Hle|Hgt].
  - rewrite (for_loop_setUint8_middle (charCodeAt s) offset i0)
      by (unfold i0; lia).
    cbn [for_loop mbind result_bind]. unfold setUint8 at 2.
    match goal with
    | |- context [(?a <=? ?b)%nat] =>
        destruct (Nat.leb_spec a b) as [Hin|_]
    end.
    + rewrite !length_app, length_take, length_map, length_seq, length_drop
        in Hin. unfold i0 in Hin. lia.
    + apply for_loop_throw. reflexivity.
  - replace i0 with O by (unfold i0; lia).
    cbn [for_loop mbind result_bind]. unfold setUint8 at 2.
    destruct (Nat.leb_spec (offset + 0 + 1) (List.length view)); [lia|].
    apply for_loop_throw. reflexivity.
Qed.

(** X8: [writeString] stores the low byte of every code unit of the text
    from the offset on and leaves the other bytes as they were; when the
    text does not fit into the view, the RangeError of [setUint8]
    escapes. *)
Theorem writeString_bounds (view : list Z) (offset : nat) (s : jsstring) :
  ((offset + List.length s <= List.length view)%nat ->
   writeString view offset s
   = Ok (take offset view ++ map (fun c => Z.land c 255) s
         ++ drop (offset + List.length s) view))
  /\ (s <> [] ->
      (List.length view < offset + List.length s)%nat ->
      writeString view offset s = Throw RangeError).
Proof.
  split.
  - apply writeString_in_bounds.
  - apply writeString_out_of_bounds.
Qed.

Lemma writeString_bounds_witness :
  writeString [0; 0; 0; 0; 0; 0] 1 (jsstr "ab") = Ok [0; 97; 98; 0; 0; 0]
  /\ writeString [0; 0; 0; 0; 0; 0] 5 (jsstr "ab") = Throw RangeError.
Proof.
  split.
  - apply (proj1 (writeString_bounds [0; 0; 0; 0; 0; 0] 1 (jsstr "ab"))).
    cbn. lia.
  - apply (proj2 (writeString_bounds [0; 0; 0; 0; 0; 0] 5 (jsstr "ab"))).
    + discriminate.
    + cbn. lia.
Defined.

(** X9: the composition the narration download performs.  Whatever text
    [decode] accepts, [convertPcmToWavBlob] turns the bytes into a WAV file
    without raising: 44 header bytes for 24000 Hz, one channel, 48000
    bytes per second, 2 bytes per frame, followed by exactly the decoded
    bytes. *)
Theorem narration_wav (audio : jsstring) (pcm : list Z) :
  decode audio = Ok pcm ->
  exists blob,
    convertPcmToWavBlob pcm OUTPUT_AUDIO_SAMPLE_RATE AUDIO_NUM_CHANNELS
    = Ok blob
    /\ blobBytes blob = wav_file pcm 24000 1
    /\ List.length (blobBytes blob) = (44 + List.length pcm)%nat
    /\ drop 44 (blobBytes blob) = pcm
    /\ getUint16 (blobBytes blob) 22 = 1
    /\ getUint32 (blobBytes blob) 24 = 24000
    /\ getUint32 (blobBytes blob) 28 = 48000
    /\ getUint16 (blobBytes blob) 32 = 2.
Proof.
  intros H. pose proof (decode_bytes audio pcm H) as Hpcm.
  eexists. split; [apply convertPcmToWavBlob_layout, Hpcm|].
  cbn [blobBytes].
  pose proof (wav_file_format pcm 24000 1) as Hf. cbv zeta in Hf.
  pose proof (wav_file_fields pcm 24000 1) as Hs. cbv zeta in Hs.
  change (24000 * 1 * 2) with 48000 in Hs. change (1 * 2) with 2 in Hs.
  change (48000 mod 2 ^ 32) with 48000 in Hs.
  change (2 mod 2 ^ 16) with 2 in Hs.
  change (1 mod 2 ^ 16) with 1 in Hf.
  change (24000 mod 2 ^ 32) with 24000 in Hf.
  unfold OUTPUT_AUDIO_SAMPLE_RATE, AUDIO_NUM_CHANNELS.
  tauto.
Qed.

Lemma narration_wav_witness :
  decode chunk = Ok [0; 64; 0; 32]
  /\ exists blob,
      convertPcmToWavBlob [0; 64; 0; 32] OUTPUT_AUDIO_SAMPLE_RATE
        AUDIO_NUM_CHANNELS = Ok blob
      /\ List.length (blobBytes blob) = 48%nat
      /\ drop 44 (blobBytes blob) = [0; 64; 0; 32].
Proof.
  assert (decode chunk = Ok [0; 64; 0; 32]) as H by (vm_compute; reflexivity).
  split; [exact H|].
  destruct (narration_wav chunk [0; 64; 0; 32] H)
    as (blob & H0 & _ & H2 & H3 & _).
  exists blob. split; [exact H0|]. split; [exact H2|exact H3].
Defined.

(** ** The live session: when the handler rejects, and what it leaves alone *)

Lemma audioOf_throws (message : LiveServerMessage) e :
  audioOf message = Throw e ->
  e = TypeError
  /\ exists sc turn,
      serverContent message = Some sc /\ modelTurn sc = Some turn
      /\ parts turn = None.
Proof.
  unfold audioOf.
  destruct (serverContent message) as [sc|]; [|discriminate].
  destruct (modelTurn sc) as [turn|] eqn:Ht; [|discriminate].
  destruct (parts turn) as [ps|] eqn:Hp; [discriminate|].
  intros H. injection H as <-. split; [reflexivity|].
  exists sc, turn. repeat split; assumption.
Qed.

Lemma audioOf_without_parts (message : LiveServerMessage) sc turn :
  serverContent message = Some sc -> modelTurn sc = Some turn ->
  parts turn = None ->
  audioOf message = Throw TypeError.
Proof. intros Hsc Ht Hp. unfold audioOf. now rewrite Hsc, Ht, Hp. Qed.

Lemma handleInterrupted_total message w :
  sources_started w -> is_Ok (handleInterrupted message w).
Proof.
  intros Hs. destruct (serverContent message) as [sc|] eqn:Hsc.
  - destruct (interrupted sc) eqn:Hint.
    + rewrite (handleInterrupted_run message w sc Hs Hsc Hint).
      eexists. reflexivity.
    + unfold handleInterrupted. rewrite Hsc, Hint. eexists. reflexivity.
  - unfold handleInterrupted. rewrite Hsc. eexists. reflexivity.
Qed.

Lemma handleLiveMessage_runs c env message a w :
  invariant w -> audioOf message = Ok a ->
  is_Ok (handleLiveMessage c env message w).
Proof.
  intros Hinv Ha. unfold handleLiveMessage. rewrite Ha.
  cbn [mbind result_bind]. apply handleInterrupted_total.
  apply invariant_handleTurnComplete, invariant_handleTranscription,
    invariant_handleAudio, Hinv.
Qed.

(** X10: in a state the component can reach, [handleLiveMessage] rejects
    exactly on a message whose model turn has no [parts] (the one access
    of the path that is not optional), with a TypeError and before any
    change; on every other message it runs to its end. *)
Theorem handler_rejects_only_without_parts
    (c : Closure) (env : Env) (message : LiveServerMessage) (w : World) :
  reachable w ->
  (throws (handleLiveMessage c env message w)
   <-> exists sc turn,
         serverContent message = Some sc /\ modelTurn sc = Some turn
         /\ parts turn = None)
  /\ (forall e, handleLiveMessage c env message w = Throw e -> e = TypeError).
Proof.
  intros Hreach. pose proof (reachable_invariant w Hreach) as Hinv.
  destruct (audioOf message) as [a|e] eqn:Ha.
  - destruct (handleLiveMessage_runs c env message a w Hinv Ha) as [w' Hrun].
    split; [split|].
    + intros [e He]. congruence.
    + intros (sc & turn & Hsc & Ht & Hp).
      rewrite (audioOf_without_parts message sc turn Hsc Ht Hp) in Ha.
      discriminate Ha.
    + intros e He. congruence.
  - destruct (audioOf_throws message e Ha) as [-> Hparts].
    assert (handleLiveMessage c env message w = Throw TypeError) as Hrun.
    { unfold handleLiveMessage. now rewrite Ha. }
    split; [split|].
    + intros _. exact Hparts.
    + intros _. now exists TypeError.
    + intros e He. congruence.
Qed.

Lemma handler_rejects_only_without_parts_witness :
  reachable connected
  /\ throws
       (handleLiveMessage (render initial) (at_time 0)
          {| serverContent := Some
               {| modelTurn := Some {| parts := None |};
                  outputTranscription := None; inputTranscription := None;
                  turnComplete := false; interrupted := false |} |}
          connected).
Proof.
  split; [exact reachable_connected|].
  apply (proj1 (handler_rejects_only_without_parts (render initial)
                  (at_time 0) _ connected reachable_connected)).
  eexists. eexists. repeat split; reflexivity.
Defined.

Lemma started_inv s w :
  started s w = true ->
  exists when buffer, SourceStarted s when buffer ∈ effects w.
Proof.
  unfold started. intros H. apply existsb_exists in H as (e & Hin & He).
  destruct e as [| | | |s' when buffer| |]; try discriminate.
  apply Nat.eqb_eq in He as ->. exists when, buffer.
  apply list_elem_of_In, Hin.
Qed.

(** X11: in every state the component can reach, each source in the
    playback set was started ([stop] on it cannot raise), and while there
    is no output context the set is empty and the scheduling cursor is
    zero. *)
Theorem playback_set_invariant (w : World) :
  reachable w ->
  (forall s, s ∈ playbackSourcesRef (refs w) ->
             exists when buffer, SourceStarted s when buffer ∈ effects w)
  /\ (outputAudioContextRef (refs w) = None ->
      playbackSourcesRef (refs w) = ∅ /\ nextStartTimeRef (refs w) = 0%Q).
Proof.
  intros Hreach. destruct (reachable_invariant w Hreach) as [Hs Hi].
  split; [|exact Hi].
  intros s Hin. apply started_inv, Hs, Hin.
Qed.

Lemma playback_set_invariant_witness :
  reachable scheduled
  /\ forall s, s ∈ playbackSourcesRef (refs scheduled) ->
               exists when buffer,
                 SourceStarted s when buffer ∈ effects scheduled.
Proof.
  split; [exact (proj1 reachable_scheduled)|].
  exact (proj1 (playback_set_invariant scheduled (proj1 reachable_scheduled))).
Defined.

(** What the audio branch adds to the platform calls, and the cells it
    keeps. *)
Lemma handleAudio_effects env a w :
  let w' := handleAudio env a w in
  (effects w' = effects w
   \/ effects w' = effects w ++ [ConsoleError]
   \/ exists s when buffer,
        effects w' = effects w ++ [SourceStarted s when buffer])
  /\ audioContextRef (refs w') = audioContextRef (refs w)
  /\ scriptProcessorRef (refs w') = scriptProcessorRef (refs w)
  /\ mediaStreamSourceRef (refs w') = mediaStreamSourceRef (refs w)
  /\ mediaStreamRef (refs w') = mediaStreamRef (refs w).
Proof.
  cbn zeta. unfold handleAudio.
  destruct a as [b|]; [|repeat split; now left].
  destruct (outputAudioContextRef (refs w)) as [ctx|] eqn:Hctx;
    [|repeat split; now left].
  destruct (truthy b); [|repeat split; now left].
  unfold enqueue_try.
  destruct (decode b ≫= _) as [buffer|e].
  - unfold start_source. cbn [create fst snd].
    destruct (Qle_bool 0 _); cbn -[Qmax Qplus fadd duration];
      repeat split; [right; right; eauto|right; left; reflexivity].
  - cbn -[Qmax]. repeat split. right. left. reflexivity.
Qed.

Lemma turn_stage_frame c env message w :
  let w' := handleTurnComplete c env message (handleTranscription message w) in
  refs w' = refs w
  /\ effects w' = effects w
  /\ callbacks w' = callbacks w
  /\ isRecording (state w') = isRecording (state w)
  /\ isLoading (state w') = isLoading (state w)
  /\ error (state w') = error (state w).
Proof.
  cbn zeta. unfold handleTurnComplete, handleTranscription.
  destruct (serverContent message) as [content|]; [|repeat split].
  destruct (outputTranscription content), (inputTranscription content),
    (turnComplete content), (truthy (trim (capturedInput c))),
    (truthy (trim (capturedOutput c))); repeat split.
Qed.

Lemma interrupt_stage_frame message w w' :
  sources_started w ->
  handleInterrupted message w = Ok w' ->
  audioContextRef (refs w') = audioContextRef (refs w)
  /\ outputAudioContextRef (refs w') = outputAudioContextRef (refs w)
  /\ scriptProcessorRef (refs w') = scriptProcessorRef (refs w)
  /\ mediaStreamSourceRef (refs w') = mediaStreamSourceRef (refs w)
  /\ liveSessionRef (refs w') = liveSessionRef (refs w)
  /\ mediaStreamRef (refs w') = mediaStreamRef (refs w)
  /\ callbacks w' = callbacks w
  /\ isRecording (state w') = isRecording (state w)
  /\ isLoading (state w') = isLoading (state w)
  /\ error (state w') = error (state w)
  /\ chatMessages (state w') = chatMessages (state w)
  /\ exists calls,
      effects w' = effects w ++ calls /\ Forall playback_call calls.
Proof.
  intros Hs Hrun.
  assert (w' = w
          \/ w' = clearCurrentTranscriptions
                    (set_nextStartTimeRef 0%Q
                       (set_playbackSources
                          (fun s => s ∖ list_to_set
                                          (elements (playbackSourcesRef (refs w))))
                          (emit_all
                             (map SourceStopped
                                (elements (playbackSourcesRef (refs w))))
                             w)))) as [->| ->].
  { destruct (serverContent message) as [content|] eqn:Hsc.
    - destruct (interrupted content) eqn:Hint.
      + rewrite (handleInterrupted_run message w content Hs Hsc Hint) in Hrun.
        injection Hrun as <-. now right.
      + unfold handleInterrupted in Hrun. rewrite Hsc, Hint in Hrun.
        injection Hrun as <-. now left.
    - unfold handleInterrupted in Hrun. rewrite Hsc in Hrun.
      injection Hrun as <-. now left. }
  - repeat split. exists []. rewrite app_nil_r. split; [reflexivity|constructor].
  - repeat split. eexists. split; [reflexivity|].
    apply Forall_map, List.Forall_forall. intros s _. exact I.
Qed.

(** X12: a server message never ends the session.  Whatever it carries,
    in a reachable state the handler leaves the recording flag, the
    loading flag, the error text, the six platform handles and the
    registered callbacks as they are, and the only platform calls it makes
    start a source, stop a source or log an error. *)
Theorem message_never_ends_the_session
    (c : Closure) (env : Env) (message : LiveServerMessage) (w w' : World) :
  reachable w ->
  handleLiveMessage c env message w = Ok w' ->
  isRecording (state w') = isRecording (state w)
  /\ isLoading (state w') = isLoading (state w)
  /\ error (state w') = error (state w)
  /\ audioContextRef (refs w') = audioContextRef (refs w)
  /\ outputAudioContextRef (refs w') = outputAudioContextRef (refs w)
  /\ scriptProcessorRef (refs w') = scriptProcessorRef (refs w)
  /\ mediaStreamSourceRef (refs w') = mediaStreamSourceRef (refs w)
  /\ liveSessionRef (refs w') = liveSessionRef (refs w)
  /\ mediaStreamRef (refs w') = mediaStreamRef (refs w)
  /\ callbacks w' = callbacks w
  /\ exists calls,
      effects w' = effects w ++ calls /\ Forall playback_call calls.
Proof.
  intros Hreach Hrun. pose proof (reachable_invariant w Hreach) as Hinv.
  unfold handleLiveMessage in Hrun.
  destruct (audioOf message) as [a|e]; [|discriminate].
  cbn [mbind result_bind] in Hrun.
  destruct (handleAudio_frame env a w) as (Hst & Hcb & Hoc & Hls & _ & _).
  destruct (handleAudio_effects env a w) as (Hef & Hac & Hsp & Hms & Hmr).
  pose proof (invariant_handleAudio env a w Hinv) as Hinv1.
  set (w1 := handleAudio env a w) in *.
  assert (exists l1, effects w1 = effects w ++ l1 /\ Forall playback_call l1)
    as (l1 & He1 & Hl1).
  { destruct Hef as [E|[E|(s & when & buffer & E)]].
    - exists []. rewrite app_nil_r. split; [exact E|constructor].
    - eexists. split; [exact E|]. repeat constructor.
    - eexists. split; [exact E|]. repeat constructor. }
  clear Hef.
  destruct (turn_stage_frame c env message w1)
    as (Hr3 & He3 & Hc3 & Hi3 & Hl3 & Her3).
  assert (invariant
            (handleTurnComplete c env message (handleTranscription message w1)))
    as Hinv3
    by apply invariant_handleTurnComplete, invariant_handleTranscription, Hinv1.
  set (w3 := handleTurnComplete c env message (handleTranscription message w1))
    in *.
  destruct (interrupt_stage_frame message w3 w' (proj1 Hinv3) Hrun)
    as (K1 & K2 & K3 & K4 & K5 & K6 & K7 & K8 & K9 & K10 & _ & l3 & K11 & K12).
  rewrite K1, K2, K3, K4, K5, K6, K7, K8, K9, K10, K11.
  rewrite Hr3, He3, Hc3, Hi3, Hl3, Her3, Hst, Hcb, Hoc, Hls, Hac, Hsp, Hms, Hmr.
  repeat split.
  exists (l1 ++ l3). rewrite He1, <- app_assoc. split; [reflexivity|].
  apply Forall_app. split; assumption.
Qed.

Lemma message_never_ends_the_session_witness :
  reachable scheduled
  /\ exists w',
      handleLiveMessage (render initial) (at_time 3) interruptedEvent
        scheduled = Ok w'
      /\ liveSessionRef (refs w') = liveSessionRef (refs scheduled)
      /\ isRecording (state w') = isRecording (state scheduled).
Proof.
  pose proof (proj1 reachable_scheduled) as Hreach.
  split; [exact Hreach|].
  destruct (handleLiveMessage_runs (render initial) (at_time 3)
              interruptedEvent None scheduled
              (reachable_invariant scheduled Hreach) eq_refl) as [w' Hrun].
  exists w'. split; [exact Hrun|].
  destruct (message_never_ends_the_session (render initial) (at_time 3)
              interruptedEvent scheduled w' Hreach Hrun)
    as (H1 & _ & _ & _ & _ & _ & _ & H8 & _).
  split; [exact H8|exact H1].
Defined.

(** ** The live session: errors, late messages, ended sources *)



(** X14: a message that arrives after the teardown plays nothing.  Once
    every handle is released, the handler makes no platform call and
    leaves the refs as they are, whatever the message carries; only the
    transcription texts and the chat history can still change. *)
Theorem message_after_teardown
    (c : Closure) (env : Env) (message : LiveServerMessage)
    (a : option jsstring) (w : World) :
  released w ->
  audioOf message = Ok a ->
  exists w',
    handleLiveMessage c env message w = Ok w'
    /\ effects w' = effects w
    /\ refs w' = refs w
    /\ released w'.
Proof.
  intros Hrel Ha.
  pose proof Hrel as (H1 & H2 & H3 & H4 & Hout & H6 & Hset & Hnext).
  unfold handleLiveMessage. rewrite Ha. cbn [mbind result_bind].
  assert (handleAudio env a w = w) as ->.
  { unfold handleAudio. destruct a; [|reflexivity]. now rewrite Hout. }
  destruct (turn_stage_frame c env message w) as (Hr & He & _).
  set (w3 := handleTurnComplete c env message (handleTranscription message w))
    in *.
  assert (exists w',
             handleInterrupted message w3 = Ok w'
             /\ effects w' = effects w3 /\ refs w' = refs w3)
    as (w' & Hrun & He' & Hr').
  { unfold handleInterrupted.
    destruct (serverContent message) as [content|]; [|now exists w3].
    destruct (interrupted content); [|now exists w3].
    rewrite Hr, Hset, elements_empty. cbn [fold_left mbind result_bind].
    eexists. split; [reflexivity|]. split; [reflexivity|].
    cbn [refs clearCurrentTranscriptions setCurrentOutputTranscription
         setCurrentInputTranscription with_state with_refs set_nextStartTimeRef].
    rewrite Hr. destruct (refs w). cbn in Hnext. now rewrite Hnext. }
  exists w'. split; [exact Hrun|].
  rewrite He', He, Hr', Hr. split; [reflexivity|]. split; [reflexivity|].
  unfold released. rewrite Hr', Hr. exact Hrel.
Qed.

Lemma message_after_teardown_witness :
  released initial
  /\ exists w',
      handleLiveMessage (render initial) (at_time 9) (audioDelta chunk) initial
      = Ok w'
      /\ effects w' = effects initial.
Proof.
  assert (released initial) as Hrel by (repeat split).
  split; [exact Hrel|].
  destruct (message_after_teardown (render initial) (at_time 9)
              (audioDelta chunk) (Some chunk) initial Hrel eq_refl)
    as (w' & H0 & H1 & _).
  exists w'. split; [exact H0|exact H1].
Defined.

(** X15: a source whose playback has ended is out of the queue.  An
    interruption that follows stops every other queued source and makes no
    call on the one that ended. *)
Theorem ended_source_is_not_stopped
    (c : Closure) (env : Env) (message : LiveServerMessage)
    (content : ServerContent) (s : nat) (w : World) :
  reachable w ->
  serverContent message = Some content ->
  interrupted content = true ->
  modelTurn content = None ->
  exists w' stops,
    handleLiveMessage c env message (sourceEnded s w) = Ok w'
    /\ effects w' = effects w ++ map SourceStopped stops
    /\ (s ∉ stops)
    /\ (forall t, t ∈ playbackSourcesRef (refs w) -> t <> s -> t ∈ stops)
    /\ playbackSourcesRef (refs w') = ∅.
Proof.
  intros Hreach Hsc Hint Hturn.
  pose proof (invariant_sourceEnded s w (reachable_invariant w Hreach))
    as Hinv.
  set (w0 := sourceEnded s w) in *.
  unfold handleLiveMessage.
  assert (audioOf message = Ok None) as ->.
  { unfold audioOf. now rewrite Hsc, Hturn. }
  cbn [mbind result_bind].
  change (handleAudio env None w0) with w0.
  destruct (turn_stage_frame c env message w0) as (Hr & He & _).
  assert (invariant
            (handleTurnComplete c env message (handleTranscription message w0)))
    as Hinv3
    by apply invariant_handleTurnComplete, invariant_handleTranscription, Hinv.
  set (w3 := handleTurnComplete c env message (handleTranscription message w0))
    in *.
  rewrite (handleInterrupted_run message w3 content (proj1 Hinv3) Hsc Hint).
  eexists. exists (elements (playbackSourcesRef (refs w) ∖ {[s]})).
  split; [reflexivity|].
  cbn [effects refs clearCurrentTranscriptions setCurrentOutputTranscription
       setCurrentInputTranscription with_state with_refs set_nextStartTimeRef
       set_playbackSources emit_all playbackSourcesRef].
  rewrite Hr, He. split; [reflexivity|]. split; [|split].
  - rewrite elem_of_elements. set_solver.
  - intros t Hin Hne. rewrite elem_of_elements. set_solver.
  - set_solver.
Qed.

Lemma ended_source_is_not_stopped_witness :
  reachable scheduled
  /\ exists w' stops,
      handleLiveMessage (render initial) (at_time 3) interruptedEvent
        (sourceEnded 6 scheduled) = Ok w'
      /\ effects w' = effects scheduled ++ map SourceStopped stops
      /\ (6%nat ∉ stops).
Proof.
  pose proof (proj1 reachable_scheduled) as Hreach.
  split; [exact Hreach|].
  destruct (ended_source_is_not_stopped (render initial) (at_time 3)
              interruptedEvent _ 6 scheduled Hreach eq_refl eq_refl eq_refl)
    as (w' & stops & H0 & H1 & H2 & _).
  exists w', stops. split; [exact H0|]. split; [exact H1|exact H2].
Defined.

(** ** The live session: transcriptions and turns *)

Lemma onmessage_registered session c env message w :
  callbacks w !! session = Some c ->
  onmessage session env message w = handleLiveMessage c env message w.
Proof. intros H. unfold onmessage. now rewrite H. Qed.

Lemma deliver_cons session env message events w :
  deliver session ((env, message) :: events) w
  = w' ← onmessage session env message w; deliver session events w'.
Proof.
  unfold deliver. cbn [fold_left fst snd mbind result_bind].
  destruct (onmessage session env message w) as [w'|e]; [reflexivity|].
  induction events as [|ev events IH]; [reflexivity|exact IH].
Qed.

Lemma handleLiveMessage_delta c env output t w :
  handleLiveMessage c env (delta output t) w
  = Ok (if output
        then setCurrentOutputTranscription (fun prev => prev ++ t) w
        else setCurrentInputTranscription (fun prev => prev ++ t) w).
Proof. destruct output; reflexivity. Qed.

(** X16: transcription deltas accumulate.  Whatever the order in which
    deltas of the user and of the model arrive in a session, after the
    last one each of the two texts is the old text followed by the deltas
    of that speaker in arrival order; nothing is played, no chat message
    is created, no ref changes. *)
Theorem transcriptions_accumulate
    (session : nat) (c : Closure) (deltas : list (Env * (bool * jsstring)))
    (w : World) :
  callbacks w !! session = Some c ->
  exists w',
    deliver session
      (map (fun d => (fst d, delta (fst (snd d)) (snd (snd d)))) deltas) w
    = Ok w'
    /\ currentInputTranscription (state w')
       = currentInputTranscription (state w) ++ spoken false deltas
    /\ currentOutputTranscription (state w')
       = currentOutputTranscription (state w) ++ spoken true deltas
    /\ chatMessages (state w') = chatMessages (state w)
    /\ effects w' = effects w
    /\ refs w' = refs w.
Proof.
  revert w. induction deltas as [|[env [output t]] deltas IH]; intros w Hcb.
  - exists w. unfold spoken. cbn. rewrite !app_nil_r. repeat split.
  - cbn [map fst snd]. rewrite deliver_cons.
    rewrite (onmessage_registered session c env _ w Hcb).
    rewrite handleLiveMessage_delta. cbn [mbind result_bind].
    set (w1 := if output then _ else _).
    assert (callbacks w1 !! session = Some c) as Hcb1
      by (unfold w1; destruct output; exact Hcb).
    destruct (IH w1 Hcb1) as (w' & Hrun & Hin & Hout & Hchat & Hef & Hrf).
    exists w'. split; [exact Hrun|].
    rewrite Hin, Hout, Hchat, Hef, Hrf.
    unfold spoken. cbn [flat_map fst snd].
    unfold w1. destruct output; cbn; rewrite <- ?app_assoc; repeat split.
Qed.

Lemma transcriptions_accumulate_witness :
  callbacks connected !! 5%nat = Some (render initial)
  /\ exists w',
      deliver 5
        [(at_time 1, inputDelta (jsstr "hel"));
         (at_time 2, outputDelta (jsstr "hi"));
         (at_time 3, inputDelta (jsstr "lo"))] connected = Ok w'
      /\ currentInputTranscription (state w') = jsstr "hello"
      /\ currentOutputTranscription (state w') = jsstr "hi".
Proof.
  assert (callbacks connected !! 5%nat = Some (render initial)) as Hcb
    by (vm_compute; reflexivity).
  split; [exact Hcb|].
  destruct (transcriptions_accumulate 5 (render initial)
              [(at_time 1, (false, jsstr "hel"));
               (at_time 2, (true, jsstr "hi"));
               (at_time 3, (false, jsstr "lo"))] connected Hcb)
    as (w' & H0 & H1 & H2 & _).
  exists w'. split; [exact H0|]. split; [exact H1|exact H2].
Defined.

(** X17: a message that carries both transcriptions updates only the
    model's text: the branch for the user's text is an [else if], so the
    user's words of that message are dropped.  A transcription without a
    text appends the word "undefined". *)
Theorem output_transcription_shadows_input
    (c : Closure) (env : Env) (message : LiveServerMessage)
    (content : ServerContent) (o i : Transcription) (w w' : World) :
  serverContent message = Some content ->
  outputTranscription content = Some o ->
  inputTranscription content = Some i ->
  turnComplete content = false ->
  interrupted content = false ->
  handleLiveMessage c env message w = Ok w' ->
  currentOutputTranscription (state w')
  = currentOutputTranscription (state w) ++ interpolate (transcription_text o)
  /\ currentInputTranscription (state w') = currentInputTranscription (state w).
Proof.
  intros Hsc Ho Hi Hturn Hint Hrun. unfold handleLiveMessage in Hrun.
  destruct (audioOf message) as [a|e]; [|discriminate].
  cbn [mbind result_bind] in Hrun.
  destruct (handleAudio_frame env a w) as (Hst & _).
  set (w1 := handleAudio env a w) in *.
  rewrite handleInterrupted_skip in Hrun by (intros ? E; congruence).
  rewrite (handleTurnComplete_skip c env message content _ Hsc Hturn) in Hrun.
  injection Hrun as <-. unfold handleTranscription. rewrite Hsc, Ho.
  cbn. rewrite Hst. split; reflexivity.
Qed.

Lemma output_transcription_shadows_input_witness :
  exists w',
    handleLiveMessage (render initial) (at_time 1)
      {| serverContent := Some
           {| modelTurn := None;
              outputTranscription := Some {| transcription_text := None |};
              inputTranscription :=
                Some {| transcription_text := Some (jsstr "lost") |};
              turnComplete := false; interrupted := false |} |}
      initial = Ok w'
    /\ currentOutputTranscription (state w') = jsstr "undefined"
    /\ currentInputTranscription (state w') = [].
Proof.
  eexists. split; [reflexivity|].
  apply (output_transcription_shadows_input (render initial) (at_time 1)
           {| serverContent := Some
                {| modelTurn := None;
                   outputTranscription := Some {| transcription_text := None |};
                   inputTranscription :=
                     Some {| transcription_text := Some (jsstr "lost") |};
                   turnComplete := false; interrupted := false |} |}
           {| modelTurn := None;
              outputTranscription := Some {| transcription_text := None |};
              inputTranscription :=
                Some {| transcription_text := Some (jsstr "lost") |};
              turnComplete := false; interrupted := false |}
           {| transcription_text := None |}
           {| transcription_text := Some (jsstr "lost") |}
           initial); reflexivity.
Defined.

(** X18: how a session finalizes a turn.  On a turn-complete message the
    session appends to the chat history the user's text and then the
    model's text as its callbacks captured them when the session was
    started, each only when it is not blank, and empties both current
    texts; what the current texts hold at that moment does not enter the
    messages. *)
Theorem turn_completion_uses_captured_texts
    (session : nat) (c : Closure) (env : Env) (message : LiveServerMessage)
    (content : ServerContent) (w : World) :
  callbacks w !! session = Some c ->
  serverContent message = Some content ->
  turnComplete content = true ->
  interrupted content = false ->
  modelTurn content = None ->
  exists w',
    onmessage session env message w = Ok w'
    /\ chatMessages (state w')
       = chatMessages (state w)
         ++ (if truthy (trim (capturedInput c))
             then [{| role := USER; content := capturedInput c;
                      timestamp := dateUser env |}]
             else [])
         ++ (if truthy (trim (capturedOutput c))
             then [{| role := MODEL; content := capturedOutput c;
                      timestamp := dateModel env |}]
             else [])
    /\ currentInputTranscription (state w') = []
    /\ currentOutputTranscription (state w') = [].
Proof.
  intros Hcb Hsc Hturn Hint Hmodel.
  rewrite (onmessage_registered session c env message w Hcb).
  unfold handleLiveMessage.
  assert (audioOf message = Ok None) as ->.
  { unfold audioOf. now rewrite Hsc, Hmodel. }
  cbn [mbind result_bind]. change (handleAudio env None w) with w.
  rewrite handleInterrupted_skip by (intros ? E; congruence).
  eexists. split; [reflexivity|].
  destruct (handleTurnComplete_finalizes c env message content
              (handleTranscription message w) Hsc Hturn) as (H1 & H2 & H3).
  destruct (handleTranscription_frame message w) as (_ & _ & _ & _ & Hchat).
  rewrite H1, Hchat. repeat split; assumption.
Qed.

Lemma turn_completion_uses_captured_texts_witness :
  callbacks resumed !! 11%nat
  = Some {| capturedInput := jsstr "foo"; capturedOutput := [];
            capturedIsRecording := false |}
  /\ currentInputTranscription (state resumed) = jsstr " "
  /\ chatMessages (state resumed) = []
  /\ exists w',
      onmessage 11 (at_time 8) turnCompleteEvent resumed = Ok w'
      /\ chatMessages (state w')
         = [{| role := USER; content := jsstr "foo"; timestamp := 1000 |}]
      /\ currentInputTranscription (state w') = []
      /\ currentOutputTranscription (state w') = [].
Proof.
  assert (callbacks resumed !! 11%nat
          = Some {| capturedInput := jsstr "foo"; capturedOutput := [];
                    capturedIsRecording := false |}) as Hcb
    by (vm_compute; reflexivity).
  assert (chatMessages (state resumed) = []) as Hchat
    by (vm_compute; reflexivity).
  split; [exact Hcb|]. split; [vm_compute; reflexivity|].
  split; [exact Hchat|].
  destruct (turn_completion_uses_captured_texts 11
              {| capturedInput := jsstr "foo"; capturedOutput := [];
                 capturedIsRecording := false |}
              (at_time 8) turnCompleteEvent
              {| modelTurn := None; outputTranscription := None;
                 inputTranscription := None; turnComplete := true;
                 interrupted := false |}
              resumed Hcb eq_refl eq_refl eq_refl eq_refl)
    as (w' & H0 & H1 & H2 & H3).
  exists w'. split; [exact H0|].
  split; [rewrite H1, Hchat; vm_compute; reflexivity|].
  split; [exact H2|exact H3].
Defined.

(** X19: a session whose callbacks captured blank texts records nothing.
    Whatever messages it receives, including turn completions after the
    user and the model have spoken, it never adds a message to the chat
    history. *)
Theorem blank_session_records_nothing
    (session : nat) (c : Closure) (env : Env) (message : LiveServerMessage)
    (w w' : World) :
  reachable w ->
  callbacks w !! session = Some c ->
  truthy (trim (capturedInput c)) = false ->
  truthy (trim (capturedOutput c)) = false ->
  onmessage session env message w = Ok w' ->
  chatMessages (state w') = chatMessages (state w).
Proof.
  intros Hreach Hcb Hin Hout Hrun.
  pose proof (reachable_invariant w Hreach) as Hinv.
  rewrite (onmessage_registered session c env message w Hcb) in Hrun.
  unfold handleLiveMessage in Hrun.
  destruct (audioOf message) as [a|e]; [|discriminate].
  cbn [mbind result_bind] in Hrun.
  destruct (handleAudio_frame env a w) as (Hst & _).
  pose proof (invariant_handleAudio env a w Hinv) as Hinv1.
  set (w1 := handleAudio env a w) in *.
  destruct (handleTranscription_frame message w1) as (_ & _ & _ & _ & Hchat).
  pose proof (invariant_handleTranscription message w1 Hinv1) as Hinv2.
  set (w2 := handleTranscription message w1) in *.
  pose proof (invariant_handleTurnComplete c env message w2 Hinv2) as Hinv3.
  assert (chatMessages (state (handleTurnComplete c env message w2))
          = chatMessages (state w2)) as Hturn.
  { destruct (serverContent message) as [content|] eqn:Hsc.
    - destruct (turnComplete content) eqn:Ht.
      + apply (blank_captured_text_creates_no_message c env message content
                 w2 Hsc Ht Hin Hout).
      + now rewrite (handleTurnComplete_skip c env message content w2 Hsc Ht).
    - unfold handleTurnComplete. now rewrite Hsc. }
  set (w3 := handleTurnComplete c env message w2) in *.
  destruct (interrupt_stage_frame message w3 w' (proj1 Hinv3) Hrun)
    as (_ & _ & _ & _ & _ & _ & _ & _ & _ & _ & K & _).
  rewrite K, Hturn, Hchat, Hst. reflexivity.
Qed.

Lemma blank_session_records_nothing_witness :
  reachable connected
  /\ callbacks connected !! 5%nat = Some (render initial)
  /\ exists w',
      onmessage 5 (at_time 4) turnCompleteEvent connected = Ok w'
      /\ chatMessages (state w') = chatMessages (state connected).
Proof.
  assert (callbacks connected !! 5%nat = Some (render initial)) as Hcb
    by (vm_compute; reflexivity).
  split; [exact reachable_connected|]. split; [exact Hcb|].
  destruct (handleLiveMessage_runs (render initial) (at_time 4)
              turnCompleteEvent None connected
              (reachable_invariant connected reachable_connected) eq_refl)
    as [w' Hrun].
  rewrite <- (onmessage_registered 5 (render initial) (at_time 4)
                turnCompleteEvent connected Hcb) in Hrun.
  exists w'. split; [exact Hrun|].
  exact (blank_session_records_nothing 5 (render initial) (at_time 4)
           turnCompleteEvent connected w' reachable_connected Hcb
           eq_refl eq_refl Hrun).
Defined.

(** ** Starting a session *)

Lemma startRecording_connected_session (c : Closure) (w : World) :
  liveSessionRef (refs (startRecording c Connected w)) = Some (5 + fresh w)%nat
  /\ callbacks (startRecording c Connected w) !! (5 + fresh w)%nat = Some c.
Proof.
  destruct w as [st rf ef fr cb]. destruct rf, st.
  unfold startRecording. cbn. rewrite lookup_insert_eq. split; reflexivity.
Qed.

(** X20: a start that connects.  [startRecording] acquires six new
    handles, distinct from each other, registers the session under the
    callbacks of the render the click came from, empties the chat history
    and both current texts, clears the error and ends recording and not
    loading; it makes no platform call that releases anything and leaves
    the playback queue as it was. *)
Theorem startRecording_connects (c : Closure) (w : World) :
  let w' := startRecording c Connected w in
  let n := fresh w in
  mediaStreamRef (refs w') = Some n
  /\ audioContextRef (refs w') = Some (1 + n)%nat
  /\ outputAudioContextRef (refs w') = Some (2 + n)%nat
  /\ mediaStreamSourceRef (refs w') = Some (3 + n)%nat
  /\ scriptProcessorRef (refs w') = Some (4 + n)%nat
  /\ liveSessionRef (refs w') = Some (5 + n)%nat
  /\ callbacks w' !! (5 + n)%nat = Some c
  /\ fresh w' = (6 + n)%nat
  /\ isRecording (state w') = true
  /\ isLoading (state w') = false
  /\ error (state w') = None
  /\ chatMessages (state w') = []
  /\ currentInputTranscription (state w') = []
  /\ currentOutputTranscription (state w') = []
  /\ effects w' = effects w
  /\ playbackSourcesRef (refs w') = playbackSourcesRef (refs w)
  /\ nextStartTimeRef (refs w') = nextStartTimeRef (refs w).
Proof.
  cbn zeta. destruct w as [st rf ef fr cb]. destruct rf, st.
  unfold startRecording. cbn. rewrite lookup_insert_eq. repeat split.
Qed.

(** X21: a start that fails.  Whatever step of the set-up fails, the
    error is logged and the component ends not recording and not loading,
    with the error text built from the message of that failure (or
    "Unknown error"), an empty chat history, no session and no callbacks
    registered; after the log the only platform call is stopping the
    tracks of the stream the ref holds, if any.  The contexts and nodes
    created before the failure are neither closed nor disconnected: the
    refs keep them. *)
Theorem startRecording_failure
    (c : Closure) (o : StartOutcome) (m : option jsstring) (w : World) :
  failure o = Some m ->
  let w' := startRecording c o w in
  isRecording (state w') = false
  /\ isLoading (state w') = false
  /\ error (state w')
     = Some (jsstr "Failed to start live session: "
             ++ or_else m (jsstr "Unknown error")
             ++ jsstr ". Please ensure microphone access is granted.")
  /\ chatMessages (state w') = []
  /\ liveSessionRef (refs w') = liveSessionRef (refs w)
  /\ callbacks w' = callbacks w
  /\ effects w'
     = effects w
       ++ ConsoleError
          :: option_list (TracksStopped <$> mediaStreamRef (refs w'))
  /\ (o = MicrophoneFailed m -> refs w' = refs w /\ fresh w' = fresh w)
  /\ (o <> MicrophoneFailed m -> mediaStreamRef (refs w') = Some (fresh w))
  /\ (o = InputContextFailed m ->
        audioContextRef (refs w') = audioContextRef (refs w)
        /\ outputAudioContextRef (refs w') = outputAudioContextRef (refs w)
        /\ fresh w' = (1 + fresh w)%nat)
  /\ (o = OutputContextFailed m ->
        audioContextRef (refs w') = Some (1 + fresh w)%nat
        /\ outputAudioContextRef (refs w') = outputAudioContextRef (refs w)
        /\ fresh w' = (2 + fresh w)%nat)
  /\ (o = ConnectionFailed m ->
        audioContextRef (refs w') = Some (1 + fresh w)%nat
        /\ outputAudioContextRef (refs w') = Some (2 + fresh w)%nat
        /\ mediaStreamSourceRef (refs w') = Some (3 + fresh w)%nat
        /\ scriptProcessorRef (refs w') = Some (4 + fresh w)%nat
        /\ fresh w' = (5 + fresh w)%nat).
Proof.
  intros Ho. cbn zeta. destruct w as [st rf ef fr cb].
  destruct rf as [a oc sp ms ls mst nx ps], st.
  destruct o as [m'|m'|m'|m'|]; cbn [failure] in Ho; [| | | |discriminate Ho];
    injection Ho as ->; unfold startRecording.
  - destruct mst as [h|]; cbn; rewrite <- ?app_assoc;
      do 7 (split; [reflexivity|]);
      (split; [intros _; split; reflexivity|]);
      (split; [intros H; now destruct H|]);
      (split; [intros H; discriminate H|]);
      (split; [intros H; discriminate H|]); intros H; discriminate H.
  - cbn. rewrite <- ?app_assoc. do 7 (split; [reflexivity|]).
    split; [intros H; discriminate H|]. split; [reflexivity|].
    split; [intros _; repeat split|].
    split; intros H; discriminate H.
  - cbn. rewrite <- ?app_assoc. do 7 (split; [reflexivity|]).
    split; [intros H; discriminate H|]. split; [reflexivity|].
    split; [intros H; discriminate H|].
    split; [intros _; repeat split|intros H; discriminate H].
  - cbn. rewrite <- ?app_assoc. do 7 (split; [reflexivity|]).
    split; [intros H; discriminate H|]. split; [reflexivity|].
    split; [intros H; discriminate H|].
    split; [intros H; discriminate H|intros _; repeat split].
Qed.

Lemma startRecording_failure_witness :
  failure (ConnectionFailed (Some (jsstr "offline")))
  = Some (Some (jsstr "offline"))
  /\ effects failed_start = [ConsoleError; TracksStopped 0]
  /\ error (state failed_start)
     = Some (jsstr "Failed to start live session: offline. Please ensure microphone access is granted.")
  /\ isRecording (state failed_start) = false
  /\ audioContextRef (refs failed_start) = Some 1%nat
  /\ outputAudioContextRef (refs failed_start) = Some 2%nat.
Proof.
  assert (failure (ConnectionFailed (Some (jsstr "offline")))
          = Some (Some (jsstr "offline"))) as H by reflexivity.
  split; [exact H|].
  destruct (startRecording_failure (render initial)
              (ConnectionFailed (Some (jsstr "offline")))
              (Some (jsstr "offline")) initial H)
    as (H1 & _ & H3 & _ & _ & _ & H7 & _ & _ & _ & _ & H12).
  destruct (H12 eq_refl) as (Ha & Hb & _).
  split; [exact H7|]. split; [exact H3|]. split; [exact H1|].
  split; [exact Ha|exact Hb].
Defined.

(** X22: the close callback of a session started from the Start button
    releases nothing.  The button offers Start only while the component is
    not recording, so the callbacks of the session capture
    [isRecording = false]; when the server closes the session, [onclose]
    at most sets the error text (for an unclean close) and never calls
    [stopRecording]: every handle stays as it is. *)
Theorem onclose_releases_nothing
    (w : World) (wasClean : bool) (reason : option jsstring) (later : World) :
  isRecording (state w) = false ->
  let started := startRecording (render w) Connected w in
  exists session c,
    liveSessionRef (refs started) = Some session
    /\ callbacks started !! session = Some c
    /\ capturedIsRecording c = false
    /\ exists w',
        onclose c wasClean reason later = Ok w'
        /\ refs w' = refs later
        /\ effects w' = effects later
        /\ isRecording (state w') = isRecording (state later)
        /\ error (state w')
           = if wasClean then error (state later)
             else Some (jsstr "Live session closed unexpectedly: "
                        ++ or_else reason (jsstr "Unknown reason")
                        ++ jsstr ".").
Proof.
  intros Hrec. cbn zeta.
  destruct (startRecording_connected_session (render w) w) as (Hs & Hc).
  exists (5 + fresh w)%nat, (render w).
  split; [exact Hs|]. split; [exact Hc|]. split; [exact Hrec|].
  unfold onclose. change (capturedIsRecording (render w))
    with (isRecording (state w)). rewrite Hrec.
  eexists. split; [reflexivity|]. destruct wasClean; repeat split.
Qed.

Lemma onclose_releases_nothing_witness :
  isRecording (state initial) = false
  /\ exists session c,
      liveSessionRef (refs connected) = Some session
      /\ callbacks connected !! session = Some c
      /\ exists w',
          onclose c false None scheduled = Ok w'
          /\ refs w' = refs scheduled.
Proof.
  split; [reflexivity|].
  destruct (onclose_releases_nothing initial false None scheduled eq_refl)
    as (session & c & H1 & H2 & _ & w' & H4 & H5 & _).
  exists session, c. split; [exact H1|]. split; [exact H2|].
  exists w'. split; [exact H4|exact H5].
Defined.

(** ** The request functions *)

Lemma getGeminiClient_throws (API_KEY : option jsstring) :
  throws (getGeminiClient API_KEY) <-> API_KEY = None \/ API_KEY = Some [].
Proof.
  unfold getGeminiClient. destruct API_KEY as [[|c k]|]; cbn.
  - split; [now right|]. intros _. now exists GenericError.
  - split; [intros [e He]; discriminate He|].
    intros [H|H]; discriminate H.
  - split; [now left|]. intros _. now exists GenericError.
Qed.

Lemma getGeminiClient_cases (API_KEY : option jsstring) :
  getGeminiClient API_KEY = Ok tt
  \/ (getGeminiClient API_KEY = Throw GenericError
      /\ (API_KEY = None \/ API_KEY = Some [])).
Proof.
  unfold getGeminiClient. destruct API_KEY as [[|c k]|]; cbn; auto.
Qed.

(** X23: [analyzeVideoTranscriptForInfo] rejects exactly when no API key
    is configured (undefined or empty) or the request itself fails; what
    the answer contains never makes it reject. *)
Theorem analysis_rejects_exactly
    (API_KEY : option jsstring)
    (generateContent : result GenerateContentResponse) :
  throws (analyzeVideoTranscriptForInfo API_KEY generateContent)
  <-> (API_KEY = None \/ API_KEY = Some []) \/ throws generateContent.
Proof.
  unfold analyzeVideoTranscriptForInfo.
  destruct (getGeminiClient_cases API_KEY) as [Hk|[Hk Hno]]; rewrite Hk;
    cbn [mbind result_bind].
  - assert (~ (API_KEY = None \/ API_KEY = Some [])) as Hkey.
    { intros H. apply getGeminiClient_throws in H as [e He]. congruence. }
    destruct generateContent as [response|e]; cbn [mbind result_bind].
    + split.
      * intros [e He].
        destruct (text response) as [t|];
          [destruct (JSON_parse (trim t))|]; discriminate He.
      * intros [H|[e He]]; [contradiction|discriminate He].
    + split; [intros _; right; now exists e|intros _; now exists e].
  - split; [intros _; now left|intros _; now exists GenericError].
Qed.

(** X24: [generateAudioFromText] requests nothing for an empty text: it
    returns undefined whether or not an API key is configured.  For any
    other text it rejects exactly when the key is missing or the request
    fails; no shape of the answer makes it throw, and the audio it
    returns is the inline data of the first part of the first
    candidate. *)
Theorem narration_request
    (API_KEY : option jsstring) (text : jsstring)
    (generateContent : result Gemini.Response) :
  (text = [] -> Gemini.generateAudioFromText API_KEY text generateContent
                = Ok None)
  /\ (text <> [] ->
      (throws (Gemini.generateAudioFromText API_KEY text generateContent)
       <-> (API_KEY = None \/ API_KEY = Some []) \/ throws generateContent))
  /\ (forall response audio,
         text <> [] ->
         getGeminiClient API_KEY = Ok tt ->
         generateContent = Ok response ->
         (Gemini.generateAudioFromText API_KEY text generateContent
          = Ok (Some audio)
          <-> exists c cs ct p ps i,
                Gemini.candidates response = Some (c :: cs)
                /\ Gemini.content c = Some ct
                /\ Gemini.parts ct = Some (p :: ps)
                /\ Gemini.inlineData p = Some i
                /\ Gemini.data i = Some audio)).
Proof.
  split; [|split].
  - intros ->. reflexivity.
  - intros Htext. unfold Gemini.generateAudioFromText.
    destruct text as [|c0 text]; [congruence|]. cbn [truthy negb].
    destruct (getGeminiClient_cases API_KEY) as [Hk|[Hk Hno]]; rewrite Hk;
      cbn [mbind result_bind].
    + assert (~ (API_KEY = None \/ API_KEY = Some [])) as Hkey.
      { intros H. apply getGeminiClient_throws in H as [e He]. congruence. }
      destruct generateContent as [response|e]; cbn [mbind result_bind].
      * split; [intros [e He]; discriminate He|].
        intros [H|[e He]]; [contradiction|discriminate He].
      * split; [intros _; right; now exists e|intros _; now exists e].
    + split; [intros _; now left|intros _; now exists GenericError].
  - intros response audio Htext Hk ->. unfold Gemini.generateAudioFromText.
    destruct text as [|c0 text]; [congruence|]. cbn [truthy negb].
    rewrite Hk. cbn [mbind result_bind]. split.
    + intros H. injection H as H.
      destruct (Gemini.candidates response) as [[|c cs]|]; try discriminate H.
      cbn in H.
      destruct (Gemini.content c) as [ct|] eqn:Hct; try discriminate H.
      cbn in H.
      destruct (Gemini.parts ct) as [[|p ps]|] eqn:Hps; try discriminate H.
      cbn in H.
      destruct (Gemini.inlineData p) as [i|] eqn:Hi; try discriminate H.
      cbn in H. exists c, cs, ct, p, ps, i. repeat split; assumption.
    + intros (c & cs & ct & p & ps & i & -> & Hct & Hps & Hi & Hd).
      cbn. rewrite Hct. cbn. rewrite Hps. cbn. rewrite Hi. cbn.
      now rewrite Hd.
Qed.

Lemma narration_request_witness :
  Gemini.generateAudioFromText None [] (Throw GenericError) = Ok None
  /\ throws (Gemini.generateAudioFromText None (jsstr "Once") (Ok
               {| Gemini.text := None; Gemini.candidates := None |})).
Proof.
  split.
  - apply (proj1 (narration_request None [] (Throw GenericError))).
    reflexivity.
  - apply (proj1 (proj2 (narration_request None (jsstr "Once") _))).
    + discriminate.
    + left. now left.
Defined.

(** [forEach] with [push_url] appends the citations in order. *)
Lemma push_url_citation (acc : list Gemini.Url) (chunk : Gemini.GroundingChunk) :
  Gemini.push_url acc chunk = acc ++ option_list (Gemini.citation chunk).
Proof.
  unfold Gemini.push_url, Gemini.citation.
  destruct (Gemini.web chunk) as [w|]; cbn; [|now rewrite app_nil_r].
  destruct (Gemini.uri w) as [u|]; cbn; [|now rewrite app_nil_r].
  destruct (truthy u); cbn; [reflexivity|now rewrite app_nil_r].
Qed.

Lemma fold_push_url (chunks : list Gemini.GroundingChunk) :
  forall acc,
    fold_left Gemini.push_url chunks acc = acc ++ omap Gemini.citation chunks.
Proof.
  induction chunks as [|chunk chunks IH]; intros acc; cbn [fold_left omap].
  - now rewrite app_nil_r.
  - rewrite IH, push_url_citation, <- app_assoc. f_equal.
    cbn. destruct (Gemini.citation chunk); reflexivity.
Qed.

Lemma citation_uri (chunk : Gemini.GroundingChunk) (u : Gemini.Url) :
  Gemini.citation chunk = Some u -> Gemini.url_uri u <> [].
Proof.
  unfold Gemini.citation.
  destruct (Gemini.web chunk) as [w|]; cbn; [|discriminate].
  destruct (Gemini.uri w) as [[|c uri]|]; cbn; try discriminate.
  intros H. injection H as <-. discriminate.
Qed.

(** X25: the sources [generateContentWithSearch] returns.  With a key and
    an answer it never throws, whatever fields the answer lacks; the urls
    are, in order, those grounding chunks of the first candidate that have
    a [web] entry with a non-empty [uri]; every returned uri is non-empty
    and there are no more urls than chunks. *)
Theorem search_urls (API_KEY : option jsstring) (response : Gemini.Response) :
  getGeminiClient API_KEY = Ok tt ->
  exists r,
    Gemini.generateContentWithSearch API_KEY (Ok response) = Ok r
    /\ Gemini.result_text r = Gemini.text response
    /\ Gemini.urls r
       = omap Gemini.citation (default [] (Gemini.grounding response))
    /\ Forall (fun u => Gemini.url_uri u <> []) (Gemini.urls r)
    /\ (List.length (Gemini.urls r)
        <= List.length (default [] (Gemini.grounding response)))%nat.
Proof.
  intros Hk. unfold Gemini.generateContentWithSearch. rewrite Hk.
  cbn [mbind result_bind]. eexists. split; [reflexivity|].
  cbn [Gemini.result_text Gemini.urls]. split; [reflexivity|].
  assert ((match Gemini.grounding response with
           | Some chunks => fold_left Gemini.push_url chunks []
           | None => []
           end)
          = omap Gemini.citation (default [] (Gemini.grounding response)))
    as ->.
  { destruct (Gemini.grounding response) as [chunks|]; [|reflexivity].
    now rewrite fold_push_url. }
  split; [reflexivity|].
  set (chunks := default [] (Gemini.grounding response)). clearbody chunks.
  split.
  - apply List.Forall_forall. intros u Hu.
    apply list_elem_of_In, list_elem_of_omap in Hu as (chunk & _ & Hc).
    apply (citation_uri chunk u Hc).
  - induction chunks as [|chunk chunks IH]; [cbn; lia|].
    cbn [omap list_omap]. destruct (Gemini.citation chunk); cbn [List.length];
      lia.
Qed.

Lemma search_urls_witness :
  getGeminiClient (Some (jsstr "key")) = Ok tt
  /\ exists r,
      Gemini.generateContentWithSearch (Some (jsstr "key"))
        (Ok {| Gemini.text := Some (jsstr "answer");
               Gemini.candidates := Some
                 [{| Gemini.content := None;
                     Gemini.groundingMetadata := Some
                       {| Gemini.groundingChunks := Some
                            [{| Gemini.web := None |};
                             {| Gemini.web := Some
                                  {| Gemini.uri := Some (jsstr "https://a");
                                     Gemini.title := None |} |};
                             {| Gemini.web := Some
                                  {| Gemini.uri := Some [];
                                     Gemini.title := Some (jsstr "t") |} |}] |}
                  |}] |}) = Ok r
      /\ Gemini.urls r
         = [{| Gemini.url_uri := jsstr "https://a";
               Gemini.url_title := None |}].
Proof.
  split; [reflexivity|].
  destruct (search_urls (Some (jsstr "key"))
              {| Gemini.text := Some (jsstr "answer");
                 Gemini.candidates := Some
                   [{| Gemini.content := None;
                       Gemini.groundingMetadata := Some
                         {| Gemini.groundingChunks := Some
                              [{| Gemini.web := None |};
                               {| Gemini.web := Some
                                    {| Gemini.uri := Some (jsstr "https://a");
                                       Gemini.title := None |} |};
                               {| Gemini.web := Some
                                    {| Gemini.uri := Some [];
                                       Gemini.title := Some (jsstr "t") |} |}] |}
                    |}] |} eq_refl) as (r & H0 & _ & H2 & _).
  exists r. split; [exact H0|exact H2].
Defined.

(** ** The API key gate *)

(** X26: the gate in front of the application.  After [handleCheckKey]
    the spinner is gone; the application is shown exactly when
    [checkAndSelectApiKey] returned true, and otherwise the key-required
    screen shows a non-empty error text.  With the AI Studio runtime
    present and its calls succeeding the gate opens whether or not a key
    had been selected (the selection dialog is assumed to succeed); without
    the runtime it opens exactly when an API key is configured. *)
Theorem key_gate
    (aistudio : option Gemini.AiStudio) (API_KEY : option jsstring)
    (s : ApiKeyChecker.State) :
  let check := Gemini.checkAndSelectApiKey aistudio API_KEY in
  let s' := ApiKeyChecker.handleCheckKey check s in
  ApiKeyChecker.isLoading s' = false
  /\ (ApiKeyChecker.view s' = ApiKeyChecker.Children <-> check = Ok true)
  /\ (check <> Ok true ->
      exists e,
        ApiKeyChecker.view s' = ApiKeyChecker.KeyRequired (Some e)
        /\ e <> [])
  /\ (forall studio selected,
         aistudio = Some studio ->
         Gemini.hasSelectedApiKey studio = Some (Ok selected) ->
         Gemini.openSelectKey studio = Ok tt ->
         ApiKeyChecker.view s' = ApiKeyChecker.Children)
  /\ (aistudio = None ->
      (ApiKeyChecker.view s' = ApiKeyChecker.Children
       <-> exists c k, API_KEY = Some (c :: k))).
Proof.
  cbn zeta. split; [reflexivity|].
  assert (forall check,
             (ApiKeyChecker.view (ApiKeyChecker.handleCheckKey check s)
              = ApiKeyChecker.Children <-> check = Ok true)
             /\ (check <> Ok true ->
                 exists e,
                   ApiKeyChecker.view (ApiKeyChecker.handleCheckKey check s)
                   = ApiKeyChecker.KeyRequired (Some e)
                   /\ e <> [])) as Hview.
  { intros [[|]|e]; cbn.
    - split; [tauto|]. intros H. congruence.
    - split; [split; discriminate|]. intros _. eexists.
      split; [reflexivity|discriminate].
    - split; [split; discriminate|]. intros _. eexists.
      split; [reflexivity|discriminate]. }
  split; [apply Hview|]. split; [apply Hview|]. split.
  - intros studio selected -> Hhas Hopen.
    apply (proj1 (Hview _)). unfold Gemini.checkAndSelectApiKey.
    rewrite Hhas, Hopen. now destruct selected.
  - intros ->. rewrite (proj1 (Hview _)).
    unfold Gemini.checkAndSelectApiKey, Gemini.has_key.
    destruct API_KEY as [[|c k]|]; cbn.
    + split; [discriminate|]. intros (c & k & H). discriminate H.
    + split; [intros _; now exists c, k|reflexivity].
    + split; [discriminate|]. intros (c & k & H). discriminate H.
Qed.

Lemma key_gate_witness :
  ApiKeyChecker.view
    (ApiKeyChecker.handleCheckKey
       (Gemini.checkAndSelectApiKey
          (Some {| Gemini.hasSelectedApiKey := Some (Ok false);
                   Gemini.openSelectKey := Ok tt |}) None)
       ApiKeyChecker.initial)
  = ApiKeyChecker.Children.
Proof.
  apply (proj1 (proj2 (proj2 (proj2
           (key_gate (Some {| Gemini.hasSelectedApiKey := Some (Ok false);
                              Gemini.openSelectKey := Ok tt |})
              None ApiKeyChecker.initial))))
           {| Gemini.hasSelectedApiKey := Some (Ok false);
              Gemini.openSelectKey := Ok tt |} false);
    reflexivity.
Defined.

(** ** The general chat *)

(** X27: every question gets exactly one reply.  [sendMessage] does
    nothing while the input is blank; otherwise, however the request ends,
    the history grows by exactly two messages, the user's (with the input
    as typed) followed by one of the model, the input field is emptied and
    loading ends; the error text is set exactly when the request failed,
    and then the reply is the apology. *)
Theorem every_question_gets_one_reply
    (dateUser dateModel : Z) (outcome : GeneralChat.Outcome)
    (s : GeneralChat.State) :
  let s' := GeneralChat.sendMessage dateUser dateModel outcome s in
  (truthy (trim (GeneralChat.input s)) = false -> s' = s)
  /\ (truthy (trim (GeneralChat.input s)) = true ->
      exists reply,
        GeneralChat.messages s'
        = GeneralChat.messages s
          ++ [{| GeneralChat.role := USER;
                 GeneralChat.content := Some (GeneralChat.input s);
                 GeneralChat.timestamp := dateUser |};
              reply]
        /\ GeneralChat.role reply = MODEL
        /\ GeneralChat.timestamp reply = dateModel
        /\ GeneralChat.input s' = []
        /\ GeneralChat.isLoading s' = false
        /\ match outcome with
           | GeneralChat.Answered answer =>
               GeneralChat.error s' = None
               /\ GeneralChat.content reply
                  = GeneralChat.modelMessageContent answer
           | GeneralChat.Failed message =>
               GeneralChat.error s'
               = Some (jsstr "Failed to get response: "
                       ++ GeneralChat.or_else message (jsstr "Unknown error")
                       ++ jsstr ".")
               /\ GeneralChat.content reply
                  = Some (jsstr "Oops! Something went wrong. "
                          ++ GeneralChat.or_else message
                               (jsstr "Please try again."))
           end).
Proof.
  cbn zeta. unfold GeneralChat.sendMessage. split.
  - intros ->. reflexivity.
  - intros ->. cbn [negb].
    destruct outcome as [answer|message]; eexists;
      cbn [GeneralChat.messages GeneralChat.input GeneralChat.isLoading
           GeneralChat.error GeneralChat.addMessage GeneralChat.setInput
           GeneralChat.setIsLoading GeneralChat.setError];
      rewrite <- app_assoc; repeat split.
Qed.

Lemma every_question_gets_one_reply_witness :
  truthy (trim (jsstr "   ")) = false
  /\ GeneralChat.sendMessage 1 2 (GeneralChat.Failed None)
       {| GeneralChat.messages := []; GeneralChat.input := jsstr "   ";
          GeneralChat.isLoading := false; GeneralChat.error := None |}
     = {| GeneralChat.messages := []; GeneralChat.input := jsstr "   ";
          GeneralChat.isLoading := false; GeneralChat.error := None |}
  /\ truthy (trim (jsstr "who wrote it?")) = true
  /\ (exists reply,
         GeneralChat.messages
           (GeneralChat.sendMessage 1 2
              (GeneralChat.Answered
                 {| Gemini.result_text := Some (jsstr "Ada.");
                    Gemini.urls := [] |})
              {| GeneralChat.messages := [];
                 GeneralChat.input := jsstr "who wrote it?";
                 GeneralChat.isLoading := false;
                 GeneralChat.error := None |})
         = [{| GeneralChat.role := USER;
               GeneralChat.content := Some (jsstr "who wrote it?");
               GeneralChat.timestamp := 1 |};
            reply]
         /\ GeneralChat.role reply = MODEL
         /\ GeneralChat.content reply = Some (jsstr "Ada."))
  /\ (exists reply,
         GeneralChat.messages
           (GeneralChat.sendMessage 1 2
              (GeneralChat.Failed (Some (jsstr "quota")))
              {| GeneralChat.messages := [];
                 GeneralChat.input := jsstr "who wrote it?";
                 GeneralChat.isLoading := false;
                 GeneralChat.error := None |})
         = [{| GeneralChat.role := USER;
               GeneralChat.content := Some (jsstr "who wrote it?");
               GeneralChat.timestamp := 1 |};
            reply]
         /\ GeneralChat.role reply = MODEL
         /\ GeneralChat.content reply
            = Some (jsstr "Oops! Something went wrong. quota")
         /\ GeneralChat.error
              (GeneralChat.sendMessage 1 2
                 (GeneralChat.Failed (Some (jsstr "quota")))
                 {| GeneralChat.messages := [];
                    GeneralChat.input := jsstr "who wrote it?";
                    GeneralChat.isLoading := false;
                    GeneralChat.error := None |})
            = Some (jsstr "Failed to get response: quota.")).
Proof.
  assert (truthy (trim (jsstr "   ")) = false) as Hblank by reflexivity.
  assert (truthy (trim (jsstr "who wrote it?")) = true) as Hasked
    by reflexivity.
  split; [exact Hblank|].
  split.
  { exact (proj1 (every_question_gets_one_reply 1 2 (GeneralChat.Failed None)
                    {| GeneralChat.messages := [];
                       GeneralChat.input := jsstr "   ";
                       GeneralChat.isLoading := false;
                       GeneralChat.error := None |}) Hblank). }
  split; [exact Hasked|].
  split.
  - destruct (proj2 (every_question_gets_one_reply 1 2
                       (GeneralChat.Answered
                          {| Gemini.result_text := Some (jsstr "Ada.");
                             Gemini.urls := [] |})
                       {| GeneralChat.messages := [];
                          GeneralChat.input := jsstr "who wrote it?";
                          GeneralChat.isLoading := false;
                          GeneralChat.error := None |}) Hasked)
      as (reply & Hm & Hr & _ & _ & _ & _ & Hc).
    exists reply. split; [exact Hm|]. split; [exact Hr|exact Hc].
  - destruct (proj2 (every_question_gets_one_reply 1 2
                       (GeneralChat.Failed (Some (jsstr "quota")))
                       {| GeneralChat.messages := [];
                          GeneralChat.input := jsstr "who wrote it?";
                          GeneralChat.isLoading := false;
                          GeneralChat.error := None |}) Hasked)
      as (reply & Hm & Hr & _ & _ & _ & He & Hc).
    exists reply. split; [exact Hm|]. split; [exact Hr|].
    split; [exact Hc|exact He].
Defined.

(** ** The narration player *)

Lemma player_silent_app (s : nat) (w w' : AudioPlayer.World) l :
  AudioPlayer.events w' = AudioPlayer.events w ++ l ->
  AudioPlayer.silent s w -> AudioPlayer.silent s w'.
Proof.
  unfold AudioPlayer.silent. intros -> [H|H]; [left|right];
    apply elem_of_app; now left.
Qed.

(** Events other than a start do not start a source. *)
Lemma player_started_quiet (s : nat) (w w' : AudioPlayer.World) l :
  AudioPlayer.events w' = AudioPlayer.events w ++ l ->
  Forall (fun e => match e with
                   | AudioPlayer.SourceStarted _ _ => False
                   | _ => True
                   end) l ->
  AudioPlayer.started s w' = AudioPlayer.started s w.
Proof.
  unfold AudioPlayer.started. intros -> Hl. rewrite existsb_app.
  assert (existsb
            (fun e => match e with
                      | AudioPlayer.SourceStarted s0 _ => Nat.eqb s0 s
                      | _ => false
                      end) l = false) as ->.
  { induction Hl as [|e l He _ IH]; [reflexivity|].
    cbn [existsb]. rewrite IH. destruct e; try reflexivity. contradiction. }
  apply orb_false_r.
Qed.

Lemma player_closed_quiet (c : nat) (w w' : AudioPlayer.World) l :
  AudioPlayer.events w' = AudioPlayer.events w ++ l ->
  Forall (fun e => match e with
                   | AudioPlayer.ContextClosed _ => False
                   | _ => True
                   end) l ->
  AudioPlayer.closed c w' = AudioPlayer.closed c w.
Proof.
  unfold AudioPlayer.closed. intros -> Hl. rewrite existsb_app.
  assert (existsb
            (fun e => match e with
                      | AudioPlayer.ContextClosed c0 => Nat.eqb c0 c
                      | _ => false
                      end) l = false) as ->.
  { induction Hl as [|e l He _ IH]; [reflexivity|].
    cbn [existsb]. rewrite IH. destruct e; try reflexivity. contradiction. }
  apply orb_false_r.
Qed.

Lemma stopCurrent_halted (w : AudioPlayer.World) :
  AudioPlayer.invariant w ->
  AudioPlayer.stopCurrent w = Ok (AudioPlayer.halted w).
Proof.
  intros (H1 & _). unfold AudioPlayer.stopCurrent, AudioPlayer.halted.
  destruct (AudioPlayer.currentSourceRef (AudioPlayer.refs w)) as [s|] eqn:E;
    [|reflexivity].
  unfold AudioPlayer.stop_source. now rewrite (H1 s eq_refl).
Qed.

Lemma halted_events (w : AudioPlayer.World) :
  AudioPlayer.events (AudioPlayer.halted w)
  = AudioPlayer.events w
    ++ match AudioPlayer.currentSourceRef (AudioPlayer.refs w) with
       | Some s => [AudioPlayer.SourceStopped s; AudioPlayer.SourceDisconnected s]
       | None => []
       end.
Proof.
  unfold AudioPlayer.halted.
  destruct (AudioPlayer.currentSourceRef (AudioPlayer.refs w)); cbn.
  - now rewrite <- app_assoc.
  - now rewrite app_nil_r.
Qed.

Lemma halted_frame (w : AudioPlayer.World) :
  AudioPlayer.currentSourceRef (AudioPlayer.refs (AudioPlayer.halted w)) = None
  /\ AudioPlayer.audioContextRef (AudioPlayer.refs (AudioPlayer.halted w))
     = AudioPlayer.audioContextRef (AudioPlayer.refs w)
  /\ AudioPlayer.gainNodeRef (AudioPlayer.refs (AudioPlayer.halted w))
     = AudioPlayer.gainNodeRef (AudioPlayer.refs w)
  /\ AudioPlayer.fresh (AudioPlayer.halted w) = AudioPlayer.fresh w
  /\ (forall s, AudioPlayer.started s (AudioPlayer.halted w)
                = AudioPlayer.started s w)
  /\ (forall c, AudioPlayer.closed c (AudioPlayer.halted w)
                = AudioPlayer.closed c w).
Proof.
  pose proof (halted_events w) as He.
  assert (Forall (fun e => match e with
                           | AudioPlayer.SourceStarted _ _ => False
                           | _ => True
                           end)
            match AudioPlayer.currentSourceRef (AudioPlayer.refs w) with
            | Some s => [AudioPlayer.SourceStopped s;
                         AudioPlayer.SourceDisconnected s]
            | None => []
            end) as Hq1
    by (destruct (AudioPlayer.currentSourceRef (AudioPlayer.refs w));
        repeat constructor).
  assert (Forall (fun e => match e with
                           | AudioPlayer.ContextClosed _ => False
                           | _ => True
                           end)
            match AudioPlayer.currentSourceRef (AudioPlayer.refs w) with
            | Some s => [AudioPlayer.SourceStopped s;
                         AudioPlayer.SourceDisconnected s]
            | None => []
            end) as Hq2
    by (destruct (AudioPlayer.currentSourceRef (AudioPlayer.refs w));
        repeat constructor).
  repeat split.
  - unfold AudioPlayer.halted.
    destruct (AudioPlayer.currentSourceRef (AudioPlayer.refs w)) eqn:E;
      [reflexivity|exact E].
  - unfold AudioPlayer.halted.
    destruct (AudioPlayer.currentSourceRef (AudioPlayer.refs w)); reflexivity.
  - unfold AudioPlayer.halted.
    destruct (AudioPlayer.currentSourceRef (AudioPlayer.refs w)); reflexivity.
  - unfold AudioPlayer.halted.
    destruct (AudioPlayer.currentSourceRef (AudioPlayer.refs w)); reflexivity.
  - intros s. apply (player_started_quiet s w _ _ He Hq1).
  - intros c. apply (player_closed_quiet c w _ _ He Hq2).
Qed.

(** After the current source is stopped every started source is silent. *)
Lemma halted_silent (w : AudioPlayer.World) :
  AudioPlayer.invariant w ->
  forall s, AudioPlayer.started s (AudioPlayer.halted w) = true ->
            AudioPlayer.silent s (AudioPlayer.halted w).
Proof.
  intros (_ & H2 & _) s Hs.
  destruct (halted_frame w) as (_ & _ & _ & _ & Hst & _).
  rewrite Hst in Hs. pose proof (halted_events w) as He.
  destruct (H2 s Hs) as [Hc|Hsil].
  - left. rewrite He, Hc. apply elem_of_app. right. constructor.
  - apply (player_silent_app s w _ _ He Hsil).
Qed.

Lemma halted_invariant (w : AudioPlayer.World) :
  AudioPlayer.invariant w -> AudioPlayer.invariant (AudioPlayer.halted w).
Proof.
  intros Hinv. pose proof (halted_silent w Hinv) as Hsil.
  destruct Hinv as (H1 & H2 & H3 & H4 & H5).
  destruct (halted_frame w) as (Hc & Ha & Hg & Hf & Hst & Hcl).
  split; [|split; [|split; [|split]]].
  - intros s E. congruence.
  - intros s Hs. right. apply Hsil, Hs.
  - rewrite Ha, Hg. exact H3.
  - intros ctx E. rewrite Hcl, Hf. rewrite Ha in E. apply (H4 ctx E).
  - intros ctx Hctx. rewrite Hcl in Hctx. rewrite Hf. apply H5, Hctx.
Qed.

Lemma cleanup_cleaned (w : AudioPlayer.World) :
  AudioPlayer.invariant w ->
  AudioPlayer.cleanup w = Ok (AudioPlayer.cleaned w).
Proof.
  intros Hinv. unfold AudioPlayer.cleanup, AudioPlayer.cleaned.
  rewrite (stopCurrent_halted w Hinv). cbn [mbind result_bind].
  destruct (AudioPlayer.audioContextRef
              (AudioPlayer.refs (AudioPlayer.halted w))); reflexivity.
Qed.

Lemma cleaned_run (w : AudioPlayer.World) :
  AudioPlayer.invariant w ->
  let w' := AudioPlayer.cleaned w in
  AudioPlayer.audioContextRef (AudioPlayer.refs w') = None
  /\ AudioPlayer.gainNodeRef (AudioPlayer.refs w') = None
  /\ AudioPlayer.currentSourceRef (AudioPlayer.refs w') = None
  /\ (forall ctx,
         AudioPlayer.audioContextRef (AudioPlayer.refs w) = Some ctx ->
         AudioPlayer.closed ctx w = false
         /\ AudioPlayer.events w'
            = AudioPlayer.events (AudioPlayer.halted w)
              ++ [AudioPlayer.ContextClosed ctx])
  /\ (AudioPlayer.audioContextRef (AudioPlayer.refs w) = None ->
      AudioPlayer.events w' = AudioPlayer.events (AudioPlayer.halted w))
  /\ (forall s, AudioPlayer.started s w' = true -> AudioPlayer.silent s w')
  /\ AudioPlayer.fresh w' = AudioPlayer.fresh w
  /\ AudioPlayer.invariant w'.
Proof.
  intros Hinv. cbn zeta.
  pose proof (halted_silent w Hinv) as Hsil.
  pose proof (halted_invariant w Hinv) as Hhalt.
  pose proof Hhalt as (_ & _ & G3 & _ & G5).
  destruct Hinv as (H1 & H2 & H3 & H4 & H5).
  destruct (halted_frame w) as (Hc & Ha & Hg & Hf & Hst & Hcl).
  unfold AudioPlayer.cleaned. cbn zeta. rewrite Ha.
  destruct (AudioPlayer.audioContextRef (AudioPlayer.refs w))
    as [ctx|] eqn:Ectx.
  - destruct (H4 ctx eq_refl) as [Hopen Hlt].
    rewrite Hcl, Hopen.
    set (w2 := AudioPlayer.emit (AudioPlayer.ContextClosed ctx)
                 (AudioPlayer.halted w)).
    assert (forall s, AudioPlayer.started s w2 = true -> AudioPlayer.silent s w2)
      as Hsil2.
    { intros s Hs.
      rewrite (player_started_quiet s (AudioPlayer.halted w) w2
                 [AudioPlayer.ContextClosed ctx] eq_refl) in Hs
        by (repeat constructor).
      apply (player_silent_app s (AudioPlayer.halted w) w2
               [AudioPlayer.ContextClosed ctx] eq_refl), Hsil, Hs. }
    cbn [AudioPlayer.refs AudioPlayer.set_gainNodeRef
         AudioPlayer.set_audioContextRef AudioPlayer.with_refs
         AudioPlayer.audioContextRef AudioPlayer.gainNodeRef
         AudioPlayer.currentSourceRef AudioPlayer.events AudioPlayer.fresh].
    split; [reflexivity|]. split; [reflexivity|]. split; [exact Hc|].
    split; [|split; [|split; [|split]]].
    + intros ctx' E. injection E as <-.
      split; [exact Hopen|reflexivity].
    + intros E. discriminate E.
    + exact Hsil2.
    + exact Hf.
    + split; [|split; [|split; [|split]]].
      * intros s E. cbn in E. congruence.
      * intros s Hs. right. apply Hsil2, Hs.
      * split; reflexivity.
      * intros c E. discriminate E.
      * intros c E. change (AudioPlayer.closed c w2 = true) in E.
        unfold AudioPlayer.closed, w2 in E.
        cbn [AudioPlayer.events AudioPlayer.emit] in E.
        rewrite existsb_app in E. apply orb_true_iff in E as [E|E].
        -- change (c < AudioPlayer.fresh (AudioPlayer.halted w))%nat.
           apply G5. exact E.
        -- cbn in E. rewrite orb_false_r in E. apply Nat.eqb_eq in E as ->.
           change (c < AudioPlayer.fresh (AudioPlayer.halted w))%nat.
           rewrite Hf. exact Hlt.
  - assert (AudioPlayer.gainNodeRef (AudioPlayer.refs (AudioPlayer.halted w))
            = None) as Egain by (rewrite Hg; apply H3; reflexivity).
    split; [exact Ha|]. split; [exact Egain|].
    split; [exact Hc|]. split; [|split; [|split; [|split]]].
    + intros ctx E. discriminate E.
    + reflexivity.
    + exact Hsil.
    + exact Hf.
    + exact Hhalt.
Qed.

(** The effect on a player that holds nothing. *)
Lemma effect_on_idle (audio : jsstring) (w : AudioPlayer.World) :
  AudioPlayer.audioContextRef (AudioPlayer.refs w) = None ->
  AudioPlayer.currentSourceRef (AudioPlayer.refs w) = None ->
  truthy audio = true ->
  AudioPlayer.effect (Some audio) w
  = Ok match decodeChunk audio with
       | Ok buffer =>
           {| AudioPlayer.refs :=
                {| AudioPlayer.audioContextRef := Some (AudioPlayer.fresh w);
                   AudioPlayer.gainNodeRef := Some (S (AudioPlayer.fresh w));
                   AudioPlayer.currentSourceRef :=
                     Some (S (S (AudioPlayer.fresh w))) |};
              AudioPlayer.events :=
                AudioPlayer.events w
                ++ [AudioPlayer.ContextCreated (AudioPlayer.fresh w);
                    AudioPlayer.GainConnected (S (AudioPlayer.fresh w));
                    AudioPlayer.SourceStarted (S (S (AudioPlayer.fresh w)))
                      buffer];
              AudioPlayer.fresh := S (S (S (AudioPlayer.fresh w))) |}
       | Throw _ =>
           {| AudioPlayer.refs :=
                {| AudioPlayer.audioContextRef := Some (AudioPlayer.fresh w);
                   AudioPlayer.gainNodeRef := Some (S (AudioPlayer.fresh w));
                   AudioPlayer.currentSourceRef := None |};
              AudioPlayer.events :=
                AudioPlayer.events w
                ++ [AudioPlayer.ContextCreated (AudioPlayer.fresh w);
                    AudioPlayer.GainConnected (S (AudioPlayer.fresh w));
                    AudioPlayer.ConsoleError];
              AudioPlayer.fresh := S (S (AudioPlayer.fresh w)) |}
       end.
Proof.
  intros Ha Hc Ht. destruct w as [rf ev fr]. destruct rf as [a g c].
  cbn in Ha, Hc. subst a c.
  unfold AudioPlayer.effect. rewrite Ht.
  unfold AudioPlayer.playAudio, AudioPlayer.stopCurrent,
    AudioPlayer.playAudio_try, decodeChunk.
  cbn -[decode decodeAudioData].
  destruct (decode audio ≫= _) as [buffer|e];
    unfold AudioPlayer.set_currentSourceRef, AudioPlayer.emit,
      AudioPlayer.with_refs; cbn; rewrite <- ?app_assoc; reflexivity.
Qed.

Lemma effect_invariant (base64Audio : option jsstring)
    (w w' : AudioPlayer.World) :
  AudioPlayer.invariant w ->
  AudioPlayer.audioContextRef (AudioPlayer.refs w) = None ->
  AudioPlayer.currentSourceRef (AudioPlayer.refs w) = None ->
  AudioPlayer.effect base64Audio w = Ok w' ->
  AudioPlayer.invariant w'.
Proof.
  intros Hinv Ha Hc Hrun.
  assert (AudioPlayer.stopCurrent w = Ok w) as Hstop.
  { unfold AudioPlayer.stopCurrent. now rewrite Hc. }
  destruct base64Audio as [audio|];
    [|cbn in Hrun; rewrite Hstop in Hrun; now injection Hrun as <-].
  destruct (truthy audio) eqn:Ht;
    [|unfold AudioPlayer.effect in Hrun; rewrite Ht, Hstop in Hrun;
      now injection Hrun as <-].
  rewrite (effect_on_idle audio w Ha Hc Ht) in Hrun. injection Hrun as <-.
  destruct Hinv as (H1 & H2 & H3 & H4 & H5).
  assert (forall s, AudioPlayer.started s w = true -> AudioPlayer.silent s w)
    as Hsil.
  { intros s Hs. destruct (H2 s Hs) as [E|E]; [congruence|exact E]. }
  assert (AudioPlayer.closed (AudioPlayer.fresh w) w = false) as Hopen.
  { destruct (AudioPlayer.closed (AudioPlayer.fresh w) w) eqn:E;
      [|reflexivity].
    apply H5 in E. lia. }
  destruct (decodeChunk audio) as [buffer|e].
  - split; [|split; [|split; [|split]]].
    + intros s E. cbn in E. injection E as <-.
      unfold AudioPlayer.started. cbn [AudioPlayer.events].
      rewrite existsb_app. cbn. rewrite Nat.eqb_refl.
      apply orb_true_r.
    + intros s Hs. unfold AudioPlayer.started in Hs.
      cbn [AudioPlayer.events] in Hs. rewrite existsb_app in Hs.
      apply orb_true_iff in Hs as [Hs|Hs].
      * right. destruct (Hsil s Hs) as [E|E]; [left|right];
          cbn [AudioPlayer.events]; apply elem_of_app; now left.
      * left. cbn [existsb orb] in Hs. rewrite orb_false_r in Hs.
        apply Nat.eqb_eq in Hs as <-. reflexivity.
    + cbn. split; discriminate.
    + intros ctx E. cbn in E. injection E as <-. split.
      * unfold AudioPlayer.closed. cbn [AudioPlayer.events].
        rewrite existsb_app. cbn. rewrite orb_false_r. exact Hopen.
      * cbn. lia.
    + intros ctx E. unfold AudioPlayer.closed in E.
      cbn [AudioPlayer.events] in E. rewrite existsb_app in E. cbn in E.
      rewrite orb_false_r in E. apply H5 in E. cbn. lia.
  - split; [|split; [|split; [|split]]].
    + intros s E. cbn in E. discriminate E.
    + intros s Hs. unfold AudioPlayer.started in Hs.
      cbn [AudioPlayer.events] in Hs. rewrite existsb_app in Hs. cbn in Hs.
      rewrite orb_false_r in Hs.
      right. destruct (Hsil s Hs) as [E|E]; [left|right];
        cbn [AudioPlayer.events]; apply elem_of_app; now left.
    + cbn. split; discriminate.
    + intros ctx E. cbn in E. injection E as <-. split.
      * unfold AudioPlayer.closed. cbn [AudioPlayer.events].
        rewrite existsb_app. cbn. rewrite orb_false_r. exact Hopen.
      * cbn. lia.
    + intros ctx E. unfold AudioPlayer.closed in E.
      cbn [AudioPlayer.events] in E. rewrite existsb_app in E. cbn in E.
      rewrite orb_false_r in E. apply H5 in E. cbn. lia.
Qed.

Lemma onended_invariant (source : nat) (w : AudioPlayer.World) :
  AudioPlayer.invariant w ->
  AudioPlayer.invariant
    (AudioPlayer.onended source
       (AudioPlayer.emit (AudioPlayer.SourceEnded source) w)).
Proof.
  intros (H1 & H2 & H3 & H4 & H5).
  set (w1 := AudioPlayer.emit (AudioPlayer.SourceEnded source) w).
  assert (forall s, AudioPlayer.started s w1 = AudioPlayer.started s w) as Hst.
  { intros s. apply (player_started_quiet s w w1
                       [AudioPlayer.SourceEnded source] eq_refl).
    repeat constructor. }
  assert (forall c, AudioPlayer.closed c w1 = AudioPlayer.closed c w) as Hcl.
  { intros c. apply (player_closed_quiet c w w1
                       [AudioPlayer.SourceEnded source] eq_refl).
    repeat constructor. }
  assert (forall s, AudioPlayer.silent s w -> AudioPlayer.silent s w1) as Hsil.
  { intros s. apply (player_silent_app s w w1
                       [AudioPlayer.SourceEnded source] eq_refl). }
  assert (AudioPlayer.silent source w1) as Hended.
  { right. unfold w1. cbn. apply elem_of_app. right. constructor. }
  unfold AudioPlayer.onended.
  change (AudioPlayer.currentSourceRef (AudioPlayer.refs w1))
    with (AudioPlayer.currentSourceRef (AudioPlayer.refs w)).
  destruct (AudioPlayer.currentSourceRef (AudioPlayer.refs w)) as [current|]
    eqn:Ecur.
  - destruct (Nat.eqb_spec current source) as [->|Hne].
    + split; [|split; [|split; [|split]]].
      * intros s E. discriminate E.
      * intros s Hs. right.
        change (AudioPlayer.started s w1 = true) in Hs. rewrite Hst in Hs.
        change (AudioPlayer.silent s w1).
        destruct (H2 s Hs) as [E|E]; [|apply Hsil, E].
        injection E as <-. exact Hended.
      * exact H3.
      * intros ctx E. change (AudioPlayer.closed ctx w1 = false
                               /\ (ctx < AudioPlayer.fresh w)%nat).
        rewrite Hcl. apply H4, E.
      * intros ctx E. change (AudioPlayer.closed ctx w1 = true) in E.
        rewrite Hcl in E. apply H5, E.
    + split; [|split; [|split; [|split]]].
      * intros s E. rewrite Hst. apply H1.
        change (AudioPlayer.currentSourceRef (AudioPlayer.refs w) = Some s)
          in E. congruence.
      * intros s Hs. rewrite Hst in Hs.
        destruct (H2 s Hs) as [E|E]; [left|right; apply Hsil, E].
        change (AudioPlayer.currentSourceRef (AudioPlayer.refs w) = Some s).
        congruence.
      * exact H3.
      * intros ctx E. rewrite Hcl. apply H4, E.
      * intros ctx E. rewrite Hcl in E. apply H5, E.
  - split; [|split; [|split; [|split]]].
    + intros s E.
      change (AudioPlayer.currentSourceRef (AudioPlayer.refs w) = Some s) in E.
      congruence.
    + intros s Hs. rewrite Hst in Hs.
      destruct (H2 s Hs) as [E|E]; [congruence|right; apply Hsil, E].
    + exact H3.
    + intros ctx E. rewrite Hcl. apply H4, E.
    + intros ctx E. rewrite Hcl in E. apply H5, E.
Qed.

Lemma player_invariant_initial : AudioPlayer.invariant AudioPlayer.initial.
Proof.
  split; [|split; [|split; [|split]]]; cbn; try discriminate; tauto.
Qed.

Lemma player_reachable_invariant (w : AudioPlayer.World) :
  AudioPlayer.reachable w -> AudioPlayer.invariant w.
Proof.
  induction 1 as [|w w' _ IH Hstep]; [apply player_invariant_initial|].
  destruct Hstep as [w base64Audio w1 w2 Hclean Hrun|w w' Hclean|w source _].
  - rewrite (cleanup_cleaned w IH) in Hclean. injection Hclean as <-.
    destruct (cleaned_run w IH) as (Ha & _ & Hc & _ & _ & _ & _ & Hinv).
    apply (effect_invariant base64Audio _ w2 Hinv Ha Hc Hrun).
  - rewrite (cleanup_cleaned w IH) in Hclean. injection Hclean as <-.
    apply (cleaned_run w IH).
  - apply onended_invariant, IH.
Qed.

Lemma reachable_narrating :
  AudioPlayer.reachable AudioPlayer.narrating
  /\ AudioPlayer.currentSourceRef (AudioPlayer.refs AudioPlayer.narrating)
     = Some 2%nat
  /\ AudioPlayer.audioContextRef (AudioPlayer.refs AudioPlayer.narrating)
     = Some 0%nat.
Proof.
  split; [|split; vm_compute; reflexivity].
  apply (AudioPlayer.reachable_step AudioPlayer.initial _
           AudioPlayer.reachable_initial).
  apply (AudioPlayer.step_effect AudioPlayer.initial (Some (jsstr "AEAAIA=="))
           AudioPlayer.initial); vm_compute; reflexivity.
Qed.

(** X28: at most one narration can be heard.  In every state the player
    can reach, a source that was started and is not the one
    [currentSourceRef] holds has been stopped or has ended; the source the
    ref holds was started, so stopping it does not raise. *)
Theorem one_narration_at_a_time (w : AudioPlayer.World) :
  AudioPlayer.reachable w ->
  (forall s, AudioPlayer.started s w = true ->
             AudioPlayer.currentSourceRef (AudioPlayer.refs w) = Some s
             \/ AudioPlayer.SourceStopped s ∈ AudioPlayer.events w
             \/ AudioPlayer.SourceEnded s ∈ AudioPlayer.events w)
  /\ (forall s, AudioPlayer.currentSourceRef (AudioPlayer.refs w) = Some s ->
                AudioPlayer.started s w = true).
Proof.
  intros Hreach.
  destruct (player_reachable_invariant w Hreach) as (H1 & H2 & _).
  split; [exact H2|exact H1].
Qed.

Lemma one_narration_at_a_time_witness :
  AudioPlayer.reachable AudioPlayer.narrating
  /\ forall s, AudioPlayer.currentSourceRef
                 (AudioPlayer.refs AudioPlayer.narrating) = Some s ->
               AudioPlayer.started s AudioPlayer.narrating = true.
Proof.
  split; [exact (proj1 reachable_narrating)|].
  exact (proj2 (one_narration_at_a_time AudioPlayer.narrating
                  (proj1 reachable_narrating))).
Defined.

(** X29: the clean-up leaves nothing behind.  In every reachable state it
    raises nothing, stops the current source, closes the context the ref
    holds (which was open: no context is closed twice) and empties the
    three refs; afterwards every source ever started is silent. *)
Theorem cleanup_releases_the_player (w : AudioPlayer.World) :
  AudioPlayer.reachable w ->
  exists w',
    AudioPlayer.cleanup w = Ok w'
    /\ AudioPlayer.audioContextRef (AudioPlayer.refs w') = None
    /\ AudioPlayer.gainNodeRef (AudioPlayer.refs w') = None
    /\ AudioPlayer.currentSourceRef (AudioPlayer.refs w') = None
    /\ (forall s, AudioPlayer.currentSourceRef (AudioPlayer.refs w) = Some s ->
                  AudioPlayer.SourceStopped s ∈ AudioPlayer.events w')
    /\ (forall ctx,
           AudioPlayer.audioContextRef (AudioPlayer.refs w) = Some ctx ->
           AudioPlayer.closed ctx w = false
           /\ AudioPlayer.ContextClosed ctx ∈ AudioPlayer.events w')
    /\ (forall s, AudioPlayer.started s w' = true -> AudioPlayer.silent s w').
Proof.
  intros Hreach. pose proof (player_reachable_invariant w Hreach) as Hinv.
  exists (AudioPlayer.cleaned w). split; [apply cleanup_cleaned, Hinv|].
  destruct (cleaned_run w Hinv) as (Ha & Hg & Hc & Hctx & Hno & Hsil & _ & _).
  split; [exact Ha|]. split; [exact Hg|]. split; [exact Hc|].
  split; [|split; [|exact Hsil]].
  - intros s Hs.
    assert (AudioPlayer.SourceStopped s
              ∈ AudioPlayer.events (AudioPlayer.halted w)) as Hin.
    { rewrite halted_events, Hs. apply elem_of_app. right. constructor. }
    destruct (AudioPlayer.audioContextRef (AudioPlayer.refs w)) as [ctx|]
      eqn:E.
    + destruct (Hctx ctx eq_refl) as [_ ->]. apply elem_of_app. now left.
    + now rewrite (Hno eq_refl).
  - intros ctx E. destruct (Hctx ctx E) as [Hopen ->].
    split; [exact Hopen|]. apply elem_of_app. right. constructor.
Qed.

Lemma cleanup_releases_the_player_witness :
  AudioPlayer.reachable AudioPlayer.narrating
  /\ exists w',
      AudioPlayer.cleanup AudioPlayer.narrating = Ok w'
      /\ AudioPlayer.currentSourceRef (AudioPlayer.refs w') = None
      /\ AudioPlayer.SourceStopped 2 ∈ AudioPlayer.events w'
      /\ AudioPlayer.ContextClosed 0 ∈ AudioPlayer.events w'.
Proof.
  destruct reachable_narrating as (Hreach & Hcur & Hctx).
  split; [exact Hreach|].
  destruct (cleanup_releases_the_player AudioPlayer.narrating Hreach)
    as (w' & H0 & _ & _ & H3 & H4 & H5 & _).
  exists w'. split; [exact H0|]. split; [exact H3|].
  split; [exact (H4 2%nat Hcur)|exact (proj2 (H5 0%nat Hctx))].
Defined.

(** X30: what the effect does with a narration.  On a player that holds
    no context and no source (as after every clean-up) and for a non-empty
    text, the effect creates a context and a gain node; when the text
    decodes to a whole number of samples it starts exactly one source with
    the decoded buffer and keeps it in [currentSourceRef]; when decoding
    fails it logs the error, starts nothing and leaves the ref empty. *)
Theorem narration_effect (audio : jsstring) (w : AudioPlayer.World) :
  AudioPlayer.audioContextRef (AudioPlayer.refs w) = None ->
  AudioPlayer.currentSourceRef (AudioPlayer.refs w) = None ->
  truthy audio = true ->
  exists w',
    AudioPlayer.effect (Some audio) w = Ok w'
    /\ AudioPlayer.audioContextRef (AudioPlayer.refs w')
       = Some (AudioPlayer.fresh w)
    /\ AudioPlayer.gainNodeRef (AudioPlayer.refs w')
       = Some (S (AudioPlayer.fresh w))
    /\ match decodeChunk audio with
       | Ok buffer =>
           AudioPlayer.events w'
           = AudioPlayer.events w
             ++ [AudioPlayer.ContextCreated (AudioPlayer.fresh w);
                 AudioPlayer.GainConnected (S (AudioPlayer.fresh w));
                 AudioPlayer.SourceStarted (S (S (AudioPlayer.fresh w)))
                   buffer]
           /\ AudioPlayer.currentSourceRef (AudioPlayer.refs w')
              = Some (S (S (AudioPlayer.fresh w)))
       | Throw _ =>
           AudioPlayer.events w'
           = AudioPlayer.events w
             ++ [AudioPlayer.ContextCreated (AudioPlayer.fresh w);
                 AudioPlayer.GainConnected (S (AudioPlayer.fresh w));
                 AudioPlayer.ConsoleError]
           /\ AudioPlayer.currentSourceRef (AudioPlayer.refs w') = None
       end.
Proof.
  intros Ha Hc Ht. rewrite (effect_on_idle audio w Ha Hc Ht).
  eexists. split; [reflexivity|].
  destruct (decodeChunk audio); repeat split.
Qed.

Lemma narration_effect_witness :
  exists w',
    AudioPlayer.effect (Some malformed_chunk) AudioPlayer.initial = Ok w'
    /\ AudioPlayer.events w'
       = [AudioPlayer.ContextCreated 0; AudioPlayer.GainConnected 1;
          AudioPlayer.ConsoleError]
    /\ AudioPlayer.currentSourceRef (AudioPlayer.refs w') = None.
Proof.
  destruct (narration_effect malformed_chunk AudioPlayer.initial
              eq_refl eq_refl eq_refl) as (w' & H0 & _ & _ & H3).
  exists w'. split; [exact H0|].
  assert (decodeChunk malformed_chunk = Throw RangeError) as E
    by (vm_compute; reflexivity).
  rewrite E in H3. exact H3.
Defined.
